(** * Update generator of the dependency lookup: [generateUpdate]

    Shallow embedding of [generateUpdate], the update generator of the
    lookup worker (source lines 243-349), and the properties of the update
    descriptor it returns.

    The descriptor is a JavaScript object that the function fills in
    property by property, so it is modelled as a finite map from property
    names to JavaScript values: a property that was never assigned is a
    key that is not in the map.  Calls into the versioning scheme and the
    other collaborators are recorded in a trace, and the one call the source
    guards with try/catch may throw.

    After it come the other functions of the same sources: the global
    worker, with [getRepositoryConfig] and [start], whose calls into the
    modules around it are recorded in the state of a run; and the Maven
    manager, with the placeholder resolution of [applyProps] and the
    property scopes of [resolveParents]. *)

From Stdlib Require Import ZArith String Ascii List Bool.
From stdpp Require Import base option gmap strings.

Open Scope string_scope.

(** ** JavaScript values *)

(** The values that the properties of a descriptor hold. *)
Inductive value : Type :=
| VUndefined
| VNull
| VBool (b : bool)
| VNum (n : Z)
| VStr (s : string).

#[global] Instance value_eq_dec : EqDecision value.
Proof. solve_decision. Defined.

(** [ToBoolean]: what [if (v)] and [!v] test. *)
Definition truthy (v : value) : bool :=
  match v with
  | VUndefined | VNull => false
  | VBool b => b
  | VNum n => negb (n =? 0)%Z
  | VStr s => negb (String.eqb s "")
  end.

(** [a === b] on the values above. *)
Definition strict_eq (a b : value) : bool := bool_decide (a = b).

(** A parameter of type [string | undefined]. *)
Definition of_optional (o : option string) : value :=
  match o with
  | Some s => VStr s
  | None => VUndefined
  end.

(** A result of type [string | null]. *)
Definition of_nullable (o : option string) : value :=
  match o with
  | Some s => VStr s
  | None => VNull
  end.

(** A result of type [number | null]. *)
Definition of_nullable_num (o : option Z) : value :=
  match o with
  | Some n => VNum n
  | None => VNull
  end.

(** [if (x)] on [x : string | undefined] narrows [x] to a non-empty string
    in the then-branch. *)
Definition narrow (o : option string) : option string :=
  match o with
  | Some s => if truthy (VStr s) then Some s else None
  | None => None
  end.

(** Reading a property: an absent property reads as [undefined]. *)
Definition get (o : gmap string value) (k : string) : value :=
  default VUndefined (o !! k).

(** ** Types of the collaborators *)

(** Modelled from the spec: the [RangeStrategy] enum, declared in
    lib/types, section 3 of the specification. *)
Inductive RangeStrategy : Type :=
| RS_auto
| RS_bump
| RS_in_range_only
| RS_pin
| RS_replace
| RS_update_lockfile
| RS_widen.

#[global] Instance RangeStrategy_eq_dec : EqDecision RangeStrategy.
Proof. solve_decision. Defined.

(** Modelled from the spec: the [UpdateType] enum, declared in
    lib/config/types, section 3 of the specification. *)
Inductive UpdateType : Type :=
| UT_major
| UT_minor
| UT_patch
| UT_pin
| UT_digest
| UT_rollback
| UT_replacement
| UT_bump.

(** The string an [UpdateType] is at run time. *)
Definition UpdateType_str (t : UpdateType) : string :=
  match t with
  | UT_major => "major"
  | UT_minor => "minor"
  | UT_patch => "patch"
  | UT_pin => "pin"
  | UT_digest => "digest"
  | UT_rollback => "rollback"
  | UT_replacement => "replacement"
  | UT_bump => "bump"
  end.

(** What a [throw] carries. *)
Definition exn : Type := string.

(** The fields of [Release] that [generateUpdate] reads; [None] is
    [undefined]. *)
Record Release : Type := {
  version : string;
  checksumUrl : option string;
  downloadUrl : option string;
  newDigest : option string;
  releaseTimestamp : option string;
  registryUrl : option string
}.

(** The argument of [getNewValue]. *)
Record NewValueConfig : Type := {
  nv_currentValue : string;
  nv_rangeStrategy : RangeStrategy;
  nv_currentVersion : option string;
  nv_newVersion : string
}.

(** The methods of [VersioningApi] that [generateUpdate] calls.
    [getNewValue] is the call inside try/catch (lines 287-300): it throws
    ([inl]) or returns [string | null] (the source asserts the result
    non-null with [!], so the declared type includes [null]).
    [isBreaking] is an optional method ([if (versioningApi.isBreaking)]). *)
Record VersioningApi : Type := {
  getNewValue : NewValueConfig -> exn + option string;
  getMajor : string -> option Z;
  getMinor : string -> option Z;
  getPatch : string -> option Z;
  isBreaking : option (option string -> string -> bool);
  isVersion : value -> bool;
  matches : string -> option string -> bool
}.

Record PackageRule : Type := {
  matchConfidence : option (list string)
}.

(** The fields of [LookupUpdateConfig] that [generateUpdate] reads. *)
Record LookupUpdateConfig : Type := {
  datasource : string;
  packageName : string;
  packageRules : option (list PackageRule)
}.

(** The descriptor under construction. *)
Abbreviation LookupUpdate := (gmap string value).

(** [is.nonEmptyArray] on [string[] | undefined]. *)
Definition nonEmptyArray (o : option (list string)) : bool :=
  match o with
  | Some (_ :: _) => true
  | _ => false
  end.

(** [packageRules?.some((pr) => is.nonEmptyArray(pr.matchConfidence))],
    as the condition of an [if]. *)
Definition wantsConfidence (config : LookupUpdateConfig) : bool :=
  match packageRules config with
  | Some prs => existsb (fun pr => nonEmptyArray (matchConfidence pr)) prs
  | None => false
  end.

(** ** Effects: a trace of calls, and exceptions *)

Inductive event : Type :=
| Call_getElapsedDays (timestamp : string)
| Call_getNewValue (c : NewValueConfig)
| Log_warn (err : exn) (c : NewValueConfig) (msg : string)
| Call_getMajor (v : string)
| Call_getMinor (v : string)
| Call_getPatch (v : string)
| Log_debug (update : LookupUpdate) (msg : string)
| Call_getUpdateType (currentVersion : option string) (newVersion : string)
| Call_isBreaking (currentVersion : option string) (newVersion : string)
| Call_getMergeConfidenceLevel
    (datasource packageName : string) (currentVersion : option string)
    (newVersion : string) (updateType : value)
| Call_isVersion (v : value)
| Call_matches (version : string) (range : option string).

Module Eff.

(** A computation: the events it has emitted, and a thrown exception or
    a result. *)
Definition M (A : Type) : Type := list event * (exn + A).

Definition ret {A} (a : A) : M A := ([], inr a).

Definition bind {A B} (m : M A) (k : A -> M B) : M B :=
  match m with
  | (t, inl e) => (t, inl e)
  | (t, inr a) => let '(t', r) := k a in ((t ++ t')%list, r)
  end.

(** An external call that returns. *)
Definition call {A} (e : event) (a : A) : M A := ([e], inr a).

(** An external call that may throw. *)
Definition call_throwing {A} (e : event) (r : exn + A) : M A := ([e], r).

Definition emit (e : event) : M unit := ([e], inr tt).

(** [try { body } catch (err) { handler(err) }] *)
Definition try_catch {A} (body : M A) (handler : exn -> M A) : M A :=
  match body with
  | (t, inl e) => let '(t', r) := handler e in ((t ++ t')%list, r)
  | (t, inr a) => (t, inr a)
  end.

Definition trace {A} (m : M A) : list event := fst m.
Definition outcome {A} (m : M A) : exn + A := snd m.

End Eff.

Import Eff.

Notation "'let!' x ':=' m 'in' k" := (bind m (fun x => k))
  (at level 10, x name, m at level 100, k at level 200).
Notation "'do!' m 'in' k" := (bind m (fun _ => k))
  (at level 10, m at level 100, k at level 200).

(** ** The update generator *)

(** [if (release.f !== undefined) { update.f = release.f; }] *)
Definition assign_if_defined
    (k : string) (o : option string) (update : LookupUpdate) : LookupUpdate :=
  match o with
  | Some s => <[k := VStr s]> update
  | None => update
  end.

Section Generate.

(** Functions imported from modules that are not part of this
    development: util/date, ./update-type and util/merge-confidence.
    The awaited promise of [getMergeConfidenceLevel] is its result,
    [None] being [undefined]. *)
Variable getElapsedDays : string -> Z.
Variable getUpdateType :
  LookupUpdateConfig -> VersioningApi -> option string -> string ->
  UpdateType.
Variable getMergeConfidenceLevel :
  string -> string -> option string -> string -> value -> option string.

(** [generateUpdate], lines 243-349.  [currentVersion] is declared
    [string]; the guard of line 308 tests it for falsiness, so both the
    empty string and a missing argument ([None]) are covered. *)
Definition generateUpdate
    (config : LookupUpdateConfig)
    (currentValue : option string)
    (versioningApi : VersioningApi)
    (rangeStrategy : RangeStrategy)
    (currentVersion : option string)
    (bucket : string)
    (release : Release) : M LookupUpdate :=
  let newVersion := version release in
  let update : LookupUpdate :=
    <["bucket" := VStr bucket]>
      (<["newVersion" := VStr newVersion]>
         (<["newValue" := VNull]> ∅)) in
  let update := assign_if_defined "checksumUrl" (checksumUrl release) update in
  let update := assign_if_defined "downloadUrl" (downloadUrl release) update in
  let update := assign_if_defined "newDigest" (newDigest release) update in
  let! update :=
    match narrow (releaseTimestamp release) with
    | Some ts =>
        let update := <["releaseTimestamp" := VStr ts]> update in
        let! days := call (Call_getElapsedDays ts) (getElapsedDays ts) in
        ret (<["newVersionAgeInDays" := VNum days]> update)
    | None => ret update
    end in
  let update := assign_if_defined "registryUrl" (registryUrl release) update in
  let! update :=
    match narrow currentValue with
    | Some cv =>
        let c := {| nv_currentValue := cv;
                    nv_rangeStrategy := rangeStrategy;
                    nv_currentVersion := currentVersion;
                    nv_newVersion := newVersion |} in
        try_catch
          (let! v := call_throwing (Call_getNewValue c)
                                   (getNewValue versioningApi c) in
           ret (<["newValue" := of_nullable v]> update))
          (fun err =>
             do! emit (Log_warn err c "getNewValue error") in
             ret (<["newValue" := VStr cv]> update))
    | None => ret (<["newValue" := of_optional currentValue]> update)
    end in
  let! major := call (Call_getMajor newVersion)
                     (getMajor versioningApi newVersion) in
  let update := <["newMajor" := of_nullable_num major]> update in
  let! minor := call (Call_getMinor newVersion)
                     (getMinor versioningApi newVersion) in
  let update := <["newMinor" := of_nullable_num minor]> update in
  let! patch := call (Call_getPatch newVersion)
                     (getPatch versioningApi newVersion) in
  let update := <["newPatch" := of_nullable_num patch]> update in
  if negb (truthy (get update "updateType"))
     && negb (truthy (of_optional currentVersion))
  then
    do! emit (Log_debug update "Update has no currentVersion") in
    let update := <["newValue" := of_optional currentValue]> update in
    ret update
  else
    let! updateType :=
      match get update "updateType" with
      | VUndefined | VNull =>
          let! t := call (Call_getUpdateType currentVersion newVersion)
                         (getUpdateType config versioningApi
                                        currentVersion newVersion) in
          ret (VStr (UpdateType_str t))
      | v => ret v
      end in
    let update := <["updateType" := updateType]> update in
    let! breaking :=
      match isBreaking versioningApi with
      | Some isBreaking' =>
          call (Call_isBreaking currentVersion newVersion)
               (isBreaking' currentVersion newVersion)
      | None => ret (strict_eq (get update "updateType") (VStr "major"))
      end in
    let update := <["isBreaking" := VBool breaking]> update in
    let! update :=
      if wantsConfidence config then
        let updateType := get update "updateType" in
        let! level :=
          call (Call_getMergeConfidenceLevel
                  (datasource config) (packageName config)
                  currentVersion newVersion updateType)
               (getMergeConfidenceLevel
                  (datasource config) (packageName config)
                  currentVersion newVersion updateType) in
        ret (<["mergeConfidenceLevel" := of_optional level]> update)
      else ret update in
    let! isVersion' := call (Call_isVersion (get update "newValue"))
                            (isVersion versioningApi (get update "newValue")) in
    let update :=
      if negb isVersion' then <["isRange" := VBool true]> update
      else update in
    let update :=
      if bool_decide (rangeStrategy = RS_update_lockfile)
         && strict_eq (of_optional currentValue) (get update "newValue")
      then <["isLockfileUpdate" := VBool true]> update
      else update in
    let! matches' :=
      if bool_decide (rangeStrategy = RS_bump) then
        call (Call_matches newVersion currentValue)
             (matches versioningApi newVersion currentValue)
      else ret false in
    let update :=
      if matches' then <["isBump" := VBool true]> update else update in
    ret update.

(** *** The phases of [generateUpdate]

    The same code cut at the guard of line 308: [prepare] is lines
    252-306, [early_exit] lines 309-311 and [finish] lines 313-348.
    [generateUpdate_phases] below shows that [generateUpdate] is their
    composition. *)

Definition prepare
    (currentValue : option string)
    (versioningApi : VersioningApi)
    (rangeStrategy : RangeStrategy)
    (currentVersion : option string)
    (bucket : string)
    (release : Release) : M LookupUpdate :=
  let newVersion := version release in
  let update : LookupUpdate :=
    <["bucket" := VStr bucket]>
      (<["newVersion" := VStr newVersion]>
         (<["newValue" := VNull]> ∅)) in
  let update := assign_if_defined "checksumUrl" (checksumUrl release) update in
  let update := assign_if_defined "downloadUrl" (downloadUrl release) update in
  let update := assign_if_defined "newDigest" (newDigest release) update in
  let! update :=
    match narrow (releaseTimestamp release) with
    | Some ts =>
        let update := <["releaseTimestamp" := VStr ts]> update in
        let! days := call (Call_getElapsedDays ts) (getElapsedDays ts) in
        ret (<["newVersionAgeInDays" := VNum days]> update)
    | None => ret update
    end in
  let update := assign_if_defined "registryUrl" (registryUrl release) update in
  let! update :=
    match narrow currentValue with
    | Some cv =>
        let c := {| nv_currentValue := cv;
                    nv_rangeStrategy := rangeStrategy;
                    nv_currentVersion := currentVersion;
                    nv_newVersion := newVersion |} in
        try_catch
          (let! v := call_throwing (Call_getNewValue c)
                                   (getNewValue versioningApi c) in
           ret (<["newValue" := of_nullable v]> update))
          (fun err =>
             do! emit (Log_warn err c "getNewValue error") in
             ret (<["newValue" := VStr cv]> update))
    | None => ret (<["newValue" := of_optional currentValue]> update)
    end in
  let! major := call (Call_getMajor newVersion)
                     (getMajor versioningApi newVersion) in
  let update := <["newMajor" := of_nullable_num major]> update in
  let! minor := call (Call_getMinor newVersion)
                     (getMinor versioningApi newVersion) in
  let update := <["newMinor" := of_nullable_num minor]> update in
  let! patch := call (Call_getPatch newVersion)
                     (getPatch versioningApi newVersion) in
  ret (<["newPatch" := of_nullable_num patch]> update).

(** The condition of line 308. *)
Definition guard (currentVersion : option string) (update : LookupUpdate)
    : bool :=
  negb (truthy (get update "updateType"))
  && negb (truthy (of_optional currentVersion)).

Definition early_exit (currentValue : option string) (update : LookupUpdate)
    : M LookupUpdate :=
  do! emit (Log_debug update "Update has no currentVersion") in
  ret (<["newValue" := of_optional currentValue]> update).

Definition finish
    (config : LookupUpdateConfig)
    (currentValue : option string)
    (versioningApi : VersioningApi)
    (rangeStrategy : RangeStrategy)
    (currentVersion : option string)
    (newVersion : string)
    (update : LookupUpdate) : M LookupUpdate :=
  let! updateType :=
    match get update "updateType" with
    | VUndefined | VNull =>
        let! t := call (Call_getUpdateType currentVersion newVersion)
                       (getUpdateType config versioningApi
                                      currentVersion newVersion) in
        ret (VStr (UpdateType_str t))
    | v => ret v
    end in
  let update := <["updateType" := updateType]> update in
  let! breaking :=
    match isBreaking versioningApi with
    | Some isBreaking' =>
        call (Call_isBreaking currentVersion newVersion)
             (isBreaking' currentVersion newVersion)
    | None => ret (strict_eq (get update "updateType") (VStr "major"))
    end in
  let update := <["isBreaking" := VBool breaking]> update in
  let! update :=
    if wantsConfidence config then
      let updateType := get update "updateType" in
      let! level :=
        call (Call_getMergeConfidenceLevel
                (datasource config) (packageName config)
                currentVersion newVersion updateType)
             (getMergeConfidenceLevel
                (datasource config) (packageName config)
                currentVersion newVersion updateType) in
      ret (<["mergeConfidenceLevel" := of_optional level]> update)
    else ret update in
  let! isVersion' := call (Call_isVersion (get update "newValue"))
                          (isVersion versioningApi (get update "newValue")) in
  let update :=
    if negb isVersion' then <["isRange" := VBool true]> update
    else update in
  let update :=
    if bool_decide (rangeStrategy = RS_update_lockfile)
       && strict_eq (of_optional currentValue) (get update "newValue")
    then <["isLockfileUpdate" := VBool true]> update
    else update in
  let! matches' :=
    if bool_decide (rangeStrategy = RS_bump) then
      call (Call_matches newVersion currentValue)
           (matches versioningApi newVersion currentValue)
    else ret false in
  let update :=
    if matches' then <["isBump" := VBool true]> update else update in
  ret update.

End Generate.

(** The value that lines 286-303 assign to [newValue]. *)
Definition rewritten
    (currentValue : option string) (versioningApi : VersioningApi)
    (rangeStrategy : RangeStrategy) (currentVersion : option string)
    (newVersion : string) : value :=
  match narrow currentValue with
  | Some cv =>
      match getNewValue versioningApi
              {| nv_currentValue := cv;
                 nv_rangeStrategy := rangeStrategy;
                 nv_currentVersion := currentVersion;
                 nv_newVersion := newVersion |} with
      | inl _ => VStr cv
      | inr v => of_nullable v
      end
  | None => of_optional currentValue
  end.

(** The properties that only lines 313-348 assign. *)
Definition late_keys : list string :=
  ["updateType"; "isBreaking"; "mergeConfidenceLevel";
   "isRange"; "isLockfileUpdate"; "isBump"].

(** The calls that only lines 313-348 make. *)
Definition late_event (e : event) : bool :=
  match e with
  | Call_getUpdateType _ _
  | Call_isBreaking _ _
  | Call_getMergeConfidenceLevel _ _ _ _ _
  | Call_isVersion _
  | Call_matches _ _ => true
  | _ => false
  end.

Definition is_getNewValue (e : event) : bool :=
  match e with
  | Call_getNewValue _ => true
  | _ => false
  end.

(** A trace in which a throw of the rewrite, if there was one, has been
    logged as a warning with the arguments of the call (lines 295-298). *)
Definition rewrite_failure_logged
    (currentValue : option string) (versioningApi : VersioningApi)
    (rangeStrategy : RangeStrategy) (currentVersion : option string)
    (newVersion : string) (t : list event) : Prop :=
  forall cv err,
    narrow currentValue = Some cv ->
    let c := {| nv_currentValue := cv;
                nv_rangeStrategy := rangeStrategy;
                nv_currentVersion := currentVersion;
                nv_newVersion := newVersion |} in
    getNewValue versioningApi c = inl err ->
    In (Log_warn err c "getNewValue error") t.

(** A flag that is absent or [true], never [false]. *)
Definition absent_or_true (update : LookupUpdate) (k : string) : Prop :=
  update !! k = None \/ update !! k = Some (VBool true).

(** ** Example collaborators *)

Module Examples.

Definition elapsed (_ : string) : Z := 12.

Definition classify
    (_ : LookupUpdateConfig) (_ : VersioningApi) (_ : option string)
    (_ : string) : UpdateType := UT_minor.

Definition confidence
    (_ _ : string) (_ : option string) (_ : string) (_ : value)
    : option string := Some "high".

(** A scheme of caret ranges: the rewritten range is [^newVersion], only
    strings without a caret are versions, and every version matches. *)
Definition caret : VersioningApi := {|
  getNewValue c := inr (Some ("^" ++ nv_newVersion c));
  getMajor _ := Some 1%Z;
  getMinor _ := Some 5%Z;
  getPatch _ := Some 0%Z;
  isBreaking := None;
  isVersion v :=
    match v with
    | VStr s => negb (String.prefix "^" s)
    | _ => false
    end;
  matches _ _ := true
|}.

(** A scheme that keeps the range as it is, as a lock file update
    needs, and has breaking awareness. *)
Definition keeping : VersioningApi := {|
  getNewValue c := inr (Some (nv_currentValue c));
  getMajor _ := Some 1%Z;
  getMinor _ := Some 5%Z;
  getPatch _ := Some 0%Z;
  isBreaking := Some (fun _ _ => true);
  isVersion v :=
    match v with
    | VStr s => negb (String.prefix "^" s)
    | _ => false
    end;
  matches _ _ := false
|}.

(** A scheme whose rewrite throws. *)
Definition throwing : VersioningApi := {|
  getNewValue _ := inl "unsupported range";
  getMajor _ := Some 1%Z;
  getMinor _ := Some 5%Z;
  getPatch _ := Some 0%Z;
  isBreaking := None;
  isVersion _ := false;
  matches _ _ := false
|}.


Definition plain : LookupUpdateConfig := {|
  datasource := "npm";
  packageName := "left-pad";
  packageRules := None
|}.

Definition gated : LookupUpdateConfig := {|
  datasource := "npm";
  packageName := "left-pad";
  packageRules := Some [ {| matchConfidence := Some ["high"] |} ]
|}.

Definition release_1_5_0 : Release := {|
  version := "1.5.0";
  checksumUrl := None;
  downloadUrl := Some "https://registry.example/left-pad-1.5.0.tgz";
  newDigest := None;
  releaseTimestamp := Some "2024-01-01T00:00:00.000Z";
  registryUrl := None
|}.

Definition run := generateUpdate elapsed classify confidence.

End Examples.

(** The calls of lines 272-275. *)
Definition timestamp_events (release : Release) : list event :=
  match narrow (releaseTimestamp release) with
  | Some ts => [Call_getElapsedDays ts]
  | None => []
  end.

(** The calls of lines 286-303. *)
Definition rewrite_events
    (currentValue : option string) (versioningApi : VersioningApi)
    (rangeStrategy : RangeStrategy) (currentVersion : option string)
    (newVersion : string) : list event :=
  match narrow currentValue with
  | Some cv =>
      let c := {| nv_currentValue := cv;
                  nv_rangeStrategy := rangeStrategy;
                  nv_currentVersion := currentVersion;
                  nv_newVersion := newVersion |} in
      Call_getNewValue c
        :: match getNewValue versioningApi c with
           | inl err => [Log_warn err c "getNewValue error"]
           | inr _ => []
           end
  | None => []
  end.

(** The calls of lines 304-306. *)
Definition parts_events (newVersion : string) : list event :=
  [Call_getMajor newVersion; Call_getMinor newVersion;
   Call_getPatch newVersion].

(** The calls of lines 313-347, on a descriptor whose [newValue] and
    [updateType] are the given ones. *)
Definition finish_events
    (config : LookupUpdateConfig) (currentValue : option string)
    (versioningApi : VersioningApi) (rangeStrategy : RangeStrategy)
    (currentVersion : option string) (newVersion : string)
    (newValue updateType : value) : list event :=
  ([Call_getUpdateType currentVersion newVersion]
   ++ match isBreaking versioningApi with
      | Some _ => [Call_isBreaking currentVersion newVersion]
      | None => []
      end
   ++ (if wantsConfidence config
       then [Call_getMergeConfidenceLevel
               (datasource config) (packageName config)
               currentVersion newVersion updateType]
       else [])
   ++ [Call_isVersion newValue]
   ++ (if bool_decide (rangeStrategy = RS_bump)
       then [Call_matches newVersion currentValue]
       else []))%list.

(** The properties that lines 252-306 may assign. *)
Definition early_keys : list string :=
  ["bucket"; "newVersion"; "newValue"; "checksumUrl"; "downloadUrl";
   "newDigest"; "releaseTimestamp"; "newVersionAgeInDays"; "registryUrl";
   "newMajor"; "newMinor"; "newPatch"].

Definition early_names : gset string := list_to_set early_keys.

(** All the properties that [generateUpdate] may assign. *)
Definition descriptor_names : gset string :=
  list_to_set (early_keys ++ late_keys).

(** ** The repository configuration of the global worker *)

(** [s.split(sep)] for a separator of one character. *)
Fixpoint split_on (sep : ascii) (s : string) : list string :=
  match s with
  | EmptyString => [""]
  | String c s' =>
      if Ascii.eqb c sep then "" :: split_on sep s'
      else match split_on sep s' with
           | h :: t => String c h :: t
           | [] => [String c ""]
           end
  end.

(** [parts.join(sep)] *)
Fixpoint join (sep : string) (parts : list string) : string :=
  match parts with
  | [] => ""
  | [x] => x
  | x :: rest => x ++ sep ++ join sep rest
  end.

(** Whether the character occurs in the string. *)
Fixpoint occurs (c : ascii) (s : string) : bool :=
  match s with
  | EmptyString => false
  | String c' s' => Ascii.eqb c' c || occurs c s'
  end.

(** The argument [repository : RenovateRepository], a name or an object
    with a [repository] property. *)
Definition RenovateRepository : Type := string + gmap string value.

(** What [getRepositoryConfig] does to the file system. *)
Inductive fs_event : Type :=
| Fs_ensureDir (dir : string).

(** The calls and the result of a run that is a pair of both. *)
Definition calls {E A} (r : list E * (exn + A)) : list E := fst r.
Definition result {E A} (r : list E * (exn + A)) : exn + A := snd r.

(** The child configuration handed to [mergeChildConfig], line 39. *)
Definition child_of (repository : RenovateRepository) : gmap string value :=
  match repository with
  | inl name => {["repository" := VStr name]}
  | inr obj => obj
  end.

Section RepositoryConfig.

(** [configParser.mergeChildConfig] and [configParser.filterConfig],
    [GlobalConfig.get('platform')], [process.cwd()], [upath.join] and
    the outcome of [fs.ensureDir]: none of them is part of this
    development. *)
Variable mergeChildConfig :
  gmap string value -> gmap string value -> gmap string value.
Variable filterConfig : gmap string value -> string -> gmap string value.
Variable platform : string.
Variable cwd : string.
Variable upath_join : value -> string -> exn + string.
Variable ensureDir : string -> exn + unit.

(** The directory of the repository, lines 47-53, for the merged
    configuration and the name of the repository. *)
Definition localDir_of (merged : gmap string value) (name : string)
    : exn + string :=
  if String.eqb platform "local" then inr cwd
  else upath_join (get merged "baseDir")
         ("./repos/" ++ platform ++ "/" ++ name).

(** [getRepositoryConfig], lines 33-57.  Reading [repository] off the
    merged configuration and splitting it throws when it is not a
    string. *)
Definition getRepositoryConfig
    (globalConfig : gmap string value) (repository : RenovateRepository)
    : list fs_event * (exn + gmap string value) :=
  let repoConfig :=
    mergeChildConfig globalConfig
      match repository with
      | inl name => {["repository" := VStr name]}
      | inr obj => obj
      end in
  match get repoConfig "repository" with
  | VStr repositoryName =>
      let repoParts := split_on "/" repositoryName in
      let repoParts := removelast repoParts in
      let repoConfig := <["parentOrg" := VStr (join "/" repoParts)]> repoConfig in
      let repoConfig :=
        <["topLevelOrg" := of_optional (head repoParts)]> repoConfig in
      let localDir :=
        if String.eqb platform "local" then inr cwd
        else upath_join (get repoConfig "baseDir")
               ("./repos/" ++ platform ++ "/" ++ repositoryName) in
      match localDir with
      | inl err => ([], inl err)
      | inr localDir =>
          let repoConfig := <["localDir" := VStr localDir]> repoConfig in
          match ensureDir localDir with
          | inl err => ([Fs_ensureDir localDir], inl err)
          | inr _ =>
              let repoConfig := delete "baseDir" repoConfig in
              ([Fs_ensureDir localDir],
               inr (filterConfig repoConfig "repository"))
          end
      end
  | _ => ([], inl "TypeError")
  end.

End RepositoryConfig.

Module RepositoryExamples.

(** The child configuration overrides the global one. *)
Definition merge_child (globalConfig child : gmap string value)
    : gmap string value := child ∪ globalConfig.

Definition keep_all (config : gmap string value) (_ : string)
    : gmap string value := config.

Definition joined (base : value) (rest : string) : exn + string :=
  match base with
  | VStr dir => inr (dir ++ "/" ++ rest)
  | _ => inl "TypeError"
  end.

Definition created (_ : string) : exn + unit := inr tt.

Definition global : gmap string value :=
  {[ "baseDir" := VStr "/tmp/renovate" ]}.

Definition config_of :=
  getRepositoryConfig merge_child keep_all "gitlab" "/work" joined created.

End RepositoryExamples.

(** ** Placeholders of the Maven manager *)

Module Maven.

(** The text up to the first closing brace, and the text after it. *)
Fixpoint until_close (s : string) : option (string * string) :=
  match s with
  | EmptyString => None
  | String c s' =>
      if Ascii.eqb c "}" then Some ("", s')
      else match until_close s' with
           | Some (inner, rest) => Some (String c inner, rest)
           | None => None
           end
  end.

(** A match of [\${[^}]*?}] at the start of the string: a dollar, an
    opening brace, and the characters up to the first closing brace.  The
    result is the text between the braces and the text after the match. *)
Definition placeholder_at (s : string) : option (string * string) :=
  match s with
  | String "$" (String "{" rest) => until_close rest
  | _ => None
  end.

(** A string cut at the matches of the global expression [\${[^}]*?}]:
    the matches, leftmost first and not overlapping, and the characters
    between them. *)
Inductive token : Type :=
| Text (c : ascii)
| Placeholder (inner : string).

(** [skip] counts the characters that still belong to the last match. *)
Fixpoint tokens_from (s : string) (skip : nat) : list token :=
  match s with
  | EmptyString => []
  | String c s' =>
      match skip with
      | S skip' => tokens_from s' skip'
      | O =>
          match placeholder_at s with
          | Some (inner, _) =>
              Placeholder inner :: tokens_from s' (String.length inner + 2)
          | None => Text c :: tokens_from s' 0
          end
      end
  end.

Definition tokens (s : string) : list token := tokens_from s 0.

(** The matched text [substr]. *)
Definition substr_of (inner : string) : string := "${" ++ inner ++ "}".

Definition text_of (t : token) : string :=
  match t with
  | Text c => String c ""
  | Placeholder inner => substr_of inner
  end.

Definition is_placeholder (t : token) : bool :=
  match t with
  | Placeholder _ => true
  | Text _ => false
  end.

(** [regEx(/\${[^}]*?}/).test(s)] *)
Definition has_placeholder (s : string) : bool :=
  existsb is_placeholder (tokens s).

(** A match of the anchored expression [^\${[^}]*?}$]: the whole string
    is one placeholder. *)
Definition whole_placeholder (s : string) : option string :=
  match placeholder_at s with
  | Some (inner, EmptyString) => Some inner
  | _ => None
  end.

(** [containsPlaceholder], lines 83-85, on [string | null | undefined]. *)
Definition containsPlaceholder (str : value) : bool :=
  truthy str
  && match str with
     | VStr s => has_placeholder s
     | _ => false
     end.

(** [MavenProp], as line 415 builds it. *)
Record MavenProp : Type := {
  val : string;
  prop_fileReplacePosition : nat;
  packageFile : option string
}.

(** The properties of a [PackageDependency] that the placeholder
    resolution reads or writes; [depType] and [dep_datasource], the
    [datasource] of the dependency, stand for the
    ones it only copies.  [registryUrls] is an array here: line 558
    assigns one to every dependency before line 567 resolves it. *)
Record PackageDependency : Type := {
  depName : option string;
  currentValue : value;
  registryUrls : list string;
  fileReplacePosition : option nat;
  propSource : option string;
  sharedVariableName : option string;
  editFile : option string;
  skipReason : option string;
  depType : option string;
  dep_datasource : option string
}.

Definition set_skipReason (reason : string) (dep : PackageDependency)
    : PackageDependency :=
  {| depName := depName dep;
     currentValue := currentValue dep;
     registryUrls := registryUrls dep;
     fileReplacePosition := fileReplacePosition dep;
     propSource := propSource dep;
     sharedVariableName := sharedVariableName dep;
     editFile := editFile dep;
     skipReason := Some reason;
     depType := depType dep;
     dep_datasource := dep_datasource dep |}.

(** The variables that the callbacks of [applyPropsInternal] close
    over. *)
Record closure : Type := {
  anyChange : bool;
  fatal : bool;
  seenProps : gset string;
  cl_sharedVariableName : option string;
  cl_fileReplacePosition : option nat;
  cl_propSource : option string
}.

(** [s] without its first [n] characters. *)
Fixpoint string_drop (n : nat) (s : string) : string :=
  match n, s with
  | O, _ => s
  | S n', String _ s' => string_drop n' s'
  | S _, EmptyString => ""
  end.

(** The tokens, written out again. *)
Definition flatten (ts : list token) : string :=
  fold_right (fun t acc => text_of t ++ acc) "" ts.

Section ApplyProps.

(** [String.prototype.trim] *)
Variable trim : string -> string.

(** The properties in scope, an object used as a map from names; what
    a name finds on [Object.prototype] is left out. *)
Variable props : gmap string MavenProp.

(** The bookkeeping both callbacks share, lines 293-298 and 328-333. *)
Definition mark_seen (previouslySeenProps : gset string) (propKey : string)
    (cl : closure) : closure :=
  {| anyChange := true;
     fatal :=
       if bool_decide (propKey ∈ previouslySeenProps) then true
       else fatal cl;
     seenProps :=
       if bool_decide (propKey ∈ previouslySeenProps) then seenProps cl
       else {[propKey]} ∪ seenProps cl;
     cl_sharedVariableName := cl_sharedVariableName cl;
     cl_fileReplacePosition := cl_fileReplacePosition cl;
     cl_propSource := cl_propSource cl |}.

(** The callback of [replaceAll], lines 288-302, on one token. *)
Definition replace_token (previouslySeenProps : gset string) (t : token)
    (cl : closure) : string * closure :=
  match t with
  | Text c => (String c "", cl)
  | Placeholder inner =>
      let propKey := trim inner in
      match props !! propKey with
      | Some propValue =>
          (val propValue, mark_seen previouslySeenProps propKey cl)
      | None => (substr_of inner, cl)
      end
  end.

Fixpoint replace_tokens (previouslySeenProps : gset string)
    (ts : list token) (cl : closure) : string * closure :=
  match ts with
  | [] => ("", cl)
  | t :: ts' =>
      let '(s, cl) := replace_token previouslySeenProps t cl in
      let '(rest, cl) := replace_tokens previouslySeenProps ts' cl in
      (s ++ rest, cl)
  end.

(** [replaceAll], lines 287-302. *)
Definition replaceAll (previouslySeenProps : gset string) (str : string)
    (cl : closure) : string * closure :=
  replace_tokens previouslySeenProps (tokens str) cl.

(** [dep.registryUrls.map((url) => replaceAll(url))] *)
Fixpoint replaceAll_each (previouslySeenProps : gset string)
    (urls : list string) (cl : closure) : list string * closure :=
  match urls with
  | [] => ([], cl)
  | url :: urls' =>
      let '(url, cl) := replaceAll previouslySeenProps url cl in
      let '(rest, cl) := replaceAll_each previouslySeenProps urls' cl in
      (url :: rest, cl)
  end.

(** The replacement of lines 317-337. *)
Definition replace_version (previouslySeenProps : gset string)
    (str : string) (cl : closure) : string * closure :=
  match whole_placeholder str with
  | Some inner =>
      let propKey := trim inner in
      match props !! propKey with
      | Some propValue =>
          let cl := mark_seen previouslySeenProps propKey cl in
          (val propValue,
           {| anyChange := anyChange cl;
              fatal := fatal cl;
              seenProps := seenProps cl;
              cl_sharedVariableName :=
                match cl_sharedVariableName cl with
                | Some name => Some name
                | None => Some propKey
                end;
              cl_fileReplacePosition :=
                Some (prop_fileReplacePosition propValue);
              cl_propSource := packageFile propValue |})
      | None => (str, cl)
      end
  | None => (str, cl)
  end.

(** The closure at the start of a call, lines 282-285 and 311-314. *)
Definition initial_closure (dep : PackageDependency) : closure :=
  {| anyChange := false;
     fatal := false;
     seenProps := ∅;
     cl_sharedVariableName := None;
     cl_fileReplacePosition := fileReplacePosition dep;
     cl_propSource := propSource dep |}.

(** Lines 304-307. *)
Definition resolve_name (previouslySeenProps : gset string)
    (dep : PackageDependency) (cl : closure) : option string * closure :=
  match narrow (depName dep) with
  | Some name =>
      let '(name, cl) := replaceAll previouslySeenProps name cl in
      (Some name, cl)
  | None => (depName dep, cl)
  end.

(** Lines 314-338: a falsy [currentValue] becomes [null]. *)
Definition resolve_version (previouslySeenProps : gset string)
    (dep : PackageDependency) (cl : closure) : value * closure :=
  match currentValue dep with
  | VStr v =>
      if truthy (VStr v)
      then let '(v, cl) := replace_version previouslySeenProps v cl in
           (VStr v, cl)
      else (VNull, cl)
  | _ => (VNull, cl)
  end.

(** Lines 340-355. *)
Definition build_result (dep : PackageDependency) (depPackageFile : string)
    (depName' : option string) (registryUrls' : list string)
    (currentValue' : value) (cl : closure) : PackageDependency :=
  {| depName := depName';
     currentValue := currentValue';
     registryUrls := registryUrls';
     fileReplacePosition := cl_fileReplacePosition cl;
     propSource := cl_propSource cl;
     sharedVariableName :=
       match narrow (cl_sharedVariableName cl) with
       | Some name => Some name
       | None => sharedVariableName dep
       end;
     editFile :=
       match narrow (cl_propSource cl) with
       | Some source =>
           if String.eqb depPackageFile source then editFile dep
           else Some source
       | None => editFile dep
       end;
     skipReason := skipReason dep;
     depType := depType dep;
     dep_datasource := dep_datasource dep |}.

(** [applyPropsInternal], lines 276-361: the result, [anyChange],
    [fatal], and [previouslySeenProps] as the call leaves it. *)
Definition applyPropsInternal
    (dep : PackageDependency) (depPackageFile : string)
    (previouslySeenProps : gset string)
    : PackageDependency * bool * bool * gset string :=
  let cl := initial_closure dep in
  let '(depName', cl) := resolve_name previouslySeenProps dep cl in
  let '(registryUrls', cl) :=
    replaceAll_each previouslySeenProps (registryUrls dep) cl in
  let '(currentValue', cl) := resolve_version previouslySeenProps dep cl in
  (build_result dep depPackageFile depName' registryUrls' currentValue' cl,
   anyChange cl, fatal cl, previouslySeenProps ∪ seenProps cl).

(** The loop of [applyProps], lines 252-265, for at most [rounds] calls
    of [applyPropsInternal]: [None] when that was not enough, the
    dependency to return otherwise, with whether the loop ended on
    [fatal]. *)
Fixpoint applyProps_loop (rounds : nat)
    (result : PackageDependency) (depPackageFile : string)
    (alreadySeenProps : gset string)
    : option (PackageDependency * bool) :=
  match rounds with
  | O => None
  | S rounds' =>
      let '(returnedResult, returnedAnyChange, fatal, alreadySeenProps) :=
        applyPropsInternal result depPackageFile alreadySeenProps in
      if fatal then Some (returnedResult, true)
      else if returnedAnyChange
           then applyProps_loop rounds' returnedResult depPackageFile
                  alreadySeenProps
           else Some (returnedResult, false)
  end.

(** [applyProps], lines 243-274. *)
Definition applyProps (rounds : nat)
    (dep : PackageDependency) (depPackageFile : string)
    : option PackageDependency :=
  match applyProps_loop rounds dep depPackageFile ∅ with
  | None => None
  | Some (_, true) => Some (set_skipReason "recursive-placeholder" dep)
  | Some (result, false) =>
      if containsPlaceholder (of_optional (depName result))
      then Some (set_skipReason "name-placeholder" result)
      else if containsPlaceholder (currentValue result)
           then Some (set_skipReason "version-placeholder" result)
           else Some result
  end.

(** What the callbacks keep true of their closure: only properties in
    scope that were not seen before are recorded, and a change sets
    [fatal] or records one. *)
Definition consistent (previouslySeenProps : gset string) (cl : closure)
    : Prop :=
  seenProps cl ⊆ dom props
  /\ seenProps cl ## previouslySeenProps
  /\ (anyChange cl = true -> fatal cl = true \/ seenProps cl <> ∅)
  /\ (fatal cl = true -> previouslySeenProps <> ∅).

(** The callbacks of the name and of the registry URLs leave the
    position, the source and the shared variable alone. *)
Definition untouched (cl cl' : closure) : Prop :=
  cl_sharedVariableName cl' = cl_sharedVariableName cl
  /\ cl_fileReplacePosition cl' = cl_fileReplacePosition cl
  /\ cl_propSource cl' = cl_propSource cl.

(** Tokens whose placeholders name no property in scope. *)
Definition unresolvable (ts : list token) : Prop :=
  Forall (fun t =>
            match t with
            | Placeholder inner => props !! trim inner = None
            | Text _ => True
            end) ts.

(** [currentValue] as a call without a match leaves it. *)
Definition normal_version (v : value) : value :=
  match v with
  | VStr s => if truthy (VStr s) then VStr s else VNull
  | _ => VNull
  end.

(** A dependency none of whose placeholders names a property in
    scope. *)
Definition unresolved (dep : PackageDependency) : Prop :=
  (forall name, narrow (depName dep) = Some name ->
                unresolvable (tokens name))
  /\ Forall (fun url => unresolvable (tokens url)) (registryUrls dep)
  /\ (forall v inner,
        currentValue dep = VStr v ->
        whole_placeholder v = Some inner ->
        props !! trim inner = None).

End ApplyProps.

End Maven.

Module MavenExamples.
Import Maven.

(** Spaces are cut off both ends. *)
Fixpoint drop_spaces (s : string) : string :=
  match s with
  | String " " s' => drop_spaces s'
  | _ => s
  end.

Definition trim_spaces (s : string) : string :=
  String.rev (drop_spaces (String.rev (drop_spaces s))).

Definition revision_props : gmap string MavenProp :=
  {[ "revision" := {| val := "1.2.3";
                      prop_fileReplacePosition := 120;
                      packageFile := Some "parent/pom.xml" |} ]}.

Definition looping_props : gmap string MavenProp :=
  {[ "revision" := {| val := "${revision}";
                      prop_fileReplacePosition := 120;
                      packageFile := Some "pom.xml" |} ]}.

Definition library : PackageDependency :=
  {| depName := Some "org.example:library";
     currentValue := VStr "${ revision }";
     registryUrls := ["https://repo.example/maven2"];
     fileReplacePosition := Some 840;
     propSource := None;
     sharedVariableName := None;
     editFile := None;
     skipReason := None;
     depType := Some "compile";
     dep_datasource := Some "maven" |}.

End MavenExamples.

(** ** The global worker *)

Module Worker.

(** What a [throw] carries, as far as [start] looks at it:
    [err.message].  Every thrown value is taken to be an [Error], so that
    its [message] is a string. *)
Record error : Type := { message : string }.

(** [regexEngineStatus], of which [start] reads [type] and [err]. *)
Inductive RegexEngineStatus : Type :=
| Regex_available
| Regex_unavailable (err : error)
| Regex_ignored.

(** The double quote of a log message. *)
Definition quote : string := String (ascii_of_nat 34) EmptyString.

(** How a block of statements ends: it runs to its end, it returns from
    the function, or it throws. *)
Inductive completion (A : Type) : Type :=
| Normal (a : A)
| Return (code : Z)
| Throw (err : error).

Arguments Normal {A} a.
Arguments Return {A} code.
Arguments Throw {A} err.

Section Calls.

(** The configuration, a repository to process, its configuration, and
    a host rule: [start] only hands them on. *)
Context {Config Repository RepoConfig HostRule : Type}.

(** The calls [start] makes, in the order it makes them. *)
Inductive action : Type :=
| Log (level : string) (msg : string)
| Call_getEnv
| Call_addSecretForSanitizing (secret : value)
| Call_instrument (name : string)
| Call_parseConfigs
| Call_GlobalConfig_set (config : Config) (withPlatform : bool)
| Call_globalInitialize (config : Config)
| Call_resolveConfigPresets (config : Config)
| Call_setGlobalLogLevelRemaps (config : Config)
| Call_validateConfigSecretsAndVariables (config : Config)
| Call_autodiscoverRepositories (config : option Config)
| Call_writeFile (path : string) (content : string)
| Call_isLimitReached (limit : string)
| Call_getRepositoryConfig (config : Config) (repository : Repository)
| Call_hostRules_clear
| Call_hostRules_add (rule : HostRule)
| Call_queue_clear
| Call_throttle_clear
| Call_renovateRepository (repoConfig : RepoConfig)
| Call_setMeta
| Call_finalizeReport
| Call_exportStats (config : Config)
| Call_globalFinalize (config : option Config)
| Call_logLevel
| Call_getProblems.

Definition is_finalize (c : action) : bool :=
  match c with
  | Call_globalFinalize _ => true
  | _ => false
  end.

(** The calls that process a repository. *)
Definition is_repository_call (c : action) : bool :=
  match c with
  | Call_getRepositoryConfig _ _ | Call_renovateRepository _ => true
  | _ => false
  end.

Definition is_writeFile (c : action) : bool :=
  match c with
  | Call_writeFile _ _ => true
  | _ => false
  end.

(** The calls of the lines after the loop, 198-199. *)
Definition is_report (c : action) : bool :=
  match c with
  | Call_finalizeReport | Call_exportStats _ => true
  | _ => false
  end.

(** The repositories that were started, with the configuration they were
    started with. *)
Definition started (t : list action) : list (Config * Repository) :=
  omap (fun c =>
          match c with
          | Call_getRepositoryConfig config repository =>
              Some (config, repository)
          | _ => None
          end) t.

(** The state of a run: the calls made so far, and the local variable
    [config], [None] while it is unassigned. *)
Record state : Type := {
  history : list action;
  config : option Config
}.

Definition W (A : Type) : Type := state -> state * completion A.

Definition wret {A} (a : A) : W A := fun s => (s, Normal a).

Definition wbind {A B} (m : W A) (k : A -> W B) : W B :=
  fun s =>
    match m s with
    | (s', Normal a) => k a s'
    | (s', Return code) => (s', Return code)
    | (s', Throw err) => (s', Throw err)
    end.

Definition record (c : action) (s : state) : state :=
  {| history := history s ++ [c]; config := config s |}.

(** A call that returns; what it returns may depend on what happened
    before. *)
Definition ask {A} (c : action) (answer : list action -> A) : W A :=
  fun s => (record c s, Normal (answer (history s))).

(** A call that returns or throws. *)
Definition attempt {A} (c : action) (answer : list action -> error + A) : W A :=
  fun s =>
    (record c s,
     match answer (history s) with
     | inl err => Throw err
     | inr a => Normal a
     end).

Definition perform (c : action) : W unit := fun s => (record c s, Normal tt).

Definition throw {A} (err : error) : W A := fun s => (s, Throw err).

(** [return code;] *)
Definition return_ {A} (code : Z) : W A := fun s => (s, Return code).

Definition get_config : W (option Config) :=
  fun s => (s, Normal (config s)).

(** [config = c;] *)
Definition set_config (c : Config) : W unit :=
  fun s => ({| history := history s; config := Some c |}, Normal tt).

(** [try { body } catch (err) { handler(err) }] *)
Definition wtry_catch {A} (body : W A) (handler : error -> W A) : W A :=
  fun s =>
    match body s with
    | (s', Throw err) => handler err s'
    | r => r
    end.

(** [try { body } finally { finalizer }]: the finalizer runs however the
    body ended, and the body's way of ending stands unless the finalizer
    throws. *)
Definition try_finally {A} (body : W A) (finalizer : W unit) : W A :=
  fun s =>
    match body s with
    | (s', r) =>
        match finalizer s' with
        | (s'', Normal _) => (s'', r)
        | (s'', Return code) => (s'', Return code)
        | (s'', Throw err) => (s'', Throw err)
        end
    end.


(** [if (b) { m }] *)
Definition when (b : bool) (m : W unit) : W unit :=
  if b then m else wret tt.

(** [for (const x of xs) { body(x) }], where the body says whether to
    [break]. *)
Fixpoint for_of {A} (xs : list A) (body : A -> W bool) : W unit :=
  match xs with
  | [] => wret tt
  | x :: xs' =>
      wbind (body x) (fun stop => if stop then wret tt else for_of xs' body)
  end.

End Calls.

Notation "'let*' x ':=' m 'in' k" := (wbind m (fun x => k))
  (at level 10, x name, m at level 100, k at level 200).
Notation "'do*' m 'in' k" := (wbind m (fun _ => k))
  (at level 10, m at level 100, k at level 200).

Section Start.

Context {Config Repository RepoConfig HostRule : Type}.

Abbreviation action := (@action Config Repository RepoConfig HostRule).
Abbreviation W := (@W Config Repository RepoConfig HostRule).

(** The environment variables [start] reads. *)
Record Env : Type := {
  AWS_SECRET_ACCESS_KEY : value;
  AWS_SESSION_TOKEN : value
}.

(** An entry of [getProblems()]. *)
Record Problem : Type := { level : Z }.

(** What the modules around [start] answer.  An answer may depend on the
    calls made before it.  The calls that [start] awaits, and
    [validateConfigSecretsAndVariables], may throw; every other call is
    taken to return.  [repositoryConfigFor] is what
    [getRepositoryConfig] answers. *)
Record Surroundings : Type := {
  regexEngineStatus : RegexEngineStatus;
  getEnv : list action -> Env;
  nonEmptyStringAndNotWhitespace : value -> bool;
  parseConfigs : list action -> error + Config;
  globalInitialize : list action -> Config -> error + Config;
  resolveConfigPresets : list action -> Config -> error + unit;
  CONFIG_PRESETS_INVALID : string;
  node_release_name : value;
  node_version : value;
  engines_node : string;
  semver_satisfies : string -> string -> bool;
  validateConfigSecretsAndVariables : list action -> Config -> error + unit;
  autodiscoverRepositories : list action -> option Config -> error + Config;
  writeDiscoveredRepos : Config -> value;
  repositories : Config -> option (list Repository);
  stringify : option (list Repository) -> string;
  writeFile : list action -> string -> string -> error + unit;
  isLimitReached : list action -> string -> bool;
  repositoryConfigFor : list action -> Config -> Repository -> error + RepoConfig;
  hostRules_of : RepoConfig -> option (list HostRule);
  without_hostRules : RepoConfig -> RepoConfig;
  renovateRepository : list action -> RepoConfig -> error + unit;
  exportStats : list action -> Config -> error + unit;
  globalFinalize : list action -> option Config -> error + unit;
  logLevel : list action -> string;
  getProblems : list action -> list Problem;
  ERROR : Z
}.

Variable world : Surroundings.

(** [instrument(name, fn)] runs [fn] and hands on how it ends. *)
Definition instrument {A} (name : string) (fn : W A) : W A :=
  do* perform (Call_instrument name) in fn.

(** [haveReachedLimits], lines 63-69. *)
Definition haveReachedLimits : W bool :=
  let* reached := ask (Call_isLimitReached "Commits")
                      (fun h => isLimitReached world h "Commits") in
  if reached then
    do* perform (Log "info" "Max commits created for this run.") in
    wret true
  else wret false.

(** [checkEnv], lines 72-85. *)
Definition checkEnv : W unit :=
  if negb (strict_eq (node_release_name world) (VStr "node"))
     || negb (truthy (node_version world))
  then perform (Log "warn" "Unknown node environment detected.")
  else
    match node_version world with
    | VStr v =>
        when (negb (semver_satisfies world v (engines_node world)))
          (perform (Log "error"
                   "Unsupported node environment detected. Please update your node version."))
    | _ => wret tt
    end.

(** [validatePresets], lines 87-95. *)
Definition validatePresets (config : Config) : W unit :=
  do* perform (Log "debug" "validatePresets()") in
  wtry_catch
    (attempt (Call_resolveConfigPresets config)
             (fun h => resolveConfigPresets world h config))
    (fun err =>
       do* perform (Log "error" (CONFIG_PRESETS_INVALID world)) in
       throw {| message := CONFIG_PRESETS_INVALID world |}).

(** The callback of [instrument('config', ...)], lines 120-148. *)
Definition configure : W unit :=
  let* c := attempt Call_parseConfigs (parseConfigs world) in
  do* set_config c in
  do* perform (Call_GlobalConfig_set c false) in
  let* c := attempt (Call_globalInitialize c)
                    (fun h => globalInitialize world h c) in
  do* set_config c in
  do* perform (Call_GlobalConfig_set c true) in
  do* validatePresets c in
  do* perform (Call_setGlobalLogLevelRemaps c) in
  do* checkEnv in
  attempt (Call_validateConfigSecretsAndVariables c)
          (fun h => validateConfigSecretsAndVariables world h c).

(** The callback of [instrument('repository', ...)], lines 171-186. *)
Definition processRepository (c : Config) (repository : Repository)
    : W unit :=
  let* repoConfig :=
    attempt (Call_getRepositoryConfig c repository)
            (fun h => repositoryConfigFor world h c repository) in
  let* repoConfig :=
    match hostRules_of world repoConfig with
    | Some rules =>
        do* perform (Log "debug" "Reinitializing hostRules for repo") in
        do* perform Call_hostRules_clear in
        do* for_of rules
              (fun rule => do* perform (Call_hostRules_add rule) in wret false) in
        wret (without_hostRules world repoConfig)
    | None => wret repoConfig
    end in
  do* perform Call_queue_clear in
  do* perform Call_throttle_clear in
  do* attempt (Call_renovateRepository repoConfig)
              (fun h => renovateRepository world h repoConfig) in
  perform Call_setMeta.

(** The body of the loop of lines 165-196; the result says whether the
    loop is left by [break]. *)
Definition visit (c : Config) (repository : Repository) : W bool :=
  let* stop := haveReachedLimits in
  if stop then wret true
  else
    do* instrument "repository" (processRepository c repository) in
    wret false.

(** The line about the regex engine, lines 99-108. *)
Definition regex_log : action :=
  match regexEngineStatus world with
  | Regex_available => Log "debug" "Using RE2 regex engine"
  | Regex_unavailable _ => Log "warn" "RE2 not usable, falling back to RegExp"
  | Regex_ignored =>
      Log "debug" "RE2 regex engine is ignored via RENOVATE_X_IGNORE_RE2"
  end.

(** The [try] block up to the discovery of the repositories, lines
    113-153; the result is [config] as it is then. *)
Definition discover (env : Env) : W Config :=
  do* when (nonEmptyStringAndNotWhitespace world
              (AWS_SECRET_ACCESS_KEY env))
        (perform (Call_addSecretForSanitizing (AWS_SECRET_ACCESS_KEY env))) in
  do* when (nonEmptyStringAndNotWhitespace world (AWS_SESSION_TOKEN env))
        (perform (Call_addSecretForSanitizing (AWS_SESSION_TOKEN env))) in
  do* instrument "config" configure in
  let* current := get_config in
  let* c := instrument "discover"
              (attempt (Call_autodiscoverRepositories current)
                       (fun h => autodiscoverRepositories world h current)) in
  do* set_config c in
  wret c.

(** Lines 155-162. *)
Definition writeDiscovered (c : Config) : W unit :=
  match writeDiscoveredRepos world c with
  | VStr path =>
      if truthy (VStr path) then
        let content := stringify world (repositories world c) in
        do* attempt (Call_writeFile path content)
                    (fun h => writeFile world h path content) in
        do* perform (Log "info"
                    ("Written discovered repositories to " ++ path)) in
        return_ 0
      else wret tt
  | _ => wret tt
  end.

(** The loop and the report, lines 165-199. *)
Definition processAll (c : Config) : W unit :=
  match repositories world c with
  | Some repos =>
      do* for_of repos (visit c) in
      do* perform Call_finalizeReport in
      attempt (Call_exportStats c) (fun h => exportStats world h c)
  | None => throw {| message := "TypeError" |}
  end.

(** The [try] block, lines 113-199. *)
Definition try_block (env : Env) : W unit :=
  let* c := discover env in
  do* writeDiscovered c in
  processAll c.

(** The first line of the [catch] block, lines 201-208. *)
Definition fatal_log (err : error) : action :=
  if String.prefix "Init: " (message err)
  then Log "fatal" "Initialization error"
  else Log "fatal" "Unknown error".

(** The [catch] block, lines 200-214. *)
Definition catch_block (err : error) : W unit :=
  do* perform (fatal_log err) in
  let* c := get_config in
  match c with
  | None =>
      do* perform (Log "debug" "Missing config") in
      return_ 2
  | Some _ => wret tt
  end.

(** The [finally] block, lines 214-221. *)
Definition finally_block : W unit :=
  let* c := get_config in
  do* attempt (Call_globalFinalize c) (fun h => globalFinalize world h c) in
  let* current := ask Call_logLevel (logLevel world) in
  when (String.eqb current "info")
    (let* current := ask Call_logLevel (logLevel world) in
     perform (Log "info"
             ("Renovate was run at log level " ++ quote ++ current ++ quote
              ++ ". Set LOG_LEVEL=debug in environment variables to see extended debug logs."))).

(** The [try] statement without its [finally], lines 112-213. *)
Definition guarded (env : Env) : W unit :=
  wtry_catch (try_block env) catch_block.

(** The lines after the [try] statement, 222-230. *)
Definition epilogue : W unit :=
  let* problems := ask Call_getProblems (getProblems world) in
  let loggerErrors :=
    List.filter (fun p => (ERROR world <=? level p)%Z) problems in
  match loggerErrors with
  | _ :: _ =>
      do* perform (Log "info"
                  "Renovate is exiting with a non-zero code due to the following logged errors") in
      return_ 1
  | [] => return_ 0
  end.

(** [start], lines 97-231. *)
Definition start : W unit :=
  do* perform regex_log in
  let* env := ask Call_getEnv (getEnv world) in
  do* try_finally (guarded env) finally_block in
  epilogue.

(** A run of [start] from the beginning. *)
Definition run_start : state * completion unit :=
  start {| history := []; config := None |}.

(** What [getEnv()] answers in such a run. *)
Definition environment : Env := getEnv world [regex_log].

(** The calls such a run makes before it parses the configuration,
    lines 99-120. *)
Definition preamble : list action :=
  ([regex_log; Call_getEnv]
   ++ (if nonEmptyStringAndNotWhitespace world
            (AWS_SECRET_ACCESS_KEY environment)
       then [Call_addSecretForSanitizing (AWS_SECRET_ACCESS_KEY environment)]
       else [])
   ++ (if nonEmptyStringAndNotWhitespace world (AWS_SESSION_TOKEN environment)
       then [Call_addSecretForSanitizing (AWS_SESSION_TOKEN environment)]
       else [])
   ++ [Call_instrument "config"])%list.

(** The calls of lines 113-120 in a run that starts at [s]. *)
Definition before_parse (env : Env) (s : state) : list action :=
  (((history s
     ++ (if nonEmptyStringAndNotWhitespace world (AWS_SECRET_ACCESS_KEY env)
         then [Call_addSecretForSanitizing (AWS_SECRET_ACCESS_KEY env)]
         else []))
    ++ (if nonEmptyStringAndNotWhitespace world (AWS_SESSION_TOKEN env)
        then [Call_addSecretForSanitizing (AWS_SESSION_TOKEN env)]
        else []))
   ++ [Call_instrument "config"])%list.

Definition is_getProblems (c : action) : bool :=
  match c with
  | Call_getProblems => true
  | _ => false
  end.

(** The commit limit is not reached, whenever [isLimitReached] is asked. *)
Definition limit_never_reached : Prop :=
  forall h, isLimitReached world h "Commits" = false.

(** The calls that do the work of a run: writing the discovered
    repositories, processing a repository, reporting and finalizing. *)
Definition is_work (c : action) : bool :=
  is_writeFile c || is_repository_call c || is_report c || is_finalize c.

(** [m] only adds calls that satisfy [Q]. *)
Definition emits (Q : action -> Prop) {A} (m : W A) : Prop :=
  forall s s' r,
    m s = (s', r) ->
    exists t, history s' = (history s ++ t)%list /\ Forall Q t.

(** [m] leaves [config] alone and ends without [return]. *)
Definition steady {A} (m : W A) : Prop :=
  forall s s' r,
    m s = (s', r) ->
    config s' = config s /\ forall code, r <> Return code.

(** [m] does not end with [return]. *)
Definition no_return {A} (m : W A) : Prop :=
  forall s s' code, m s <> (s', Return code).

(** [m] leaves [config] assigned once it is. *)
Definition assigned {A} (m : W A) : Prop :=
  forall s s' r,
    m s = (s', r) -> is_Some (config s) -> is_Some (config s').

End Start.

End Worker.

(** ** Runs of the global worker *)

Module WorkerExamples.
Import Worker.

(** A configuration is the list of its repositories, a repository and its
    configuration are its name. *)
Abbreviation Surroundings := (@Surroundings (list string) string string unit).

Definition is_nonEmptyString (v : value) : bool :=
  match v with
  | VStr s => negb (String.eqb s "")
  | _ => false
  end.

(** Surroundings in which nothing throws but the processing of the
    repository [failing]; the discovered repositories are written to
    [target] if it is a string. *)
Definition surroundings (parsed : error + list string) (target : value)
    (failing : string) (problems : list Problem) : Surroundings :=
  {| regexEngineStatus := Regex_available;
     getEnv := fun _ =>
       {| AWS_SECRET_ACCESS_KEY := VUndefined;
          AWS_SESSION_TOKEN := VStr "token" |};
     nonEmptyStringAndNotWhitespace := is_nonEmptyString;
     parseConfigs := fun _ => parsed;
     globalInitialize := fun _ c => inr c;
     resolveConfigPresets := fun _ _ => inr tt;
     CONFIG_PRESETS_INVALID := "config-presets-invalid";
     node_release_name := VStr "node";
     node_version := VStr "22.13.0";
     engines_node := "^22.13.0";
     semver_satisfies := fun _ _ => true;
     validateConfigSecretsAndVariables := fun _ _ => inr tt;
     autodiscoverRepositories := fun _ c =>
       match c with
       | Some c => inr c
       | None => inl {| message := "no configuration" |}
       end;
     writeDiscoveredRepos := fun _ => target;
     repositories := fun c => Some c;
     stringify := fun _ => "[...]";
     writeFile := fun _ _ _ => inr tt;
     isLimitReached := fun _ _ => false;
     repositoryConfigFor := fun _ _ repository => inr repository;
     hostRules_of := fun _ => Some [tt];
     without_hostRules := fun repoConfig => repoConfig;
     renovateRepository := fun _ repoConfig =>
       if String.eqb repoConfig failing
       then inl {| message := "Init: no access" |}
       else inr tt;
     exportStats := fun _ _ => inr tt;
     globalFinalize := fun _ _ => inr tt;
     logLevel := fun _ => "info";
     getProblems := fun _ => problems;
     ERROR := 50 |}.

Definition two_repositories : error + list string :=
  inr ["org/a"; "org/b"].

(** Everything goes well. *)
Definition smooth : Surroundings :=
  surroundings two_repositories VUndefined "" [{| level := 40 |}].

(** The repositories are only written to a file. *)
Definition discovering : Surroundings :=
  surroundings two_repositories (VStr "repos.json") "" [].

(** The first repository cannot be processed. *)
Definition stumbling : Surroundings :=
  surroundings two_repositories VUndefined "org/a" [{| level := 60 |}].

(** The configuration cannot be parsed. *)
Definition unparsed : Surroundings :=
  surroundings (inl {| message := "Init: bad config" |}) VUndefined "" [].

End WorkerExamples.

(** ** Property scopes of the Maven manager *)

Module MavenParents.

Section ResolveParents.

(** A dependency as [resolveParents] gets it; lines 505-560 read and
    write its [registryUrls] only. *)
Variable Dependency : Type.
Variable dep_registryUrls : Dependency -> option (list string).

(** What [resolveParents] reads of a [MavenInterimPackageFile];
    [pf_packageFile] is its [packageFile]. *)
Record MavenInterimPackageFile : Type := {
  pf_packageFile : string;
  mavenProps : option (gmap string Maven.MavenProp);
  parent : option string;
  deps : option (list Dependency)
}.

(** [set.add(x)] on a [Set] of strings, kept in insertion order. *)
Definition set_add (x : string) (set : list string) : list string :=
  if bool_decide (x ∈ set) then set else (set ++ [x])%list.

Definition set_add_all (set : list string) (xs : list string) : list string :=
  foldl (fun set x => set_add x set) set xs.

(** [[...new Set(xs)]] *)
Definition set_of (xs : list string) : list string := set_add_all [] xs.

(** [Object.assign(target, ...sources)]; a source that is [undefined] is
    passed over. *)
Definition assign (target : gmap string Maven.MavenProp)
    (sources : list (option (gmap string Maven.MavenProp)))
    : gmap string Maven.MavenProp :=
  foldl (fun target source =>
           match source with
           | Some props => props ∪ target
           | None => target
           end) target sources.

(** Lines 532-540: the registry URLs of the dependencies of [pkg] are
    added to the set. *)
Definition add_registryUrls (pkg : MavenInterimPackageFile)
    (urls : list string) : list string :=
  match deps pkg with
  | Some ds =>
      foldl (fun urls dep =>
               match dep_registryUrls dep with
               | Some us => set_add_all urls us
               | None => urls
               end) urls ds
  | None => urls
  end.

(** What the loop of lines 529-546 builds for one package file;
    [sc_registryUrls] is [registryUrls[name]]. *)
Record scope : Type := {
  propsHierarchy : list (option (gmap string Maven.MavenProp));
  sc_registryUrls : list string;
  visitedPackages : gset string
}.

Variable packages : list MavenInterimPackageFile.

(** [extractedPackages], lines 512-517, an object used as a map from
    names: of two package files of one name the later one stays.  What a
    name finds on [Object.prototype] is left out. *)
Definition extractedPackages : gmap string MavenInterimPackageFile :=
  foldl (fun extracted pkg => <[pf_packageFile pkg := pkg]> extracted) ∅
    packages.

(** The [while] loop of lines 529-546, for at most [rounds] rounds. *)
Fixpoint climb (rounds : nat) (pkg : option MavenInterimPackageFile)
    (sc : scope) {struct rounds} : option scope :=
  match pkg with
  | None => Some sc
  | Some pkg =>
      match rounds with
      | O => None
      | S rounds' =>
          let hierarchy := mavenProps pkg :: propsHierarchy sc in
          let urls := add_registryUrls pkg (sc_registryUrls sc) in
          match parent pkg with
          | Some p =>
              if truthy (VStr p)
                 && negb (bool_decide (p ∈ visitedPackages sc))
              then
                climb rounds' (extractedPackages !! p)
                  {| propsHierarchy := hierarchy;
                     sc_registryUrls := urls;
                     visitedPackages := {[p]} ∪ visitedPackages sc |}
              else
                Some {| propsHierarchy := hierarchy;
                        sc_registryUrls := urls;
                        visitedPackages := visitedPackages sc |}
          | None =>
              Some {| propsHierarchy := hierarchy;
                      sc_registryUrls := urls;
                      visitedPackages := visitedPackages sc |}
          end
      end
  end.

(** The scope at the start of the loop, lines 522-525. *)
Definition initial_scope : scope :=
  {| propsHierarchy := []; sc_registryUrls := []; visitedPackages := ∅ |}.

(** The loop for the package file [name], with a round for every package
    file and one more. *)
Definition scope_of (name : string) : option scope :=
  climb (S (size extractedPackages)) (extractedPackages !! name)
    initial_scope.

(** [extractedProps[name]], lines 545-546. *)
Definition extractedProps (name : string)
    : option (gmap string Maven.MavenProp) :=
  sc ← scope_of name; Some (assign ∅ (propsHierarchy sc)).

(** [registryUrls[name]] after the loop. *)
Definition inheritedUrls (name : string) : option (list string) :=
  sc ← scope_of name; Some (sc_registryUrls sc).

(** Lines 554-558: the registry URLs of a dependency after the
    resolution. *)
Definition resolved_registryUrls (rawDep : Dependency)
    (urls : list string) : list string :=
  set_of (default [] (dep_registryUrls rawDep) ++ urls).

(** The property [key] as [pkg] itself defines it. *)
Definition own_prop (pkg : MavenInterimPackageFile) (key : string)
    : option Maven.MavenProp :=
  props ← mavenProps pkg; props !! key.

End ResolveParents.

Arguments pf_packageFile {Dependency} _.
Arguments mavenProps {Dependency} _.
Arguments parent {Dependency} _.
Arguments deps {Dependency} _.
Arguments add_registryUrls {Dependency} dep_registryUrls pkg urls.
Arguments extractedPackages {Dependency} packages.
Arguments climb {Dependency} dep_registryUrls packages rounds pkg sc.
Arguments scope_of {Dependency} dep_registryUrls packages name.
Arguments extractedProps {Dependency} dep_registryUrls packages name.
Arguments inheritedUrls {Dependency} dep_registryUrls packages name.
Arguments resolved_registryUrls {Dependency} dep_registryUrls rawDep urls.
Arguments own_prop {Dependency} pkg key.

End MavenParents.

(** ** Package files with parents *)

Module MavenParentsExamples.
Import MavenParents.

(** A dependency is its [registryUrls]. *)
Definition urls_of (dep : option (list string)) : option (list string) := dep.

Definition prop (v : string) : Maven.MavenProp :=
  {| Maven.val := v;
     Maven.prop_fileReplacePosition := 0;
     Maven.packageFile := None |}.

(** A module and its parent, which names the module as its own parent. *)
Definition child : MavenInterimPackageFile (option (list string)) :=
  {| pf_packageFile := "child/pom.xml";
     mavenProps := Some {[ "a" := prop "1" ]};
     parent := Some "pom.xml";
     deps := Some [Some ["https://child.example"]] |}.

Definition root : MavenInterimPackageFile (option (list string)) :=
  {| pf_packageFile := "pom.xml";
     mavenProps := Some (<[ "a" := prop "0" ]> {[ "b" := prop "2" ]});
     parent := Some "child/pom.xml";
     deps := Some [Some ["https://root.example"]; None] |}.

Definition reactor : list (MavenInterimPackageFile (option (list string))) :=
  [child; root].

End MavenParentsExamples.

(** ** Reasoning about computations *)

(** [returns m Q]: [m] does not throw, and its trace and result satisfy
    [Q]. *)
Definition returns {A} (m : M A) (Q : list event -> A -> Prop) : Prop :=
  match m with
  | (t, inr a) => Q t a
  | (_, inl _) => False
  end.

Lemma returns_ret {A} (a : A) (Q : list event -> A -> Prop) :
  Q [] a -> returns (ret a) Q.
Proof. intros H; exact H. Qed.

Lemma returns_call {A} (e : event) (a : A) (Q : list event -> A -> Prop) :
  Q [e] a -> returns (call e a) Q.
Proof. intros H; exact H. Qed.

Lemma returns_emit (e : event) (Q : list event -> unit -> Prop) :
  Q [e] tt -> returns (emit e) Q.
Proof. intros H; exact H. Qed.

Lemma returns_bind {A B} (m : M A) (k : A -> M B)
    (Q : list event -> B -> Prop) :
  returns m (fun t a => returns (k a) (fun t' b => Q (t ++ t')%list b)) ->
  returns (bind m k) Q.
Proof.
  destruct m as [t [e | a]]; simpl; [tauto |].
  destruct (k a) as [t' [e | b]]; simpl; tauto.
Qed.

Lemma returns_try_catch {A} (body : M A) (handler : exn -> M A)
    (Q : list event -> A -> Prop) :
  match body with
  | (t, inr a) => Q t a
  | (t, inl e) => returns (handler e) (fun t' a => Q (t ++ t')%list a)
  end ->
  returns (try_catch body handler) Q.
Proof.
  destruct body as [t [e | a]]; simpl; [| tauto].
  destruct (handler e) as [t' [e' | a]]; simpl; tauto.
Qed.

Lemma returns_weaken {A} (m : M A) (Q Q' : list event -> A -> Prop) :
  returns m Q -> (forall t a, Q t a -> Q' t a) -> returns m Q'.
Proof. destruct m as [t [e | a]]; simpl; [tauto | auto]. Qed.

Lemma returns_conj {A} (m : M A) (Q Q' : list event -> A -> Prop) :
  returns m Q -> returns m Q' -> returns m (fun t a => Q t a /\ Q' t a).
Proof. destruct m as [t [e | a]]; simpl; tauto. Qed.

Lemma outcome_unique {A} (m : M A) (a a' : A) :
  outcome m = inr a -> outcome m = inr a' -> a = a'.
Proof. intros H H'. rewrite H in H'. injection H' as H'. exact H'. Qed.

Lemma returns_bind_with {A B} (m : M A) (k : A -> M B)
    (P : list event -> A -> Prop) (Q : list event -> B -> Prop) :
  returns m P ->
  (forall t a, P t a -> returns (k a) (fun t' b => Q (t ++ t')%list b)) ->
  returns (bind m k) Q.
Proof.
  intros Hm Hk. apply returns_bind.
  apply (returns_weaken m P); assumption.
Qed.

Lemma returns_outcome {A} (m : M A) (Q : list event -> A -> Prop) :
  returns m Q -> exists a, outcome m = inr a /\ Q (trace m) a.
Proof.
  destruct m as [t [e | a]]; simpl; [tauto |].
  intros H; exists a; split; [reflexivity | exact H].
Qed.

Lemma bind_assoc {A B C} (m : M A) (f : A -> M B) (g : B -> M C) :
  bind (bind m f) g = bind m (fun a => bind (f a) g).
Proof.
  destruct m as [t [e | a]]; simpl; [reflexivity |].
  destruct (f a) as [t' [e | b]]; simpl; [reflexivity |].
  destruct (g b) as [t'' r]; simpl.
  rewrite app_assoc; reflexivity.
Qed.

Lemma bind_ext {A B} (m : M A) (f g : A -> M B) :
  (forall a, f a = g a) -> bind m f = bind m g.
Proof.
  intros H. destruct m as [t [e | a]]; simpl; [reflexivity |].
  rewrite H. reflexivity.
Qed.

Lemma bind_ret_l {A B} (a : A) (k : A -> M B) : bind (ret a) k = k a.
Proof. unfold bind, ret. destruct (k a); reflexivity. Qed.

(** ** Reading an object after an assignment *)

Lemma get_insert_eq (u : LookupUpdate) (k : string) (v : value) :
  get (<[k := v]> u) k = v.
Proof. unfold get. rewrite lookup_insert_eq. reflexivity. Qed.

Lemma get_insert_ne (u : LookupUpdate) (k k' : string) (v : value) :
  k <> k' -> get (<[k := v]> u) k' = get u k'.
Proof. intros H. unfold get. rewrite lookup_insert_ne by exact H. reflexivity. Qed.

Lemma get_absent (u : LookupUpdate) (k : string) :
  u !! k = None -> get u k = VUndefined.
Proof. intros H. unfold get. rewrite H. reflexivity. Qed.

Lemma get_present (u : LookupUpdate) (k : string) (v : value) :
  u !! k = Some v -> get u k = v.
Proof. intros H. unfold get. rewrite H. reflexivity. Qed.

Lemma lookup_assign_if_defined_eq
    (k : string) (o : option string) (u : LookupUpdate) :
  u !! k = None -> assign_if_defined k o u !! k = VStr <$> o.
Proof.
  intros H. destruct o as [s |]; simpl.
  - apply lookup_insert_eq.
  - exact H.
Qed.

Lemma lookup_assign_if_defined_ne
    (k k' : string) (o : option string) (u : LookupUpdate) :
  k <> k' -> assign_if_defined k o u !! k' = u !! k'.
Proof.
  intros H. destruct o as [s |]; simpl.
  - apply lookup_insert_ne. exact H.
  - reflexivity.
Qed.

(** ** The phases compose to [generateUpdate] *)

Section Phases.

Variable getElapsedDays : string -> Z.
Variable getUpdateType :
  LookupUpdateConfig -> VersioningApi -> option string -> string ->
  UpdateType.
Variable getMergeConfidenceLevel :
  string -> string -> option string -> string -> value -> option string.

Lemma generateUpdate_phases
    config currentValue versioningApi rangeStrategy currentVersion
    bucket release :
  generateUpdate getElapsedDays getUpdateType getMergeConfidenceLevel
    config currentValue versioningApi rangeStrategy currentVersion
    bucket release
  = let! update := prepare getElapsedDays currentValue versioningApi
                     rangeStrategy currentVersion bucket release in
    if guard currentVersion update
    then early_exit currentValue update
    else finish getUpdateType getMergeConfidenceLevel config currentValue
           versioningApi rangeStrategy currentVersion (version release)
           update.
Proof.
  unfold generateUpdate, prepare.
  repeat (rewrite bind_assoc; apply bind_ext; intros ?).
  rewrite bind_ret_l. reflexivity.
Qed.

End Phases.

(** ** Facts about the phases *)

Ltac lookup_simpl :=
  repeat first
    [ rewrite lookup_insert_eq
    | rewrite lookup_insert_ne by done
    | rewrite lookup_assign_if_defined_ne by done
    | rewrite lookup_empty ].

Ltac wp_step :=
  rewrite ?get_insert_eq, ?get_insert_ne by done;
  lazymatch goal with
  | |- returns (bind _ _) _ => apply returns_bind
  | |- returns (call _ _) _ => apply returns_call
  | |- returns (ret _) _ => apply returns_ret
  | |- returns (emit _) _ => apply returns_emit
  | |- returns (if ?b then _ else _) _ => destruct b eqn:?
  | |- returns (match ?o with Some _ => _ | None => _ end) _ =>
      destruct o eqn:?
  end;
  cbv beta zeta.

Ltac prepare_cases release currentValue versioningApi :=
  unfold prepare;
  destruct (narrow (releaseTimestamp release)) as [ts |];
  destruct (narrow currentValue) as [cv |] eqn:Hcv;
  [ destruct (getNewValue versioningApi _) as [err | v] eqn:Hnv | |
    destruct (getNewValue versioningApi _) as [err | v] eqn:Hnv | ];
  simpl.

Section PhaseFacts.

Variable getElapsedDays : string -> Z.
Variable getUpdateType :
  LookupUpdateConfig -> VersioningApi -> option string -> string ->
  UpdateType.
Variable getMergeConfidenceLevel :
  string -> string -> option string -> string -> value -> option string.

Lemma narrow_None_of_optional (o : option string) :
  narrow o = None -> truthy (of_optional o) = false.
Proof.
  destruct o as [s |]; simpl; [| reflexivity].
  destruct (negb (String.eqb s "")); [discriminate | reflexivity].
Qed.

Lemma narrow_Some (o : option string) (s : string) :
  narrow o = Some s -> o = Some s /\ truthy (VStr s) = true.
Proof.
  destruct o as [s' |]; simpl; [| discriminate].
  destruct (negb (String.eqb s' "")) eqn:E; [| discriminate].
  intros [= <-]. split; [reflexivity | exact E].
Qed.

Lemma rewrite_failure_logged_app
    currentValue versioningApi rangeStrategy currentVersion newVersion
    (t t' : list event) :
  rewrite_failure_logged currentValue versioningApi rangeStrategy
    currentVersion newVersion t ->
  rewrite_failure_logged currentValue versioningApi rangeStrategy
    currentVersion newVersion (t ++ t').
Proof.
  intros H cv err Hcv c Hnv. apply in_or_app. left.
  apply (H cv err Hcv Hnv).
Qed.

(** What [prepare] leaves in the object. *)
Lemma prepare_object
    currentValue versioningApi rangeStrategy currentVersion bucket release :
  returns
    (prepare getElapsedDays currentValue versioningApi rangeStrategy
       currentVersion bucket release)
    (fun _ u =>
       u !! "newValue"
       = Some (rewritten currentValue versioningApi rangeStrategy
                 currentVersion (version release))
       /\ Forall (fun k => u !! k = None) late_keys
       /\ u !! "checksumUrl" = VStr <$> checksumUrl release
       /\ u !! "downloadUrl" = VStr <$> downloadUrl release
       /\ u !! "newDigest" = VStr <$> newDigest release
       /\ u !! "registryUrl" = VStr <$> registryUrl release).
Proof.
  unfold rewritten.
  prepare_cases release currentValue versioningApi.
  all: rewrite ?Hnv.
  all: repeat split.
  all: lookup_simpl; try reflexivity.
  all: try (apply lookup_assign_if_defined_eq; lookup_simpl; reflexivity).
  all: unfold late_keys; repeat constructor; lookup_simpl; reflexivity.
Qed.

(** What [prepare] calls. *)
Lemma prepare_trace
    currentValue versioningApi rangeStrategy currentVersion bucket release :
  returns
    (prepare getElapsedDays currentValue versioningApi rangeStrategy
       currentVersion bucket release)
    (fun t _ =>
       Forall (fun e => late_event e = false) t
       /\ (narrow currentValue = None ->
           Forall (fun e => is_getNewValue e = false) t)
       /\ rewrite_failure_logged currentValue versioningApi rangeStrategy
            currentVersion (version release) t).
Proof.
  unfold rewrite_failure_logged.
  prepare_cases release currentValue versioningApi.
  all: split; [repeat constructor |].
  all: split; [intros H; try discriminate H; repeat constructor |].
  all: intros cv' err' Hcv'; try discriminate Hcv'.
  all: injection Hcv' as <-; intros Hnv'.
  all: rewrite Hnv in Hnv'; try discriminate Hnv'.
  all: injection Hnv' as <-; simpl; tauto.
Qed.

(** What [finish] assigns, on an object where none of the late
    properties is set yet. *)
Lemma finish_object
    config currentValue versioningApi rangeStrategy currentVersion
    newVersion (u : LookupUpdate) :
  Forall (fun k => u !! k = None) late_keys ->
  let updateType :=
    VStr (UpdateType_str
            (getUpdateType config versioningApi currentVersion newVersion)) in
  returns
    (finish getUpdateType getMergeConfidenceLevel config currentValue
       versioningApi rangeStrategy currentVersion newVersion u)
    (fun t u' =>
       (forall k, ~ In k late_keys -> u' !! k = u !! k)
       /\ u' !! "updateType" = Some updateType
       /\ u' !! "isBreaking"
          = Some (VBool
                    match isBreaking versioningApi with
                    | Some isBreaking' => isBreaking' currentVersion newVersion
                    | None => strict_eq updateType (VStr "major")
                    end)
       /\ u' !! "mergeConfidenceLevel"
          = (if wantsConfidence config
             then Some (of_optional
                          (getMergeConfidenceLevel
                             (datasource config) (packageName config)
                             currentVersion newVersion updateType))
             else None)
       /\ u' !! "isRange"
          = (if isVersion versioningApi (get u "newValue")
             then None else Some (VBool true))
       /\ u' !! "isLockfileUpdate"
          = (if bool_decide (rangeStrategy = RS_update_lockfile)
                && strict_eq (of_optional currentValue) (get u "newValue")
             then Some (VBool true) else None)
       /\ u' !! "isBump"
          = (if bool_decide (rangeStrategy = RS_bump)
                && matches versioningApi newVersion currentValue
             then Some (VBool true) else None)
       /\ Forall (fun e => is_getNewValue e = false) t).
Proof.
  intros Hu updateType. unfold late_keys in Hu.
  repeat match goal with
         | H : Forall _ (_ :: _) |- _ =>
             apply Forall_cons_iff in H; destruct H as [? H]
         end.
  unfold finish. rewrite (get_absent u "updateType") by assumption.
  fold updateType.
  repeat wp_step.
  all: rewrite ?app_nil_r; simpl app.
  all: destruct (isVersion versioningApi (get u "newValue"));
    simpl negb; cbv iota; rewrite ?get_insert_ne by done.
  all: destruct (bool_decide (rangeStrategy = RS_update_lockfile));
    destruct (strict_eq (of_optional currentValue) (get u "newValue"));
    try destruct (matches versioningApi newVersion currentValue);
    simpl andb; cbv iota.
  all: split;
    [ intros k Hk; unfold late_keys in Hk;
      rewrite ?lookup_insert_ne
        by (intros <-; apply Hk; simpl; auto 10);
      reflexivity
    | repeat split; lookup_simpl;
      first [ reflexivity | assumption | repeat constructor ] ].
Qed.

(** At the guard of line 308 no [updateType] has been assigned, so the
    guard only tests [currentVersion]. *)
Lemma guard_unset currentVersion (u : LookupUpdate) :
  u !! "updateType" = None ->
  guard currentVersion u = negb (truthy (of_optional currentVersion)).
Proof.
  intros H. unfold guard. rewrite (get_absent u "updateType" H).
  reflexivity.
Qed.

Abbreviation generate :=
  (generateUpdate getElapsedDays getUpdateType getMergeConfidenceLevel).

(** The return at line 311. *)
Lemma generateUpdate_early
    config currentValue versioningApi rangeStrategy currentVersion
    bucket release :
  truthy (of_optional currentVersion) = false ->
  returns
    (generate config currentValue versioningApi rangeStrategy
       currentVersion bucket release)
    (fun t u =>
       u !! "newValue" = Some (of_optional currentValue)
       /\ Forall (fun k => u !! k = None) late_keys
       /\ (u !! "checksumUrl" = VStr <$> checksumUrl release
           /\ u !! "downloadUrl" = VStr <$> downloadUrl release
           /\ u !! "newDigest" = VStr <$> newDigest release
           /\ u !! "registryUrl" = VStr <$> registryUrl release)
       /\ Forall (fun e => late_event e = false) t
       /\ (exists t0 u0,
             t = (t0 ++ [Log_debug u0 "Update has no currentVersion"])%list
             /\ u = <["newValue" := of_optional currentValue]> u0)
       /\ (narrow currentValue = None ->
           Forall (fun e => is_getNewValue e = false) t)
       /\ rewrite_failure_logged currentValue versioningApi rangeStrategy
            currentVersion (version release) t).
Proof.
  intros Hcur. rewrite generateUpdate_phases.
  eapply returns_bind_with.
  - apply returns_conj; [apply prepare_object | apply prepare_trace].
  - intros t u [(Hnv & Hlate & Hc & Hd & Hn & Hr) (Ht & Hg & Hw)].
    cbv beta.
    pose proof Hlate as Hlate'. unfold late_keys in Hlate'.
    apply Forall_cons_iff in Hlate' as [Hut _].
    rewrite (guard_unset _ _ Hut), Hcur. simpl negb. cbv iota.
    unfold early_exit. repeat wp_step.
    split; [apply lookup_insert_eq |].
    split.
    { unfold late_keys in *.
      repeat match goal with
             | H : Forall _ (_ :: _) |- _ =>
                 apply Forall_cons_iff in H; destruct H as [? H]
             end.
      repeat constructor; lookup_simpl; assumption. }
    split; [lookup_simpl; tauto |].
    split; [apply Forall_app; split; [exact Ht | repeat constructor] |].
    split; [exists t, u; split; reflexivity |].
    split; [| apply rewrite_failure_logged_app; exact Hw].
    intros Hn'. apply Forall_app; split; [auto | repeat constructor].
Qed.

(** The return at line 348. *)
Lemma generateUpdate_late
    config currentValue versioningApi rangeStrategy currentVersion
    bucket release :
  truthy (of_optional currentVersion) = true ->
  let newVersion := version release in
  let newValue :=
    rewritten currentValue versioningApi rangeStrategy currentVersion
      newVersion in
  let updateType :=
    VStr (UpdateType_str
            (getUpdateType config versioningApi currentVersion newVersion)) in
  returns
    (generate config currentValue versioningApi rangeStrategy
       currentVersion bucket release)
    (fun t u =>
       u !! "newValue" = Some newValue
       /\ u !! "updateType" = Some updateType
       /\ u !! "isBreaking"
          = Some (VBool
                    match isBreaking versioningApi with
                    | Some isBreaking' => isBreaking' currentVersion newVersion
                    | None => strict_eq updateType (VStr "major")
                    end)
       /\ u !! "mergeConfidenceLevel"
          = (if wantsConfidence config
             then Some (of_optional
                          (getMergeConfidenceLevel
                             (datasource config) (packageName config)
                             currentVersion newVersion updateType))
             else None)
       /\ u !! "isRange"
          = (if isVersion versioningApi newValue
             then None else Some (VBool true))
       /\ u !! "isLockfileUpdate"
          = (if bool_decide (rangeStrategy = RS_update_lockfile)
                && strict_eq (of_optional currentValue) newValue
             then Some (VBool true) else None)
       /\ u !! "isBump"
          = (if bool_decide (rangeStrategy = RS_bump)
                && matches versioningApi newVersion currentValue
             then Some (VBool true) else None)
       /\ (u !! "checksumUrl" = VStr <$> checksumUrl release
           /\ u !! "downloadUrl" = VStr <$> downloadUrl release
           /\ u !! "newDigest" = VStr <$> newDigest release
           /\ u !! "registryUrl" = VStr <$> registryUrl release)
       /\ (narrow currentValue = None ->
           Forall (fun e => is_getNewValue e = false) t)
       /\ rewrite_failure_logged currentValue versioningApi rangeStrategy
            currentVersion newVersion t).
Proof.
  intros Hcur newVersion newValue updateType.
  rewrite generateUpdate_phases.
  eapply returns_bind_with.
  - apply returns_conj; [apply prepare_object | apply prepare_trace].
  - intros t u [(Hnv & Hlate & Hc & Hd & Hn & Hr) (Ht & Hg & Hw)].
    cbv beta.
    pose proof Hlate as Hlate'. unfold late_keys in Hlate'.
    apply Forall_cons_iff in Hlate' as [Hut _].
    rewrite (guard_unset _ _ Hut), Hcur. simpl negb. cbv iota.
    eapply returns_weaken; [apply finish_object; exact Hlate |].
    cbv beta zeta. rewrite (get_present _ _ _ Hnv).
    intros t' u' (Hframe & Hu1 & Hu2 & Hu3 & Hu4 & Hu5 & Hu6 & Ht').
    assert (Hearly : Forall (fun k => u' !! k = u !! k)
                       ["newValue"; "checksumUrl"; "downloadUrl";
                        "newDigest"; "registryUrl"]).
    { repeat constructor; apply Hframe;
        unfold late_keys; simpl; intuition discriminate. }
    repeat match goal with
           | H : Forall _ (_ :: _) |- _ =>
               apply Forall_cons_iff in H; destruct H as [? H]
           end.
    repeat match goal with
           | H : u' !! ?k = u !! ?k |- _ => rewrite H; clear H
           end.
    repeat match goal with |- _ /\ _ => split end; try assumption.
    + intros Hn'. apply Forall_app; split; [auto | exact Ht'].
    + apply rewrite_failure_logged_app; exact Hw.
Qed.

End PhaseFacts.

(** ** Properties of the returned descriptor *)

Lemma truthy_narrow_None (o : option string) :
  truthy (of_optional o) = false -> narrow o = None.
Proof.
  destruct o as [s |]; simpl; [| reflexivity].
  intros ->. reflexivity.
Qed.


Lemma Forall_not_getNewValue (t : list event) :
  Forall (fun e => is_getNewValue e = false) t ->
  forall c, ~ In (Call_getNewValue c) t.
Proof.
  intros H c Hin.
  pose proof (proj1 (List.Forall_forall _ t) H _ Hin) as Hc.
  discriminate Hc.
Qed.

Section Claims.

Variable getElapsedDays : string -> Z.
Variable getUpdateType :
  LookupUpdateConfig -> VersioningApi -> option string -> string ->
  UpdateType.
Variable getMergeConfidenceLevel :
  string -> string -> option string -> string -> value -> option string.

Abbreviation generate :=
  (generateUpdate getElapsedDays getUpdateType getMergeConfidenceLevel).



(** C3.  When [currentVersion] is falsy (no [updateType] is ever set
    before the guard, see [guard_unset]), [generateUpdate] returns a
    descriptor, not an error, whose [newValue] is [currentValue]
    whatever the rewrite computed; [updateType], [isBreaking],
    [mergeConfidenceLevel], [isRange], [isLockfileUpdate] and [isBump]
    are absent; no classification, breaking, confidence, [isVersion] or
    [matches] call was made; and the debug log of the early exit is the
    last event. *)
Theorem generateUpdate_early_exit
    config currentValue versioningApi rangeStrategy currentVersion
    bucket release :
  truthy (of_optional currentVersion) = false ->
  exists u,
    outcome (generate config currentValue versioningApi rangeStrategy
               currentVersion bucket release) = inr u
    /\ u !! "newValue" = Some (of_optional currentValue)
    /\ u !! "updateType" = None
    /\ u !! "isBreaking" = None
    /\ u !! "mergeConfidenceLevel" = None
    /\ u !! "isRange" = None
    /\ u !! "isLockfileUpdate" = None
    /\ u !! "isBump" = None
    /\ Forall (fun e => late_event e = false)
         (trace (generate config currentValue versioningApi rangeStrategy
                   currentVersion bucket release))
    /\ exists t0 u0,
         trace (generate config currentValue versioningApi rangeStrategy
                  currentVersion bucket release)
         = (t0 ++ [Log_debug u0 "Update has no currentVersion"])%list
         /\ u = <["newValue" := of_optional currentValue]> u0.
Proof.
  intros Hcur.
  destruct (returns_outcome _ _
              (generateUpdate_early getElapsedDays getUpdateType
                 getMergeConfidenceLevel config currentValue versioningApi
                 rangeStrategy currentVersion bucket release Hcur))
    as (u & Hu & Hnv & Hlate & _ & Hev & Hlast & _).
  exists u. unfold late_keys in Hlate.
  repeat match goal with
         | H : Forall _ (_ :: _) |- _ =>
             apply Forall_cons_iff in H; destruct H as [? H]
         end.
  repeat match goal with |- _ /\ _ => split end; assumption.
Qed.

(** The facts about the flags that both return paths share. *)
Lemma generateUpdate_flags
    config currentValue versioningApi rangeStrategy currentVersion
    bucket release :
  exists u,
    outcome (generate config currentValue versioningApi rangeStrategy
               currentVersion bucket release) = inr u
    /\ u !! "isRange"
       = (if truthy (of_optional currentVersion)
             && negb (isVersion versioningApi (get u "newValue"))
          then Some (VBool true) else None)
    /\ u !! "isLockfileUpdate"
       = (if truthy (of_optional currentVersion)
             && bool_decide (rangeStrategy = RS_update_lockfile)
             && strict_eq (of_optional currentValue) (get u "newValue")
          then Some (VBool true) else None)
    /\ u !! "isBump"
       = (if truthy (of_optional currentVersion)
             && bool_decide (rangeStrategy = RS_bump)
             && matches versioningApi (version release) currentValue
          then Some (VBool true) else None).
Proof.
  destruct (truthy (of_optional currentVersion)) eqn:Hcur.
  - destruct (returns_outcome _ _
                (generateUpdate_late getElapsedDays getUpdateType
                   getMergeConfidenceLevel config currentValue versioningApi
                   rangeStrategy currentVersion bucket release Hcur))
      as (u & Hu & Hnv & _ & _ & _ & Hr & Hl & Hb & _).
    exists u. rewrite (get_present _ _ _ Hnv). simpl andb.
    split; [exact Hu |]. split; [| split; assumption].
    rewrite Hr. destruct (isVersion versioningApi _); reflexivity.
  - destruct (returns_outcome _ _
                (generateUpdate_early getElapsedDays getUpdateType
                   getMergeConfidenceLevel config currentValue versioningApi
                   rangeStrategy currentVersion bucket release Hcur))
      as (u & Hu & _ & Hlate & _).
    exists u. unfold late_keys in Hlate.
    repeat match goal with
           | H : Forall _ (_ :: _) |- _ =>
               apply Forall_cons_iff in H; destruct H as [? H]
           end.
    simpl andb. cbv iota. repeat split; assumption.
Qed.

(** C4, as amended.  On a run that is not the early exit, with
    [rangeStrategy] ['bump'] and [matches(newVersion, currentValue)]
    true, the descriptor has [isBump] equal to [true], and
    [isLockfileUpdate] is absent: it is not assigned at all, so it reads
    [undefined] rather than [false]. *)
Theorem generateUpdate_bump
    config currentValue versioningApi rangeStrategy currentVersion
    bucket release :
  truthy (of_optional currentVersion) = true ->
  rangeStrategy = RS_bump ->
  matches versioningApi (version release) currentValue = true ->
  exists u,
    outcome (generate config currentValue versioningApi rangeStrategy
               currentVersion bucket release) = inr u
    /\ u !! "isBump" = Some (VBool true)
    /\ u !! "isLockfileUpdate" = None.
Proof.
  intros Hcur -> Hm.
  destruct (generateUpdate_flags config currentValue versioningApi RS_bump
              currentVersion bucket release) as (u & Hu & _ & Hl & Hb).
  exists u. split; [exact Hu |].
  rewrite Hb, Hl, Hcur, Hm. split; reflexivity.
Qed.

(** C5.  The returned descriptor never has both [isLockfileUpdate]
    and [isBump] true; [isLockfileUpdate] true implies that
    [rangeStrategy] was ['update-lockfile'], [isBump] true that it was
    ['bump'], and these are two different values of the enum. *)
Theorem generateUpdate_flags_exclusive
    config currentValue versioningApi rangeStrategy currentVersion
    bucket release :
  exists u,
    outcome (generate config currentValue versioningApi rangeStrategy
               currentVersion bucket release) = inr u
    /\ ~ (get u "isLockfileUpdate" = VBool true
          /\ get u "isBump" = VBool true)
    /\ (get u "isLockfileUpdate" = VBool true ->
        rangeStrategy = RS_update_lockfile)
    /\ (get u "isBump" = VBool true -> rangeStrategy = RS_bump)
    /\ RS_update_lockfile <> RS_bump.
Proof.
  destruct (generateUpdate_flags config currentValue versioningApi
              rangeStrategy currentVersion bucket release)
    as (u & Hu & _ & Hl & Hb).
  exists u. split; [exact Hu |].
  assert (Hlock : get u "isLockfileUpdate" = VBool true ->
                  rangeStrategy = RS_update_lockfile).
  { unfold get. rewrite Hl.
    destruct (decide (rangeStrategy = RS_update_lockfile)) as [E | E];
      [intros _; exact E |].
    rewrite (bool_decide_eq_false_2 _ E), andb_false_r.
    discriminate. }
  assert (Hbump : get u "isBump" = VBool true -> rangeStrategy = RS_bump).
  { unfold get. rewrite Hb.
    destruct (decide (rangeStrategy = RS_bump)) as [E | E];
      [intros _; exact E |].
    rewrite (bool_decide_eq_false_2 _ E), andb_false_r.
    discriminate. }
  repeat split; try assumption; [| discriminate].
  intros [H1 H2]. apply Hlock in H1. apply Hbump in H2.
  rewrite H1 in H2. discriminate H2.
Qed.

(** C6.  On a run that is not the early exit, [isBreaking] is a boolean
    on the descriptor: the result of
    [versioningApi.isBreaking(currentVersion, newVersion)] when the
    scheme has the method, and [updateType === 'major'] otherwise, where
    [updateType] is the classification stored on the descriptor. *)
Theorem generateUpdate_isBreaking
    config currentValue versioningApi rangeStrategy currentVersion
    bucket release :
  truthy (of_optional currentVersion) = true ->
  exists u,
    outcome (generate config currentValue versioningApi rangeStrategy
               currentVersion bucket release) = inr u
    /\ u !! "updateType"
       = Some (VStr (UpdateType_str
                       (getUpdateType config versioningApi currentVersion
                          (version release))))
    /\ u !! "isBreaking"
       = Some (VBool
                 match isBreaking versioningApi with
                 | Some isBreaking' =>
                     isBreaking' currentVersion (version release)
                 | None => strict_eq (get u "updateType") (VStr "major")
                 end).
Proof.
  intros Hcur.
  destruct (returns_outcome _ _
              (generateUpdate_late getElapsedDays getUpdateType
                 getMergeConfidenceLevel config currentValue versioningApi
                 rangeStrategy currentVersion bucket release Hcur))
    as (u & Hu & _ & Hty & Hbr & _).
  exists u. rewrite (get_present _ _ _ Hty).
  repeat split; assumption.
Qed.

(** C7.  When [currentValue] is falsy ([undefined] or the empty
    string), the returned descriptor has [newValue] equal to
    [currentValue] and [getNewValue] was not called. *)
Theorem generateUpdate_no_rewrite
    config currentValue versioningApi rangeStrategy currentVersion
    bucket release :
  truthy (of_optional currentValue) = false ->
  exists u,
    outcome (generate config currentValue versioningApi rangeStrategy
               currentVersion bucket release) = inr u
    /\ u !! "newValue" = Some (of_optional currentValue)
    /\ forall c,
         ~ In (Call_getNewValue c)
             (trace (generate config currentValue versioningApi
                       rangeStrategy currentVersion bucket release)).
Proof.
  intros Hcv. apply truthy_narrow_None in Hcv.
  destruct (truthy (of_optional currentVersion)) eqn:Hcur.
  - destruct (returns_outcome _ _
                (generateUpdate_late getElapsedDays getUpdateType
                   getMergeConfidenceLevel config currentValue versioningApi
                   rangeStrategy currentVersion bucket release Hcur))
      as (u & Hu & Hnv & _ & _ & _ & _ & _ & _ & _ & Hcalls & _).
    exists u. split; [exact Hu |]. split.
    + rewrite Hnv. unfold rewritten. rewrite Hcv. reflexivity.
    + apply Forall_not_getNewValue. exact (Hcalls Hcv).
  - destruct (returns_outcome _ _
                (generateUpdate_early getElapsedDays getUpdateType
                   getMergeConfidenceLevel config currentValue versioningApi
                   rangeStrategy currentVersion bucket release Hcur))
      as (u & Hu & Hnv & _ & _ & _ & _ & Hcalls & _).
    exists u. split; [exact Hu |]. split; [exact Hnv |].
    apply Forall_not_getNewValue. exact (Hcalls Hcv).
Qed.

(** C8.  On a run that is not the early exit, with [rangeStrategy]
    ['update-lockfile'], if [currentValue] equals the [newValue] of the
    descriptor then [isLockfileUpdate] is [true]. *)
Theorem generateUpdate_lockfile_update
    config currentValue versioningApi rangeStrategy currentVersion
    bucket release :
  truthy (of_optional currentVersion) = true ->
  rangeStrategy = RS_update_lockfile ->
  exists u,
    outcome (generate config currentValue versioningApi rangeStrategy
               currentVersion bucket release) = inr u
    /\ (of_optional currentValue = get u "newValue" ->
        u !! "isLockfileUpdate" = Some (VBool true)).
Proof.
  intros Hcur ->.
  destruct (generateUpdate_flags config currentValue versioningApi
              RS_update_lockfile currentVersion bucket release)
    as (u & Hu & _ & Hl & _).
  exists u. split; [exact Hu |].
  intros Heq. rewrite Hl, Hcur. unfold strict_eq.
  rewrite (bool_decide_eq_true_2 _ Heq). reflexivity.
Qed.

(** C9.  Each of [checksumUrl], [downloadUrl], [newDigest] and
    [registryUrl] is on the returned descriptor exactly when it is
    defined on the release, with the value it has there; a field that is
    [undefined] on the release is absent from the descriptor. *)
Theorem generateUpdate_passthrough
    config currentValue versioningApi rangeStrategy currentVersion
    bucket release :
  exists u,
    outcome (generate config currentValue versioningApi rangeStrategy
               currentVersion bucket release) = inr u
    /\ u !! "checksumUrl" = VStr <$> checksumUrl release
    /\ u !! "downloadUrl" = VStr <$> downloadUrl release
    /\ u !! "newDigest" = VStr <$> newDigest release
    /\ u !! "registryUrl" = VStr <$> registryUrl release.
Proof.
  destruct (truthy (of_optional currentVersion)) eqn:Hcur.
  - destruct (returns_outcome _ _
                (generateUpdate_late getElapsedDays getUpdateType
                   getMergeConfidenceLevel config currentValue versioningApi
                   rangeStrategy currentVersion bucket release Hcur))
      as (u & Hu & _ & _ & _ & _ & _ & _ & _ & Hpass & _).
    exists u. split; [exact Hu | exact Hpass].
  - destruct (returns_outcome _ _
                (generateUpdate_early getElapsedDays getUpdateType
                   getMergeConfidenceLevel config currentValue versioningApi
                   rangeStrategy currentVersion bucket release Hcur))
      as (u & Hu & _ & _ & Hpass & _).
    exists u. split; [exact Hu | exact Hpass].
Qed.

(** C10.  On every return path each of [isRange], [isLockfileUpdate]
    and [isBump] is absent or [true], never [false]: [isRange] is set
    only when [isVersion(newValue)] is false, [isLockfileUpdate] only
    when [rangeStrategy] is ['update-lockfile'] and [currentValue]
    equals [newValue], and [isBump] only when [rangeStrategy] is
    ['bump'] and [matches(newVersion, currentValue)] holds. *)
Theorem generateUpdate_flags_absent_or_true
    config currentValue versioningApi rangeStrategy currentVersion
    bucket release :
  exists u,
    outcome (generate config currentValue versioningApi rangeStrategy
               currentVersion bucket release) = inr u
    /\ (absent_or_true u "isRange"
        /\ absent_or_true u "isLockfileUpdate"
        /\ absent_or_true u "isBump")
    /\ (is_Some (u !! "isRange") ->
        isVersion versioningApi (get u "newValue") = false)
    /\ (is_Some (u !! "isLockfileUpdate") ->
        rangeStrategy = RS_update_lockfile
        /\ of_optional currentValue = get u "newValue")
    /\ (is_Some (u !! "isBump") ->
        rangeStrategy = RS_bump
        /\ matches versioningApi (version release) currentValue = true).
Proof.
  destruct (generateUpdate_flags config currentValue versioningApi
              rangeStrategy currentVersion bucket release)
    as (u & Hu & Hr & Hl & Hb).
  exists u. split; [exact Hu |].
  unfold absent_or_true. rewrite Hr, Hl, Hb. clear Hr Hl Hb.
  unfold strict_eq.
  repeat match goal with |- _ /\ _ => split end.
  all: try (intros [x Hx]; revert Hx).
  all: destruct (truthy (of_optional currentVersion)); simpl andb.
  all: destruct (isVersion versioningApi (get u "newValue"));
    repeat case_bool_decide;
    destruct (matches versioningApi (version release) currentValue);
    simpl; intros; try discriminate; auto.
Qed.

End Claims.

(** ** The properties on concrete runs *)

Import Examples.



(** C3 on a run without [currentVersion]: the caret scheme rewrote the
    range to [^1.5.0], and the early exit put [^1.0.0] back. *)
Lemma generateUpdate_early_exit_witness :
  exists u,
    outcome (run gated (Some "^1.0.0") caret RS_bump None "latest"
               release_1_5_0) = inr u
    /\ u !! "newValue" = Some (VStr "^1.0.0")
    /\ u !! "updateType" = None
    /\ u !! "isBreaking" = None
    /\ u !! "mergeConfidenceLevel" = None
    /\ u !! "isRange" = None
    /\ u !! "isLockfileUpdate" = None
    /\ u !! "isBump" = None
    /\ Forall (fun e => late_event e = false)
         (trace (run gated (Some "^1.0.0") caret RS_bump None "latest"
                   release_1_5_0))
    /\ exists t0 u0,
         trace (run gated (Some "^1.0.0") caret RS_bump None "latest"
                  release_1_5_0)
         = (t0 ++ [Log_debug u0 "Update has no currentVersion"])%list
         /\ u = <["newValue" := VStr "^1.0.0"]> u0.
Proof.
  apply (generateUpdate_early_exit elapsed classify confidence
           gated (Some "^1.0.0") caret RS_bump None "latest" release_1_5_0).
  reflexivity.
Defined.

(** C4, as stated, fails: on a run that is not the early exit, with
    ['bump'] and a matching version, [isLockfileUpdate] does not read
    [false]. *)
Lemma generateUpdate_bump_lockfile_not_false :
  (truthy (of_optional (Some "1.0.0")) = true
   /\ matches caret (version release_1_5_0) (Some "^1.0.0") = true)
  /\ ~ (exists u,
          outcome (run plain (Some "^1.0.0") caret RS_bump
                     (Some "1.0.0") "latest" release_1_5_0) = inr u
          /\ get u "isBump" = VBool true
          /\ get u "isLockfileUpdate" = VBool false).
Proof.
  split; [split; reflexivity |].
  intros (u & Hu & _ & Hl).
  destruct (returns_outcome _ _
              (generateUpdate_late elapsed classify confidence
                 plain (Some "^1.0.0") caret RS_bump (Some "1.0.0")
                 "latest" release_1_5_0 eq_refl))
    as (u' & Hu' & _ & _ & _ & _ & _ & Hl' & _).
  rewrite (outcome_unique _ _ _ Hu Hu') in Hl.
  unfold get in Hl. rewrite Hl' in Hl. discriminate Hl.
Qed.

(** C4, as amended, on the caret scheme. *)
Lemma generateUpdate_bump_witness :
  exists u,
    outcome (run plain (Some "^1.0.0") caret RS_bump
               (Some "1.0.0") "latest" release_1_5_0) = inr u
    /\ u !! "isBump" = Some (VBool true)
    /\ u !! "isLockfileUpdate" = None.
Proof.
  apply (generateUpdate_bump elapsed classify confidence
           plain (Some "^1.0.0") caret RS_bump (Some "1.0.0") "latest"
           release_1_5_0);
    reflexivity.
Defined.

(** C6 on a scheme with breaking awareness. *)
Lemma generateUpdate_isBreaking_witness :
  exists u,
    outcome (run plain (Some "^1.0.0") keeping RS_replace
               (Some "1.0.0") "latest" release_1_5_0) = inr u
    /\ u !! "updateType" = Some (VStr "minor")
    /\ u !! "isBreaking" = Some (VBool true).
Proof.
  apply (generateUpdate_isBreaking elapsed classify confidence
           plain (Some "^1.0.0") keeping RS_replace (Some "1.0.0") "latest"
           release_1_5_0).
  reflexivity.
Defined.

(** C7 on an empty [currentValue]. *)
Lemma generateUpdate_no_rewrite_witness :
  exists u,
    outcome (run plain (Some "") caret RS_replace
               (Some "1.0.0") "latest" release_1_5_0) = inr u
    /\ u !! "newValue" = Some (VStr "")
    /\ forall c,
         ~ In (Call_getNewValue c)
             (trace (run plain (Some "") caret RS_replace
                       (Some "1.0.0") "latest" release_1_5_0)).
Proof.
  apply (generateUpdate_no_rewrite elapsed classify confidence
           plain (Some "") caret RS_replace (Some "1.0.0") "latest"
           release_1_5_0).
  reflexivity.
Defined.

(** C8 on a scheme that keeps the range. *)
Lemma generateUpdate_lockfile_update_witness :
  exists u,
    outcome (run plain (Some "^1.0.0") keeping RS_update_lockfile
               (Some "1.0.0") "latest" release_1_5_0) = inr u
    /\ (of_optional (Some "^1.0.0") = get u "newValue" ->
        u !! "isLockfileUpdate" = Some (VBool true)).
Proof.
  apply (generateUpdate_lockfile_update elapsed classify confidence
           plain (Some "^1.0.0") keeping RS_update_lockfile (Some "1.0.0")
           "latest" release_1_5_0);
    reflexivity.
Defined.

(** On that run the premise of C8 holds: the scheme kept the range, and
    the flag is set. *)
Example generateUpdate_lockfile_update_run :
  exists u,
    outcome (run plain (Some "^1.0.0") keeping RS_update_lockfile
               (Some "1.0.0") "latest" release_1_5_0) = inr u
    /\ u !! "newValue" = Some (VStr "^1.0.0")
    /\ u !! "isLockfileUpdate" = Some (VBool true)
    /\ u !! "isRange" = Some (VBool true)
    /\ u !! "isBump" = None.
Proof.
  destruct (returns_outcome _ _
              (generateUpdate_late elapsed classify confidence
                 plain (Some "^1.0.0") keeping RS_update_lockfile
                 (Some "1.0.0") "latest" release_1_5_0 eq_refl))
    as (u & Hu & Hnv & _ & _ & _ & Hr & Hl & Hb & _).
  exists u. repeat split; assumption.
Qed.

(** The fallback of C6 on a scheme without [isBreaking]: a minor update
    is not breaking. *)
Example generateUpdate_isBreaking_fallback_run :
  exists u,
    outcome (run gated (Some "^1.0.0") caret RS_replace
               (Some "1.0.0") "latest" release_1_5_0) = inr u
    /\ u !! "newValue" = Some (VStr "^1.5.0")
    /\ u !! "updateType" = Some (VStr "minor")
    /\ u !! "isBreaking" = Some (VBool false)
    /\ u !! "mergeConfidenceLevel" = Some (VStr "high")
    /\ u !! "downloadUrl"
       = Some (VStr "https://registry.example/left-pad-1.5.0.tgz")
    /\ u !! "checksumUrl" = None.
Proof.
  destruct (returns_outcome _ _
              (generateUpdate_late elapsed classify confidence
                 gated (Some "^1.0.0") caret RS_replace
                 (Some "1.0.0") "latest" release_1_5_0 eq_refl))
    as (u & Hu & Hnv & Hty & Hbr & Hconf & _ & _ & _ & (Hc & Hd & _) & _).
  exists u. repeat split; assumption.
Qed.

Lemma dom_assign_if_defined (k : string) (o : option string) (u : LookupUpdate) :
  dom (assign_if_defined k o u) ⊆ {[k]} ∪ dom u.
Proof.
  destruct o as [s |]; simpl.
  - rewrite dom_insert_L. reflexivity.
  - apply union_subseteq_r.
Qed.

Lemma dom_insert_within (K : gset string) (k : string) (v : value)
    (u : LookupUpdate) :
  k ∈ K -> dom u ⊆ K -> dom (<[k := v]> u) ⊆ K.
Proof.
  intros Hk Hu. rewrite dom_insert_L.
  apply union_least; [apply singleton_subseteq_l; exact Hk | exact Hu].
Qed.

Lemma dom_assign_if_defined_within (K : gset string) (k : string)
    (o : option string) (u : LookupUpdate) :
  k ∈ K -> dom u ⊆ K -> dom (assign_if_defined k o u) ⊆ K.
Proof.
  intros Hk Hu. destruct o as [s |]; simpl;
    [apply dom_insert_within |]; assumption.
Qed.

Lemma early_names_subseteq : early_names ⊆ descriptor_names.
Proof.
  unfold early_names, descriptor_names. rewrite list_to_set_app_L.
  apply union_subseteq_l.
Qed.

Ltac in_names :=
  apply elem_of_list_to_set, list_elem_of_In; simpl; auto 20.

Ltac dom_within :=
  repeat first
    [ apply dom_insert_within; [in_names |]
    | apply dom_assign_if_defined_within; [in_names |] ];
  try (rewrite dom_empty_L; apply empty_subseteq);
  try assumption.

Lemma returns_run {A} (m : M A) (Q : list event -> A -> Prop) :
  returns m Q -> returns m (fun t a => m = (t, inr a) /\ Q t a).
Proof. destruct m as [t [e | a]]; simpl; [tauto | auto]. Qed.

Lemma bind_run {A B} (m : M A) (k : A -> M B) (t t' : list event)
    (a : A) (b : B) :
  m = (t, inr a) -> k a = (t', inr b) -> bind m k = ((t ++ t')%list, inr b).
Proof. intros -> H. simpl. rewrite H. reflexivity. Qed.

Lemma returns_at {A} (m : M A) (t : list event) (a : A)
    (Q : list event -> A -> Prop) :
  m = (t, inr a) -> returns m Q -> Q t a.
Proof. intros ->. simpl. auto. Qed.

Section MorePhaseFacts.

Variable getElapsedDays : string -> Z.
Variable getUpdateType :
  LookupUpdateConfig -> VersioningApi -> option string -> string ->
  UpdateType.
Variable getMergeConfidenceLevel :
  string -> string -> option string -> string -> value -> option string.

(** The rest of what [prepare] leaves in the object, and its calls in
    order. *)
Lemma prepare_parts
    currentValue versioningApi rangeStrategy currentVersion bucket release :
  returns
    (prepare getElapsedDays currentValue versioningApi rangeStrategy
       currentVersion bucket release)
    (fun t u =>
       (u !! "bucket" = Some (VStr bucket)
        /\ u !! "newVersion" = Some (VStr (version release))
        /\ u !! "newMajor"
           = Some (of_nullable_num (getMajor versioningApi (version release)))
        /\ u !! "newMinor"
           = Some (of_nullable_num (getMinor versioningApi (version release)))
        /\ u !! "newPatch"
           = Some (of_nullable_num (getPatch versioningApi (version release))))
       /\ (u !! "releaseTimestamp" = VStr <$> narrow (releaseTimestamp release)
           /\ u !! "newVersionAgeInDays"
              = (fun ts => VNum (getElapsedDays ts))
                  <$> narrow (releaseTimestamp release))
       /\ dom u ⊆ early_names
       /\ t = (timestamp_events release
               ++ rewrite_events currentValue versioningApi rangeStrategy
                    currentVersion (version release)
               ++ parts_events (version release))%list).
Proof.
  unfold timestamp_events, rewrite_events, parts_events.
  prepare_cases release currentValue versioningApi.
  all: rewrite ?Hnv.
  all: repeat match goal with |- _ /\ _ => split end.
  all: lookup_simpl; try reflexivity.
  all: unfold early_names; dom_within.
Qed.

(** The calls of [finish] in order, and the properties it may add. *)
Lemma finish_parts
    config currentValue versioningApi rangeStrategy currentVersion
    newVersion (u : LookupUpdate) :
  u !! "updateType" = None ->
  dom u ⊆ descriptor_names ->
  returns
    (finish getUpdateType getMergeConfidenceLevel config currentValue
       versioningApi rangeStrategy currentVersion newVersion u)
    (fun t u' =>
       dom u' ⊆ descriptor_names
       /\ t = finish_events config currentValue versioningApi rangeStrategy
                currentVersion newVersion (get u "newValue")
                (VStr (UpdateType_str
                         (getUpdateType config versioningApi currentVersion
                            newVersion)))).
Proof.
  intros Hu Hdom. unfold finish, finish_events.
  rewrite (get_absent u "updateType") by assumption.
  repeat wp_step.
  all: rewrite ?app_nil_r; simpl app.
  all: split; [| reflexivity].
  all: destruct (isVersion versioningApi (get u "newValue"));
    simpl negb; cbv iota; rewrite ?get_insert_ne by done.
  all: destruct (bool_decide (rangeStrategy = RS_update_lockfile));
    destruct (strict_eq (of_optional currentValue) (get u "newValue"));
    try destruct (matches versioningApi newVersion currentValue);
    simpl andb; cbv iota.
  all: unfold descriptor_names; dom_within.
Qed.

Abbreviation generate :=
  (generateUpdate getElapsedDays getUpdateType getMergeConfidenceLevel).

(** [generateUpdate] always returns, and its run is the run of [prepare]
    followed by the early exit or by [finish]. *)
Lemma generateUpdate_run
    config currentValue versioningApi rangeStrategy currentVersion
    bucket release :
  exists t0 u0,
    prepare getElapsedDays currentValue versioningApi rangeStrategy
      currentVersion bucket release = (t0, inr u0)
    /\ u0 !! "updateType" = None
    /\ if truthy (of_optional currentVersion)
       then
         exists t1 u,
           finish getUpdateType getMergeConfidenceLevel config currentValue
             versioningApi rangeStrategy currentVersion (version release) u0
           = (t1, inr u)
           /\ generate config currentValue versioningApi rangeStrategy
                currentVersion bucket release = ((t0 ++ t1)%list, inr u)
       else
         generate config currentValue versioningApi rangeStrategy
           currentVersion bucket release
         = ((t0 ++ [Log_debug u0 "Update has no currentVersion"])%list,
            inr (<["newValue" := of_optional currentValue]> u0)).
Proof.
  pose proof (returns_run _ _
                (prepare_object getElapsedDays currentValue versioningApi
                   rangeStrategy currentVersion bucket release)) as Hp.
  destruct (prepare getElapsedDays currentValue versioningApi rangeStrategy
              currentVersion bucket release) as [t0 [e | u0]] eqn:Hrun;
    simpl in Hp; [contradiction |].
  destruct Hp as (_ & _ & Hlate & _).
  pose proof Hlate as Hlate'. unfold late_keys in Hlate'.
  apply Forall_cons_iff in Hlate' as [Hut _].
  exists t0, u0. split; [reflexivity |]. split; [exact Hut |].
  rewrite generateUpdate_phases, Hrun.
  destruct (truthy (of_optional currentVersion)) eqn:Hcur.
  - pose proof (returns_run _ _
                  (finish_object getUpdateType getMergeConfidenceLevel config
                     currentValue versioningApi rangeStrategy currentVersion
                     (version release) u0 Hlate)) as Hf.
    destruct (finish getUpdateType getMergeConfidenceLevel config
                currentValue versioningApi rangeStrategy currentVersion
                (version release) u0) as [t1 [e | u]] eqn:Hfin;
      simpl in Hf; [contradiction |].
    exists t1, u. split; [reflexivity |].
    eapply bind_run; [reflexivity |].
    rewrite (guard_unset _ _ Hut), Hcur. exact Hfin.
  - eapply bind_run; [reflexivity |].
    rewrite (guard_unset _ _ Hut), Hcur. reflexivity.
Qed.

End MorePhaseFacts.

Section MoreProperties.

Variable getElapsedDays : string -> Z.
Variable getUpdateType :
  LookupUpdateConfig -> VersioningApi -> option string -> string ->
  UpdateType.
Variable getMergeConfidenceLevel :
  string -> string -> option string -> string -> value -> option string.

Abbreviation generate :=
  (generateUpdate getElapsedDays getUpdateType getMergeConfidenceLevel).

(** Splits a run of [generateUpdate] into its phases and collects the
    facts of each. *)
Ltac run_cases config currentValue versioningApi rangeStrategy
    currentVersion bucket release :=
  destruct (generateUpdate_run getElapsedDays getUpdateType
              getMergeConfidenceLevel config currentValue versioningApi
              rangeStrategy currentVersion bucket release)
    as (t0 & u0 & Hprep & Hut & Hrun);
  pose proof (returns_at _ _ _ _ Hprep
                (prepare_object getElapsedDays currentValue versioningApi
                   rangeStrategy currentVersion bucket release))
    as (Hnv0 & Hlate0 & Hpass0);
  pose proof (returns_at _ _ _ _ Hprep
                (prepare_parts getElapsedDays currentValue versioningApi
                   rangeStrategy currentVersion bucket release))
    as (Hparts0 & Hts0 & Hdom0 & Ht0);
  destruct (truthy (of_optional currentVersion)) eqn:Hcur;
  [ destruct Hrun as (t1 & u & Hfin & Hrun);
    pose proof (returns_at _ _ _ _ Hfin
                  (finish_object getUpdateType getMergeConfidenceLevel config
                     currentValue versioningApi rangeStrategy currentVersion
                     (version release) u0 Hlate0))
      as (Hframe & Hty & Hbr & Hconf & Hrange & Hlock & Hbump & _);
    pose proof (returns_at _ _ _ _ Hfin
                  (finish_parts getUpdateType getMergeConfidenceLevel config
                     currentValue versioningApi rangeStrategy currentVersion
                     (version release) u0 Hut
                     (transitivity Hdom0 early_names_subseteq)))
      as (Hdom & Ht1)
  | ].

(** X1.  On every return path, the early exit included, the descriptor
    carries [bucket], [newVersion] and the three version parts the scheme
    gives for [newVersion]; a part the scheme cannot give stays [null]. *)
Theorem generateUpdate_version_parts
    config currentValue versioningApi rangeStrategy currentVersion
    bucket release :
  exists u,
    outcome (generate config currentValue versioningApi rangeStrategy
               currentVersion bucket release) = inr u
    /\ u !! "bucket" = Some (VStr bucket)
    /\ u !! "newVersion" = Some (VStr (version release))
    /\ u !! "newMajor"
       = Some (of_nullable_num (getMajor versioningApi (version release)))
    /\ u !! "newMinor"
       = Some (of_nullable_num (getMinor versioningApi (version release)))
    /\ u !! "newPatch"
       = Some (of_nullable_num (getPatch versioningApi (version release))).
Proof.
  run_cases config currentValue versioningApi rangeStrategy currentVersion
    bucket release.
  - exists u. rewrite Hrun. split; [reflexivity |].
    rewrite !Hframe by (unfold late_keys; simpl; intuition discriminate).
    exact Hparts0.
  - eexists. rewrite Hrun. split; [reflexivity |].
    lookup_simpl. exact Hparts0.
Qed.

(** X2.  [releaseTimestamp] and [newVersionAgeInDays] are set together,
    from a truthy [release.releaseTimestamp] only: an [undefined] or empty
    timestamp leaves both absent and [getElapsedDays] is not called. *)
Theorem generateUpdate_release_timestamp
    config currentValue versioningApi rangeStrategy currentVersion
    bucket release :
  exists u,
    outcome (generate config currentValue versioningApi rangeStrategy
               currentVersion bucket release) = inr u
    /\ u !! "releaseTimestamp" = VStr <$> narrow (releaseTimestamp release)
    /\ u !! "newVersionAgeInDays"
       = (fun ts => VNum (getElapsedDays ts))
           <$> narrow (releaseTimestamp release)
    /\ (truthy (of_optional (releaseTimestamp release)) = false ->
        u !! "releaseTimestamp" = None
        /\ u !! "newVersionAgeInDays" = None
        /\ forall ts,
             ~ In (Call_getElapsedDays ts)
                 (trace (generate config currentValue versioningApi
                           rangeStrategy currentVersion bucket release))).
Proof.
  run_cases config currentValue versioningApi rangeStrategy currentVersion
    bucket release.
  - exists u. rewrite Hrun. split; [reflexivity |].
    rewrite !Hframe by (unfold late_keys; simpl; intuition discriminate).
    destruct Hts0 as [Hts Hage]. rewrite Hts, Hage.
    split; [reflexivity |]. split; [reflexivity |].
    intros Hfalsy. apply truthy_narrow_None in Hfalsy.
    rewrite Hfalsy. split; [reflexivity |]. split; [reflexivity |].
    intros ts Hin. simpl in Hin. subst t0 t1.
    unfold timestamp_events, rewrite_events, parts_events, finish_events
      in Hin.
    rewrite Hfalsy in Hin.
    repeat (apply in_app_or in Hin; destruct Hin as [Hin | Hin]);
      repeat case_match; simpl in Hin; intuition discriminate.
  - eexists. rewrite Hrun. split; [reflexivity |].
    lookup_simpl.
    destruct Hts0 as [Hts Hage]. rewrite Hts, Hage.
    split; [reflexivity |]. split; [reflexivity |].
    intros Hfalsy. apply truthy_narrow_None in Hfalsy.
    rewrite Hfalsy. split; [reflexivity |]. split; [reflexivity |].
    intros ts Hin. simpl in Hin. subst t0.
    unfold timestamp_events, rewrite_events, parts_events in Hin.
    rewrite Hfalsy in Hin.
    repeat (apply in_app_or in Hin; destruct Hin as [Hin | Hin]);
      repeat case_match; simpl in Hin; intuition discriminate.
Qed.

(** X3.  The descriptor never has a property outside the eighteen names
    the function assigns, and always has [bucket], [newVersion],
    [newValue], [newMajor], [newMinor] and [newPatch]. *)
Theorem generateUpdate_keys
    config currentValue versioningApi rangeStrategy currentVersion
    bucket release :
  exists u,
    outcome (generate config currentValue versioningApi rangeStrategy
               currentVersion bucket release) = inr u
    /\ dom u ⊆ descriptor_names
    /\ Forall (fun k => is_Some (u !! k))
         ["bucket"; "newVersion"; "newValue";
          "newMajor"; "newMinor"; "newPatch"].
Proof.
  run_cases config currentValue versioningApi rangeStrategy currentVersion
    bucket release.
  - exists u. rewrite Hrun. split; [reflexivity |].
    split; [exact Hdom |].
    destruct Hparts0 as (? & ? & ? & ? & ?).
    repeat constructor;
      rewrite Hframe by (unfold late_keys; simpl; intuition discriminate);
      eauto.
  - eexists. rewrite Hrun. split; [reflexivity |].
    split.
    + apply dom_insert_within;
        [unfold descriptor_names; in_names
        | exact (transitivity Hdom0 early_names_subseteq)].
    + destruct Hparts0 as (? & ? & ? & ? & ?).
      repeat constructor; lookup_simpl; eauto.
Qed.

(** X4.  [mergeConfidenceLevel] is looked up only on a run that is not
    the early exit and only when some package rule has a non-empty
    [matchConfidence]: then it is assigned the result of
    [getMergeConfidenceLevel] for the stored [updateType], even when that
    result is [undefined]; otherwise the property is absent and the
    lookup is not called. *)
Theorem generateUpdate_confidence
    config currentValue versioningApi rangeStrategy currentVersion
    bucket release :
  exists u,
    outcome (generate config currentValue versioningApi rangeStrategy
               currentVersion bucket release) = inr u
    /\ if truthy (of_optional currentVersion) && wantsConfidence config
       then
         u !! "mergeConfidenceLevel"
         = Some (of_optional
                   (getMergeConfidenceLevel
                      (datasource config) (packageName config)
                      currentVersion (version release)
                      (get u "updateType")))
         /\ In (Call_getMergeConfidenceLevel
                  (datasource config) (packageName config)
                  currentVersion (version release) (get u "updateType"))
               (trace (generate config currentValue versioningApi
                         rangeStrategy currentVersion bucket release))
       else
         u !! "mergeConfidenceLevel" = None
         /\ forall d p c n t,
              ~ In (Call_getMergeConfidenceLevel d p c n t)
                  (trace (generate config currentValue versioningApi
                            rangeStrategy currentVersion bucket release)).
Proof.
  run_cases config currentValue versioningApi rangeStrategy currentVersion
    bucket release.
  - exists u. rewrite Hrun. split; [reflexivity |].
    rewrite (get_present _ _ _ Hty), Hconf. simpl andb. simpl trace.
    subst t0 t1. unfold finish_events.
    destruct (wantsConfidence config).
    + split; [reflexivity |].
      apply in_or_app. right. apply in_or_app. right.
      apply in_or_app. right. apply in_or_app. left.
      left. reflexivity.
    + split; [reflexivity |].
      intros d p c n t Hin.
      unfold timestamp_events, rewrite_events, parts_events in Hin.
      repeat (apply in_app_or in Hin; destruct Hin as [Hin | Hin]);
        repeat case_match; simpl in Hin; intuition discriminate.
  - eexists. rewrite Hrun. split; [reflexivity |].
    simpl andb. cbv iota. lookup_simpl.
    unfold late_keys in Hlate0.
    repeat match goal with
           | H : Forall _ (_ :: _) |- _ =>
               apply Forall_cons_iff in H; destruct H as [? H]
           end.
    split; [assumption |].
    intros d p c n t Hin. simpl in Hin. subst t0.
    unfold timestamp_events, rewrite_events, parts_events in Hin.
    repeat (apply in_app_or in Hin; destruct Hin as [Hin | Hin]);
      repeat case_match; simpl in Hin; intuition discriminate.
Qed.

(** X5.  The calls of a run that is not the early exit, in order:
    [getElapsedDays] (truthy timestamp only), [getNewValue] (truthy
    [currentValue] only, followed by the warning when it throws),
    [getMajor], [getMinor], [getPatch], [getUpdateType], [isBreaking]
    (when the scheme has it), [getMergeConfidenceLevel] (when wanted),
    [isVersion] on the final [newValue], and [matches] (['bump'] only).
    Each is made at most once and nothing else is called. *)
Theorem generateUpdate_call_protocol
    config currentValue versioningApi rangeStrategy currentVersion
    bucket release :
  truthy (of_optional currentVersion) = true ->
  exists u,
    outcome (generate config currentValue versioningApi rangeStrategy
               currentVersion bucket release) = inr u
    /\ trace (generate config currentValue versioningApi rangeStrategy
                currentVersion bucket release)
       = (timestamp_events release
          ++ rewrite_events currentValue versioningApi rangeStrategy
               currentVersion (version release)
          ++ parts_events (version release)
          ++ finish_events config currentValue versioningApi rangeStrategy
               currentVersion (version release)
               (get u "newValue") (get u "updateType"))%list.
Proof.
  intros Hcur'.
  run_cases config currentValue versioningApi rangeStrategy currentVersion
    bucket release; [| discriminate Hcur'].
  exists u. rewrite Hrun. split; [reflexivity |].
  rewrite (get_present _ _ _ Hty).
  rewrite (get_present u "newValue" (get u0 "newValue")).
  - simpl trace. rewrite Ht0, Ht1, <- !app_assoc. reflexivity.
  - rewrite Hframe by (unfold late_keys; simpl; intuition discriminate).
    rewrite Hnv0. unfold get. rewrite Hnv0. reflexivity.
Qed.

(** X6.  The calls of the early exit, in order: those of lines 252-306
    and then the debug log, nothing else.  The logged descriptor is the
    one before the override: its [newValue] is still what the rewrite
    step assigned, and the returned descriptor differs from it in
    [newValue] only. *)
Theorem generateUpdate_early_exit_protocol
    config currentValue versioningApi rangeStrategy currentVersion
    bucket release :
  truthy (of_optional currentVersion) = false ->
  exists u0,
    generate config currentValue versioningApi rangeStrategy
      currentVersion bucket release
    = ((timestamp_events release
        ++ rewrite_events currentValue versioningApi rangeStrategy
             currentVersion (version release)
        ++ parts_events (version release)
        ++ [Log_debug u0 "Update has no currentVersion"])%list,
       inr (<["newValue" := of_optional currentValue]> u0))
    /\ u0 !! "newValue"
       = Some (rewritten currentValue versioningApi rangeStrategy
                 currentVersion (version release)).
Proof.
  intros Hcur'.
  run_cases config currentValue versioningApi rangeStrategy currentVersion
    bucket release; [discriminate Hcur' |].
  exists u0. split; [| exact Hnv0].
  rewrite Hrun, Ht0, <- !app_assoc. reflexivity.
Qed.

(** X7.  With ['update-lockfile'], on a run that is not the early exit,
    an unconstrained dependency ([currentValue] falsy) and a rewrite that
    throws both give [isLockfileUpdate] true: in both cases [newValue] is
    [currentValue] itself. *)
Theorem generateUpdate_lockfile_without_rewrite
    config currentValue versioningApi currentVersion bucket release :
  truthy (of_optional currentVersion) = true ->
  (truthy (of_optional currentValue) = false
   \/ exists cv err,
        narrow currentValue = Some cv
        /\ getNewValue versioningApi
             {| nv_currentValue := cv;
                nv_rangeStrategy := RS_update_lockfile;
                nv_currentVersion := currentVersion;
                nv_newVersion := version release |} = inl err) ->
  exists u,
    outcome (generate config currentValue versioningApi RS_update_lockfile
               currentVersion bucket release) = inr u
    /\ u !! "newValue" = Some (of_optional currentValue)
    /\ u !! "isLockfileUpdate" = Some (VBool true).
Proof.
  intros Hcur' Hsame.
  run_cases config currentValue versioningApi RS_update_lockfile
    currentVersion bucket release; [| discriminate Hcur'].
  assert (Hrw : rewritten currentValue versioningApi RS_update_lockfile
                  currentVersion (version release)
                = of_optional currentValue).
  { unfold rewritten. destruct Hsame as [Hfalsy | (cv & err & Hcv & Hthrow)].
    - rewrite (truthy_narrow_None _ Hfalsy). reflexivity.
    - rewrite Hcv, Hthrow. apply narrow_Some in Hcv as [-> _]. reflexivity. }
  exists u. rewrite Hrun. split; [reflexivity |].
  rewrite Hframe by (unfold late_keys; simpl; intuition discriminate).
  rewrite Hnv0, Hlock, (get_present _ _ _ Hnv0), Hrw.
  split; [reflexivity |].
  unfold strict_eq. rewrite !bool_decide_eq_true_2 by reflexivity.
  reflexivity.
Qed.

(** X8.  On a run that is not the early exit each flag is [true]
    exactly under its condition: [isRange] when [isVersion(newValue)] is
    false, [isLockfileUpdate] when the strategy is ['update-lockfile'] and
    [currentValue] is [newValue], [isBump] when the strategy is ['bump']
    and [matches(newVersion, currentValue)] holds. *)
Theorem generateUpdate_flags_iff
    config currentValue versioningApi rangeStrategy currentVersion
    bucket release :
  truthy (of_optional currentVersion) = true ->
  exists u,
    outcome (generate config currentValue versioningApi rangeStrategy
               currentVersion bucket release) = inr u
    /\ (get u "isRange" = VBool true <->
        isVersion versioningApi (get u "newValue") = false)
    /\ (get u "isLockfileUpdate" = VBool true <->
        rangeStrategy = RS_update_lockfile
        /\ of_optional currentValue = get u "newValue")
    /\ (get u "isBump" = VBool true <->
        rangeStrategy = RS_bump
        /\ matches versioningApi (version release) currentValue = true).
Proof.
  intros Hcur'.
  run_cases config currentValue versioningApi rangeStrategy currentVersion
    bucket release; [| discriminate Hcur'].
  exists u. rewrite Hrun. split; [reflexivity |].
  assert (Hnv : get u "newValue" = get u0 "newValue").
  { unfold get.
    rewrite Hframe by (unfold late_keys; simpl; intuition discriminate).
    reflexivity. }
  rewrite Hnv. unfold get at 1 3 5. rewrite Hrange, Hlock, Hbump.
  unfold strict_eq.
  destruct (isVersion versioningApi (get u0 "newValue"));
    repeat case_bool_decide;
    destruct (matches versioningApi (version release) currentValue);
    simpl; repeat split; intros; try discriminate; try tauto;
    intuition congruence.
Qed.

(** X9.  The configuration, the classifier and the confidence lookup
    reach three properties only: two runs that differ in nothing but
    those give descriptors that agree on every property other than
    [updateType], [isBreaking] and [mergeConfidenceLevel]. *)
Theorem generateUpdate_config_independent
    (getUpdateType' :
       LookupUpdateConfig -> VersioningApi -> option string -> string ->
       UpdateType)
    (getMergeConfidenceLevel' :
       string -> string -> option string -> string -> value -> option string)
    config config' currentValue versioningApi rangeStrategy currentVersion
    bucket release :
  exists u u',
    outcome (generate config currentValue versioningApi rangeStrategy
               currentVersion bucket release) = inr u
    /\ outcome (generateUpdate getElapsedDays getUpdateType'
                  getMergeConfidenceLevel' config' currentValue versioningApi
                  rangeStrategy currentVersion bucket release) = inr u'
    /\ forall k,
         ~ In k ["updateType"; "isBreaking"; "mergeConfidenceLevel"] ->
         u !! k = u' !! k.
Proof.
  destruct (generateUpdate_run getElapsedDays getUpdateType'
              getMergeConfidenceLevel' config' currentValue versioningApi
              rangeStrategy currentVersion bucket release)
    as (t0' & u0' & Hprep' & _ & Hrun').
  run_cases config currentValue versioningApi rangeStrategy currentVersion
    bucket release.
  - rewrite Hprep in Hprep'. injection Hprep' as <- <-.
    destruct Hrun' as (t1' & u' & Hfin' & Hrun').
    pose proof (returns_at _ _ _ _ Hfin'
                  (finish_object getUpdateType' getMergeConfidenceLevel'
                     config' currentValue versioningApi rangeStrategy
                     currentVersion (version release) u0 Hlate0))
      as (Hframe' & _ & _ & _ & Hrange' & Hlock' & Hbump' & _).
    exists u, u'. rewrite Hrun, Hrun'.
    split; [reflexivity |]. split; [reflexivity |].
    intros k Hk.
    destruct (decide (k = "isRange")) as [-> | ?]; [congruence |].
    destruct (decide (k = "isLockfileUpdate")) as [-> | ?]; [congruence |].
    destruct (decide (k = "isBump")) as [-> | ?]; [congruence |].
    rewrite Hframe, Hframe'; [reflexivity | |];
      unfold late_keys; simpl in *; intuition congruence.
  - rewrite Hprep in Hprep'. injection Hprep' as <- <-.
    eexists _, _. rewrite Hrun, Hrun'.
    split; [reflexivity |]. split; reflexivity.
Qed.

End MoreProperties.

Lemma split_on_not_nil (sep : ascii) (s : string) : split_on sep s <> [].
Proof.
  induction s as [| c s IH]; simpl; [discriminate |].
  destruct (Ascii.eqb c sep); [discriminate |].
  destruct (split_on sep s); discriminate.
Qed.

(** Splitting and joining again gives the string back. *)
Lemma join_split_on (sep : ascii) (s : string) :
  join (String sep "") (split_on sep s) = s.
Proof.
  induction s as [| c s IH]; simpl; [reflexivity |].
  destruct (Ascii.eqb_spec c sep) as [-> | Hne].
  - destruct (split_on sep s) as [| h t] eqn:E;
      [destruct (split_on_not_nil _ _ E) |].
    simpl in *. rewrite IH. reflexivity.
  - destruct (split_on sep s) as [| h t] eqn:E;
      [destruct (split_on_not_nil _ _ E) |].
    destruct t as [| h' t']; simpl in *; rewrite <- IH; reflexivity.
Qed.

(** No part contains the separator. *)
Lemma split_on_parts (sep : ascii) (s : string) :
  Forall (fun p => occurs sep p = false) (split_on sep s).
Proof.
  induction s as [| c s IH]; simpl; [repeat constructor |].
  destruct (Ascii.eqb c sep) eqn:E; [constructor; [reflexivity | exact IH] |].
  destruct (split_on sep s) as [| h t]; [repeat constructor; simpl; rewrite E; reflexivity |].
  apply Forall_cons_iff in IH as [Hh Ht].
  constructor; [simpl; rewrite E, Hh; reflexivity | exact Ht].
Qed.

(** One part exactly when the separator does not occur. *)
Lemma split_on_single (sep : ascii) (s : string) :
  occurs sep s = false <-> split_on sep s = [s].
Proof.
  induction s as [| c s IH]; simpl; [tauto |].
  destruct (Ascii.eqb c sep) eqn:E; simpl.
  - split; [discriminate |]. intros [=].
  - destruct (split_on sep s) as [| h t] eqn:Es;
      [destruct (split_on_not_nil _ _ Es) |].
    split.
    + intros H. apply IH in H. injection H as -> ->. reflexivity.
    + intros [= -> ->]. apply IH. reflexivity.
Qed.

Lemma append_cons (c : ascii) (a b : string) :
  String c a ++ b = String c (a ++ b).
Proof. reflexivity. Qed.

Lemma append_assoc (a b c : string) : (a ++ b) ++ c = a ++ (b ++ c).
Proof.
  induction a as [| x a IH]; [reflexivity |].
  rewrite !append_cons, IH. reflexivity.
Qed.

Lemma join_snoc (sep : string) (l : list string) (x : string) :
  l <> [] -> join sep (l ++ [x]) = join sep l ++ sep ++ x.
Proof.
  induction l as [| a l IH]; [congruence |]. intros _.
  destruct l as [| b l]; [reflexivity |].
  change (join sep ((a :: b :: l) ++ [x]))
    with (a ++ sep ++ join sep ((b :: l) ++ [x])).
  rewrite IH by discriminate.
  change (join sep (a :: b :: l)) with (a ++ sep ++ join sep (b :: l)).
  rewrite !append_assoc. reflexivity.
Qed.

(** A string with a separator splits into at least two parts. *)
Lemma split_on_occurs (sep : ascii) (s : string) :
  occurs sep s = true ->
  exists first second rest, split_on sep s = first :: second :: rest.
Proof.
  intros Hocc.
  destruct (split_on sep s) as [| first [| second rest]] eqn:E.
  - destruct (split_on_not_nil _ _ E).
  - pose proof (join_split_on sep s) as Hj. rewrite E in Hj. simpl in Hj.
    subst first. apply split_on_single in E. congruence.
  - eauto.
Qed.

(** The parts but the last, joined, are the string up to its last
    separator. *)
Lemma join_removelast_split_on (sep : ascii) (s : string) :
  occurs sep s = true ->
  exists final,
    occurs sep final = false
    /\ s = join (String sep "") (removelast (split_on sep s))
           ++ String sep "" ++ final.
Proof.
  intros Hocc.
  destruct (split_on_occurs sep s Hocc) as (first & second & rest & E).
  pose proof (split_on_parts sep s) as Hparts.
  pose proof (join_split_on sep s) as Hj.
  assert (Hne : split_on sep s <> []) by apply split_on_not_nil.
  rewrite (app_removelast_last "" Hne) in Hj, Hparts.
  exists (List.last (split_on sep s) "").
  split.
  - apply Forall_app in Hparts as [_ Hlast].
    apply Forall_cons_iff in Hlast as [Hlast _]. exact Hlast.
  - rewrite <- Hj at 1. apply join_snoc.
    rewrite E. simpl. destruct rest; discriminate.
Qed.

(** The first part is the string up to its first separator. *)
Lemma head_removelast_split_on (sep : ascii) (s : string) :
  occurs sep s = true ->
  exists top rest,
    head (removelast (split_on sep s)) = Some top
    /\ occurs sep top = false
    /\ s = top ++ String sep "" ++ rest.
Proof.
  intros Hocc.
  destruct (split_on_occurs sep s Hocc) as (first & second & rest & E).
  pose proof (split_on_parts sep s) as Hparts.
  pose proof (join_split_on sep s) as Hj.
  rewrite E in Hparts, Hj.
  exists first, (join (String sep "") (second :: rest)).
  split; [rewrite E; reflexivity |].
  split; [apply Forall_cons_iff in Hparts as [H _]; exact H |].
  symmetry. exact Hj.
Qed.

Section RepositoryConfigFacts.

Variable mergeChildConfig :
  gmap string value -> gmap string value -> gmap string value.
Variable filterConfig : gmap string value -> string -> gmap string value.
Variable platform : string.
Variable cwd : string.
Variable upath_join : value -> string -> exn + string.
Variable ensureDir : string -> exn + unit.

Abbreviation localDir_of := (localDir_of platform cwd upath_join).

Abbreviation repositoryConfig :=
  (getRepositoryConfig mergeChildConfig filterConfig platform cwd upath_join
     ensureDir).

Lemma getRepositoryConfig_run
    globalConfig repository (name dir : string) :
  let merged := mergeChildConfig globalConfig (child_of repository) in
  get merged "repository" = VStr name ->
  localDir_of merged name = inr dir ->
  ensureDir dir = inr tt ->
  repositoryConfig globalConfig repository
  = ([Fs_ensureDir dir],
     inr (filterConfig
            (delete "baseDir"
               (<["localDir" := VStr dir]>
                  (<["topLevelOrg" :=
                       of_optional
                         (head (removelast (split_on "/" name)))]>
                     (<["parentOrg" :=
                          VStr (join "/" (removelast (split_on "/" name)))]>
                        merged))))
            "repository")).
Proof.
  intros merged Hname Hdir Hensure.
  unfold getRepositoryConfig, localDir_of, child_of in *.
  fold merged. rewrite Hname.
  rewrite !get_insert_ne by done.
  destruct (String.eqb platform "local").
  - injection Hdir as <-. rewrite Hensure. reflexivity.
  - fold merged in Hdir. rewrite Hdir, Hensure. reflexivity.
Qed.

(** X10.  [parentOrg] is the repository name up to its last slash: for
    a name without a slash it is the empty string, and otherwise
    [parentOrg], a slash and a last part without a slash make up the
    name. *)
Theorem getRepositoryConfig_parentOrg
    globalConfig repository (name dir : string) :
  let merged := mergeChildConfig globalConfig (child_of repository) in
  get merged "repository" = VStr name ->
  localDir_of merged name = inr dir ->
  ensureDir dir = inr tt ->
  exists cfg parent,
    result (repositoryConfig globalConfig repository)
    = inr (filterConfig cfg "repository")
    /\ cfg !! "parentOrg" = Some (VStr parent)
    /\ if occurs "/" name
       then exists final,
              occurs "/" final = false /\ name = parent ++ "/" ++ final
       else parent = "".
Proof.
  intros merged Hname Hdir Hensure.
  rewrite (getRepositoryConfig_run _ _ _ _ Hname Hdir Hensure).
  eexists _, _. split; [reflexivity |].
  split.
  - rewrite lookup_delete_ne by done. lookup_simpl. reflexivity.
  - destruct (occurs "/" name) eqn:Hocc.
    + apply join_removelast_split_on. exact Hocc.
    + apply split_on_single in Hocc. rewrite Hocc. reflexivity.
Qed.

(** X11.  [topLevelOrg] is the repository name up to its first slash;
    for a name without a slash the property is set to [undefined]. *)
Theorem getRepositoryConfig_topLevelOrg
    globalConfig repository (name dir : string) :
  let merged := mergeChildConfig globalConfig (child_of repository) in
  get merged "repository" = VStr name ->
  localDir_of merged name = inr dir ->
  ensureDir dir = inr tt ->
  exists cfg,
    result (repositoryConfig globalConfig repository)
    = inr (filterConfig cfg "repository")
    /\ if occurs "/" name
       then exists top rest,
              cfg !! "topLevelOrg" = Some (VStr top)
              /\ occurs "/" top = false
              /\ name = top ++ "/" ++ rest
       else cfg !! "topLevelOrg" = Some VUndefined.
Proof.
  intros merged Hname Hdir Hensure.
  rewrite (getRepositoryConfig_run _ _ _ _ Hname Hdir Hensure).
  eexists. split; [reflexivity |].
  rewrite lookup_delete_ne by done. lookup_simpl.
  destruct (occurs "/" name) eqn:Hocc.
  - destruct (head_removelast_split_on "/" name Hocc)
      as (top & rest & Hhead & Htop & Hsplit).
    exists top, rest. rewrite Hhead. auto.
  - apply split_on_single in Hocc. rewrite Hocc. reflexivity.
Qed.

(** X12.  The configuration handed to [filterConfig] has no [baseDir],
    has [localDir] set to the directory that was ensured (the working
    directory on the local platform), and is the merged configuration on
    every property other than [parentOrg], [topLevelOrg], [localDir] and
    [baseDir]; [ensureDir] is the only file system call. *)
Theorem getRepositoryConfig_frame
    globalConfig repository (name dir : string) :
  let merged := mergeChildConfig globalConfig (child_of repository) in
  get merged "repository" = VStr name ->
  localDir_of merged name = inr dir ->
  ensureDir dir = inr tt ->
  exists cfg,
    repositoryConfig globalConfig repository
    = ([Fs_ensureDir dir], inr (filterConfig cfg "repository"))
    /\ cfg !! "baseDir" = None
    /\ cfg !! "localDir" = Some (VStr dir)
    /\ (platform = "local" -> dir = cwd)
    /\ forall k,
         ~ In k ["parentOrg"; "topLevelOrg"; "localDir"; "baseDir"] ->
         cfg !! k = merged !! k.
Proof.
  intros merged Hname Hdir Hensure.
  rewrite (getRepositoryConfig_run _ _ _ _ Hname Hdir Hensure).
  eexists. split; [reflexivity |].
  split; [apply lookup_delete_eq |].
  split; [rewrite lookup_delete_ne by done; apply lookup_insert_eq |].
  split.
  - intros Hlocal. unfold localDir_of in Hdir.
    rewrite Hlocal, String.eqb_refl in Hdir. congruence.
  - intros k Hk. simpl in Hk.
    rewrite lookup_delete_ne by intuition.
    rewrite !lookup_insert_ne by intuition.
    reflexivity.
Qed.

(** X13.  [getRepositoryConfig] returns a configuration exactly when the
    merged [repository] is a string, the directory could be computed and
    [ensureDir] succeeded; a failure of the first two touches no
    directory. *)
Theorem getRepositoryConfig_returns_iff globalConfig repository :
  let merged := mergeChildConfig globalConfig (child_of repository) in
  ((exists cfg, result (repositoryConfig globalConfig repository) = inr cfg)
   <-> exists name dir,
         get merged "repository" = VStr name
         /\ localDir_of merged name = inr dir
         /\ ensureDir dir = inr tt)
  /\ ((forall name, get merged "repository" <> VStr name) ->
      calls (repositoryConfig globalConfig repository) = [])
  /\ (forall name err,
        get merged "repository" = VStr name ->
        localDir_of merged name = inl err ->
        repositoryConfig globalConfig repository = ([], inl err)).
Proof.
  intros merged. unfold getRepositoryConfig, localDir_of.
  fold (child_of repository). fold merged.
  destruct (get merged "repository") as [| | b | n | name] eqn:Hname;
    try (split; [split; [intros [cfg H]; discriminate H
                        | intros (name & dir & H & _); discriminate H]
                | split; [reflexivity | intros name err H; discriminate H]]).
  rewrite !get_insert_ne by done.
  destruct (if String.eqb platform "local" then inr cwd
            else upath_join (get merged "baseDir")
                   ("./repos/" ++ platform ++ "/" ++ name))
    as [err | dir] eqn:Hdir.
  - split; [split; [intros [cfg H]; discriminate H |] |].
    + intros (name' & dir & [= <-] & Hd & _). congruence.
    + split; [intros H; destruct (H name eq_refl) |].
      intros name' err' [= <-] Hd. congruence.
  - split; [| split; [intros H; destruct (H name eq_refl) |]].
    + destruct (ensureDir dir) as [err | []] eqn:Hens.
      * split; [intros [cfg H]; discriminate H |].
        intros (name' & dir' & [= <-] & Hd & He). congruence.
      * split; [intros _; exists name, dir; auto |].
        intros _. eexists. reflexivity.
    + intros name' err' [= <-] Hd. congruence.
Qed.

End RepositoryConfigFacts.

Module MavenFacts.
Import Maven.

Lemma append_nil_r (s : string) : s ++ "" = s.
Proof.
  induction s as [| c s IH]; [reflexivity |].
  change (String c s ++ "") with (String c (s ++ "")). rewrite IH.
  reflexivity.
Qed.

(** The text before the first closing brace has none, and the three
    pieces make up the string. *)
Lemma until_close_Some (s inner rest : string) :
  until_close s = Some (inner, rest) ->
  s = inner ++ "}" ++ rest /\ occurs "}" inner = false.
Proof.
  revert inner rest.
  induction s as [| c s IH]; intros inner rest; simpl; [discriminate |].
  destruct (Ascii.eqb_spec c "}") as [-> | Hne].
  - intros [= <- <-]. split; reflexivity.
  - destruct (until_close s) as [[inner' rest'] |]; [| discriminate].
    intros [= <- <-]. destruct (IH _ _ eq_refl) as [-> Hocc].
    split; [reflexivity |]. simpl.
    rewrite Hocc, orb_false_r. apply Ascii.eqb_neq. exact Hne.
Qed.

Lemma until_close_None (s : string) :
  until_close s = None <-> occurs "}" s = false.
Proof.
  induction s as [| c s IH]; simpl; [tauto |].
  destruct (Ascii.eqb c "}"); simpl; [split; discriminate |].
  destruct (until_close s) as [[inner rest] |].
  - split; [discriminate |]. intros H. apply IH in H. discriminate H.
  - split; [intros _; apply IH; reflexivity | reflexivity].
Qed.

(** A match is the text [${], the inner text, [}] and the rest. *)
Lemma placeholder_at_Some (s inner rest : string) :
  placeholder_at s = Some (inner, rest) ->
  s = substr_of inner ++ rest /\ occurs "}" inner = false.
Proof.
  unfold placeholder_at, substr_of.
  destruct s as [| c [| c' s]]; try discriminate.
  - destruct c as [[] [] [] [] [] [] [] []]; discriminate.
  - destruct (Ascii.eqb_spec c "$") as [-> | Hc].
    + destruct (Ascii.eqb_spec c' "{") as [-> | Hc'].
      * intros H. apply until_close_Some in H as [-> Hocc].
        split; [| exact Hocc].
        change ("${" ++ inner ++ "}")
          with (String "$" (String "{" (inner ++ "}"))).
        change (String "$" (String "{" (inner ++ "}")) ++ rest)
          with (String "$" (String "{" ((inner ++ "}") ++ rest))).
        rewrite append_assoc. reflexivity.
      * intros H. exfalso. apply Hc'.
        destruct c' as [[] [] [] [] [] [] [] []]; try discriminate H.
        reflexivity.
    + intros H. exfalso. apply Hc.
      destruct c as [[] [] [] [] [] [] [] []]; try discriminate H.
      reflexivity.
Qed.

Lemma string_drop_app (a b : string) (n : nat) :
  string_drop (String.length a + n) (a ++ b) = string_drop n b.
Proof. induction a as [| c a IH]; simpl; [reflexivity | exact IH]. Qed.

Lemma string_drop_match (c : ascii) (inner rest : string) :
  string_drop (String.length inner + 2)
    (String c ((inner ++ "}") ++ rest)) = rest.
Proof.
  replace (String.length inner + 2) with (S (String.length inner + 1))
    by lia.
  simpl. rewrite append_assoc, string_drop_app. reflexivity.
Qed.

Lemma flatten_cons (t : token) (ts : list token) :
  flatten (t :: ts) = text_of t ++ flatten ts.
Proof. reflexivity. Qed.

Lemma flatten_tokens_from (s : string) (skip : nat) :
  flatten (tokens_from s skip) = string_drop skip s.
Proof.
  revert skip. induction s as [| c s IH]; intros skip.
  - destruct skip; reflexivity.
  - destruct skip as [| skip]; [| simpl; apply IH].
    change (tokens_from (String c s) 0)
      with (match placeholder_at (String c s) with
            | Some (inner, _) =>
                Placeholder inner :: tokens_from s (String.length inner + 2)
            | None => Text c :: tokens_from s 0
            end).
    destruct (placeholder_at (String c s)) as [[inner rest] |] eqn:E.
    + apply placeholder_at_Some in E as [E _].
      unfold substr_of in E.
      change ("${" ++ inner ++ "}")
        with (String "$" (String "{" (inner ++ "}"))) in E.
      change (String "$" (String "{" (inner ++ "}")) ++ rest)
        with (String "$" (String "{" ((inner ++ "}") ++ rest))) in E.
      injection E as -> ->.
      rewrite flatten_cons, IH, string_drop_match. unfold text_of, substr_of.
      change ("${" ++ inner ++ "}")
        with (String "$" (String "{" (inner ++ "}"))).
      change (String "$" (String "{" (inner ++ "}")) ++ rest)
        with (String "$" (String "{" ((inner ++ "}") ++ rest))).
      reflexivity.
    + simpl. rewrite IH. reflexivity.
Qed.

(** Cutting a string into tokens loses nothing. *)
Lemma flatten_tokens (s : string) : flatten (tokens s) = s.
Proof. apply flatten_tokens_from. Qed.

(** A string that is one placeholder starts with a placeholder token. *)
Lemma whole_placeholder_has (s inner : string) :
  whole_placeholder s = Some inner ->
  s = substr_of inner /\ has_placeholder s = true.
Proof.
  unfold whole_placeholder, has_placeholder, tokens.
  destruct (placeholder_at s) as [[inner' rest] |] eqn:E; [| discriminate].
  destruct rest; [| discriminate]. intros [= ->].
  pose proof (placeholder_at_Some _ _ _ E) as [Hs _].
  rewrite append_nil_r in Hs. split; [exact Hs |].
  destruct s as [| c s]; [discriminate E |].
  change (tokens_from (String c s) 0)
    with (match placeholder_at (String c s) with
          | Some (inner, _) =>
              Placeholder inner :: tokens_from s (String.length inner + 2)
          | None => Text c :: tokens_from s 0
          end).
  rewrite E. reflexivity.
Qed.

Section ApplyPropsFacts.

Variable trim : string -> string.
Variable props : gmap string MavenProp.

Abbreviation consistent := (Maven.consistent props).
Abbreviation unresolvable := (Maven.unresolvable trim props).
Abbreviation unresolved := (Maven.unresolved trim props).

Lemma mark_seen_consistent prev propKey cl :
  is_Some (props !! propKey) ->
  consistent prev cl ->
  consistent prev (mark_seen prev propKey cl).
Proof.
  intros Hin (Hsub & Hdisj & Hchange & Hfatal).
  apply elem_of_dom in Hin.
  unfold consistent, mark_seen. simpl.
  case_bool_decide as Hseen.
  - split; [exact Hsub |]. split; [exact Hdisj |].
    split; [auto |]. intros _ ->. apply not_elem_of_empty in Hseen.
    exact Hseen.
  - split; [apply union_least; [apply singleton_subseteq_l |]; assumption |].
    split; [apply disjoint_union_l; split;
            [apply disjoint_singleton_l |]; assumption |].
    split; [| exact Hfatal].
    intros _. right. intros Hempty.
    apply (not_elem_of_empty (C := gset string) propKey).
    rewrite <- Hempty. apply elem_of_union_l, elem_of_singleton.
    reflexivity.
Qed.

Lemma replace_tokens_consistent prev ts cl :
  consistent prev cl ->
  consistent prev (snd (replace_tokens trim props prev ts cl)).
Proof.
  revert cl. induction ts as [| t ts IH]; intros cl Hcl; [exact Hcl |].
  simpl.
  destruct (replace_token trim props prev t cl) as [s cl'] eqn:Et.
  assert (Hcl' : consistent prev cl').
  { destruct t as [c | inner]; simpl in Et.
    - injection Et as _ <-. exact Hcl.
    - destruct (props !! trim inner) as [p |] eqn:Ep.
      + injection Et as _ <-. apply mark_seen_consistent; [eauto | exact Hcl].
      + injection Et as _ <-. exact Hcl. }
  specialize (IH cl' Hcl').
  destruct (replace_tokens trim props prev ts cl') as [rest cl'']. exact IH.
Qed.

Lemma replaceAll_each_consistent prev urls cl :
  consistent prev cl ->
  consistent prev (snd (replaceAll_each trim props prev urls cl)).
Proof.
  revert cl. induction urls as [| url urls IH]; intros cl Hcl; [exact Hcl |].
  simpl. unfold replaceAll.
  pose proof (replace_tokens_consistent prev (tokens url) cl Hcl) as H.
  destruct (replace_tokens trim props prev (tokens url) cl) as [u cl'].
  specialize (IH cl' H).
  destruct (replaceAll_each trim props prev urls cl') as [rest cl''].
  exact IH.
Qed.


Lemma replace_tokens_untouched prev ts cl :
  untouched cl (snd (replace_tokens trim props prev ts cl)).
Proof.
  revert cl. induction ts as [| t ts IH]; intros cl;
    [repeat split |].
  simpl.
  destruct (replace_token trim props prev t cl) as [s cl'] eqn:Et.
  assert (Hcl' : untouched cl cl').
  { destruct t as [c | inner]; simpl in Et.
    - injection Et as _ <-. repeat split.
    - destruct (props !! trim inner) as [p |];
        injection Et as _ <-; repeat split. }
  specialize (IH cl').
  destruct (replace_tokens trim props prev ts cl') as [rest cl''].
  simpl in *. destruct Hcl' as (? & ? & ?), IH as (? & ? & ?).
  repeat split; congruence.
Qed.

Lemma replaceAll_each_untouched prev urls cl :
  untouched cl (snd (replaceAll_each trim props prev urls cl)).
Proof.
  revert cl. induction urls as [| url urls IH]; intros cl;
    [repeat split |].
  simpl. unfold replaceAll.
  pose proof (replace_tokens_untouched prev (tokens url) cl) as H.
  destruct (replace_tokens trim props prev (tokens url) cl) as [u cl'].
  specialize (IH cl').
  destruct (replaceAll_each trim props prev urls cl') as [rest cl''].
  simpl in *. destruct H as (? & ? & ?), IH as (? & ? & ?).
  repeat split; congruence.
Qed.

Lemma resolve_name_consistent prev dep cl :
  consistent prev cl ->
  consistent prev (snd (resolve_name trim props prev dep cl)).
Proof.
  intros Hcl. unfold resolve_name, replaceAll.
  destruct (narrow (depName dep)) as [name |]; [| exact Hcl].
  pose proof (replace_tokens_consistent prev (tokens name) cl Hcl) as H.
  destruct (replace_tokens trim props prev (tokens name) cl). exact H.
Qed.

Lemma resolve_name_untouched prev dep cl :
  untouched cl (snd (resolve_name trim props prev dep cl)).
Proof.
  unfold resolve_name, replaceAll.
  destruct (narrow (depName dep)) as [name |]; [| repeat split].
  pose proof (replace_tokens_untouched prev (tokens name) cl) as H.
  destruct (replace_tokens trim props prev (tokens name) cl). exact H.
Qed.


Lemma initial_closure_consistent prev dep :
  consistent prev (initial_closure dep).
Proof.
  unfold consistent, initial_closure. simpl.
  split; [apply empty_subseteq |]. split; [apply disjoint_empty_l |].
  split; discriminate.
Qed.




Lemma replace_tokens_unresolvable prev ts cl :
  unresolvable ts ->
  replace_tokens trim props prev ts cl = (flatten ts, cl).
Proof.
  induction 1 as [| t ts Ht _ IH]; [reflexivity |].
  simpl. destruct t as [c | inner]; simpl.
  - rewrite IH. reflexivity.
  - rewrite Ht, IH. reflexivity.
Qed.

Lemma plain_unresolvable (ts : list token) :
  existsb is_placeholder ts = false -> unresolvable ts.
Proof.
  induction ts as [| t ts IH]; [constructor |].
  simpl. intros H. apply orb_false_iff in H as [Ht Hts].
  constructor; [| apply IH; exact Hts].
  destruct t; [exact I | discriminate Ht].
Qed.

(** A string without a placeholder is left as it is. *)
Lemma replaceAll_plain prev str cl :
  has_placeholder str = false ->
  replaceAll trim props prev str cl = (str, cl).
Proof.
  intros H. unfold replaceAll.
  rewrite (replace_tokens_unresolvable _ _ _ (plain_unresolvable _ H)).
  rewrite flatten_tokens. reflexivity.
Qed.

Lemma replaceAll_each_plain prev urls cl :
  Forall (fun url => has_placeholder url = false) urls ->
  replaceAll_each trim props prev urls cl = (urls, cl).
Proof.
  induction 1 as [| url urls Hurl _ IH]; [reflexivity |].
  simpl. rewrite (replaceAll_plain _ _ _ Hurl), IH. reflexivity.
Qed.

Lemma whole_placeholder_plain (str : string) :
  has_placeholder str = false -> whole_placeholder str = None.
Proof.
  intros H. destruct (whole_placeholder str) as [inner |] eqn:E;
    [| reflexivity].
  apply whole_placeholder_has in E as [_ E]. congruence.
Qed.

Lemma replace_version_plain prev str cl :
  has_placeholder str = false ->
  replace_version trim props prev str cl = (str, cl).
Proof.
  intros H. unfold replace_version.
  rewrite (whole_placeholder_plain _ H). reflexivity.
Qed.

Lemma replaceAll_each_unresolvable prev urls cl :
  Forall (fun url => unresolvable (tokens url)) urls ->
  replaceAll_each trim props prev urls cl = (urls, cl).
Proof.
  induction 1 as [| url urls Hurl _ IH]; [reflexivity |].
  simpl. unfold replaceAll.
  rewrite (replace_tokens_unresolvable _ _ _ Hurl), flatten_tokens, IH.
  reflexivity.
Qed.

(** A call on such a dependency changes nothing but the form of a falsy
    version. *)
Lemma applyPropsInternal_unresolved dep depPackageFile prev :
  unresolved dep ->
  applyPropsInternal trim props dep depPackageFile prev
  = (build_result dep depPackageFile (depName dep) (registryUrls dep)
       (normal_version (currentValue dep)) (initial_closure dep),
     false, false, prev ∪ ∅).
Proof.
  intros (Hname & Hurls & Hversion). unfold applyPropsInternal.
  assert (H1 : resolve_name trim props prev dep (initial_closure dep)
               = (depName dep, initial_closure dep)).
  { unfold resolve_name, replaceAll.
    destruct (narrow (depName dep)) as [name |] eqn:E; [| reflexivity].
    rewrite (replace_tokens_unresolvable _ _ _ (Hname name eq_refl)).
    rewrite flatten_tokens. apply narrow_Some in E as [-> _]. reflexivity. }
  rewrite H1, (replaceAll_each_unresolvable _ _ _ Hurls).
  assert (H3 : resolve_version trim props prev dep (initial_closure dep)
               = (normal_version (currentValue dep), initial_closure dep)).
  { unfold resolve_version, normal_version, replace_version.
    destruct (currentValue dep) as [| | b | n | v] eqn:E; try reflexivity.
    destruct (truthy (VStr v)); [| reflexivity].
    destruct (whole_placeholder v) as [inner |] eqn:Ew; [| reflexivity].
    rewrite (Hversion v inner eq_refl Ew). reflexivity. }
  rewrite H3. reflexivity.
Qed.

(** A call on a dependency whose version is one placeholder naming a
    property in scope. *)
Lemma applyPropsInternal_version_hit dep depPackageFile prev v inner p :
  currentValue dep = VStr v ->
  whole_placeholder v = Some inner ->
  props !! trim inner = Some p ->
  exists result fatal' seen,
    applyPropsInternal trim props dep depPackageFile prev
    = (result, true, fatal', seen)
    /\ currentValue result = VStr (val p)
    /\ fileReplacePosition result = Some (prop_fileReplacePosition p)
    /\ propSource result = packageFile p
    /\ sharedVariableName result
       = match narrow (Some (trim inner)) with
         | Some name => Some name
         | None => sharedVariableName dep
         end
    /\ editFile result
       = match narrow (packageFile p) with
         | Some source =>
             if String.eqb depPackageFile source then editFile dep
             else Some source
         | None => editFile dep
         end
    /\ skipReason result = skipReason dep
    /\ depName result
       = fst (resolve_name trim props prev dep (initial_closure dep))
    /\ registryUrls result
       = fst (replaceAll_each trim props prev (registryUrls dep)
                (snd (resolve_name trim props prev dep (initial_closure dep))))
    /\ trim inner ∈ seen
    /\ (trim inner ∈ prev -> fatal' = true)
    /\ (prev = ∅ -> fatal' = false).
Proof.
  intros Hcv Hwhole Hp. unfold applyPropsInternal.
  pose proof (resolve_name_consistent prev dep _
                (initial_closure_consistent prev dep)) as H1.
  pose proof (resolve_name_untouched prev dep (initial_closure dep)) as U1.
  destruct (resolve_name trim props prev dep (initial_closure dep))
    as [depName' cl1].
  simpl fst. simpl snd.
  pose proof (replaceAll_each_consistent prev (registryUrls dep) cl1 H1)
    as H2.
  pose proof (replaceAll_each_untouched prev (registryUrls dep) cl1) as U2.
  destruct (replaceAll_each trim props prev (registryUrls dep) cl1)
    as [registryUrls' cl2].
  simpl in H1, U1, H2, U2.
  destruct U1 as (Us1 & Uf1 & Up1), U2 as (Us2 & Uf2 & Up2).
  destruct H2 as (_ & _ & _ & Hfatal).
  unfold resolve_version, replace_version. rewrite Hcv.
  apply whole_placeholder_has in Hwhole as Hv. destruct Hv as [Hv _].
  assert (Htruthy : truthy (VStr v) = true) by (rewrite Hv; reflexivity).
  rewrite Htruthy, Hwhole, Hp.
  eexists _, _, _. split; [reflexivity |].
  simpl. rewrite Us2, Us1. simpl.
  repeat match goal with |- _ /\ _ => split end; try reflexivity.
  - case_bool_decide.
    + apply elem_of_union_l. assumption.
    + apply elem_of_union_r, elem_of_union_l, elem_of_singleton.
      reflexivity.
  - intros Hin. rewrite bool_decide_eq_true_2 by exact Hin. reflexivity.
  - intros ->. rewrite bool_decide_eq_false_2 by apply not_elem_of_empty.
    destruct (fatal cl2); [| reflexivity].
    destruct (Hfatal eq_refl eq_refl).
Qed.


End ApplyPropsFacts.

End MavenFacts.

Module MavenProperties.
Import Maven MavenFacts.

Section ApplyPropsProperties.

Variable trim : string -> string.
Variable props : gmap string MavenProp.


(** X15.  A version that is a placeholder for a property whose own
    value is a placeholder for the same property is caught in the second
    round: [applyProps] returns the dependency it was given, unresolved,
    with [skipReason] ['recursive-placeholder']. *)
Theorem applyProps_self_reference
    dep depPackageFile rounds v inner p inner' :
  1 < rounds ->
  currentValue dep = VStr v ->
  whole_placeholder v = Some inner ->
  props !! trim inner = Some p ->
  whole_placeholder (val p) = Some inner' ->
  trim inner' = trim inner ->
  applyProps trim props rounds dep depPackageFile
  = Some (set_skipReason "recursive-placeholder" dep).
Proof.
  intros Hrounds Hcv Hwhole Hp Hwhole' Hsame.
  destruct rounds as [| [| rounds]]; [lia | lia |].
  destruct (applyPropsInternal_version_hit trim props dep depPackageFile ∅
              v inner p Hcv Hwhole Hp)
    as (r1 & f1 & seen1 & E1 & Hcv1 & _ & _ & _ & _ & _ & _ & _
        & Hseen & _ & Hf1).
  rewrite (Hf1 eq_refl) in E1.
  rewrite <- Hsame in Hp, Hseen.
  destruct (applyPropsInternal_version_hit trim props r1 depPackageFile seen1
              (val p) inner' p Hcv1 Hwhole' Hp)
    as (r2 & f2 & seen2 & E2 & _ & _ & _ & _ & _ & _ & _ & _ & _ & Hf2 & _).
  rewrite (Hf2 Hseen) in E2.
  unfold applyProps.
  change (applyProps_loop trim props (S (S rounds)) dep depPackageFile ∅)
    with (let '(returnedResult, returnedAnyChange, fatal, alreadySeenProps) :=
            applyPropsInternal trim props dep depPackageFile ∅ in
          if fatal then Some (returnedResult, true)
          else if returnedAnyChange
               then applyProps_loop trim props (S rounds) returnedResult
                      depPackageFile alreadySeenProps
               else Some (returnedResult, false)).
  rewrite E1. simpl. rewrite E2. reflexivity.
Qed.


(** X17.  A version that is a placeholder for a property in scope whose
    value has no placeholder, on a dependency with no placeholder in its
    name and registry URLs, is resolved in two rounds: the version is the
    value of the property, the position and the source are those of the
    property, the shared variable is its name, and the file to edit is
    the source when that is another file. *)
Theorem applyProps_version_property
    dep depPackageFile rounds v inner p :
  1 < rounds ->
  containsPlaceholder (of_optional (depName dep)) = false ->
  Forall (fun url => has_placeholder url = false) (registryUrls dep) ->
  currentValue dep = VStr v ->
  whole_placeholder v = Some inner ->
  props !! trim inner = Some p ->
  has_placeholder (val p) = false ->
  truthy (VStr (val p)) = true ->
  exists resolved,
    applyProps trim props rounds dep depPackageFile = Some resolved
    /\ currentValue resolved = VStr (val p)
    /\ depName resolved = depName dep
    /\ registryUrls resolved = registryUrls dep
    /\ fileReplacePosition resolved = Some (prop_fileReplacePosition p)
    /\ propSource resolved = packageFile p
    /\ sharedVariableName resolved
       = match narrow (Some (trim inner)) with
         | Some name => Some name
         | None => sharedVariableName dep
         end
    /\ editFile resolved
       = match narrow (packageFile p) with
         | Some source =>
             if String.eqb depPackageFile source then editFile dep
             else Some source
         | None => editFile dep
         end
    /\ skipReason resolved = skipReason dep.
Proof.
  intros Hrounds Hname Hurls Hcv Hwhole Hp Hplain Htruthy.
  destruct rounds as [| [| rounds]]; [lia | lia |].
  assert (Hn : forall prev cl,
             resolve_name trim props prev dep cl = (depName dep, cl)).
  { intros prev cl. unfold resolve_name.
    destruct (narrow (depName dep)) as [name |] eqn:E; [| reflexivity].
    apply narrow_Some in E as [E Ht]. rewrite E in Hname |- *.
    unfold containsPlaceholder in Hname. simpl of_optional in Hname.
    rewrite Ht in Hname. simpl in Hname.
    rewrite (replaceAll_plain trim props _ _ _ Hname). reflexivity. }
  destruct (applyPropsInternal_version_hit trim props dep depPackageFile ∅
              v inner p Hcv Hwhole Hp)
    as (r1 & f1 & seen1 & E1 & Hcv1 & Hpos1 & Hsrc1 & Hshared1 & Hedit1
        & Hskip1 & Hname1 & Hurls1 & _ & _ & Hf1).
  rewrite (Hf1 eq_refl) in E1.
  rewrite Hn in Hname1, Hurls1. simpl in Hname1, Hurls1.
  rewrite (replaceAll_each_plain trim props _ _ _ Hurls) in Hurls1.
  simpl in Hurls1.
  assert (Hr1 : unresolved trim props r1).
  { split; [| split].
    - intros name E. apply plain_unresolvable.
      apply narrow_Some in E as [E Ht]. rewrite Hname1, E in *.
      unfold containsPlaceholder in Hname. simpl of_optional in Hname.
      rewrite Ht in Hname. exact Hname.
    - rewrite Hurls1. eapply Forall_impl; [exact Hurls |].
      intros url H. apply plain_unresolvable. exact H.
    - intros v' inner'. rewrite Hcv1. intros [= <-] Hw.
      rewrite (whole_placeholder_plain _ Hplain) in Hw. discriminate Hw. }
  unfold applyProps.
  change (applyProps_loop trim props (S (S rounds)) dep depPackageFile ∅)
    with (let '(returnedResult, returnedAnyChange, fatal, alreadySeenProps) :=
            applyPropsInternal trim props dep depPackageFile ∅ in
          if fatal then Some (returnedResult, true)
          else if returnedAnyChange
               then applyProps_loop trim props (S rounds) returnedResult
                      depPackageFile alreadySeenProps
               else Some (returnedResult, false)).
  rewrite E1. simpl applyProps_loop.
  rewrite (applyPropsInternal_unresolved trim props r1 depPackageFile seen1
             Hr1).
  simpl. rewrite Hname1, Hname, Hcv1.
  unfold normal_version. rewrite Htruthy.
  unfold containsPlaceholder. rewrite Htruthy, Hplain. simpl.
  eexists. split; [reflexivity |]. simpl.
  rewrite Hpos1, Hsrc1, Hshared1, Hedit1, Hskip1, Hurls1.
  repeat match goal with |- _ /\ _ => split end; try reflexivity.
  destruct (narrow (packageFile p)) as [source |]; [| reflexivity].
  destruct (String.eqb depPackageFile source); reflexivity.
Qed.

End ApplyPropsProperties.

End MavenProperties.

Module WorkerFacts.
Import Worker.

Section StartFacts.

Context {Config Repository RepoConfig HostRule : Type}.

Abbreviation action := (@action Config Repository RepoConfig HostRule).
Abbreviation state := (@state Config Repository RepoConfig HostRule).
Abbreviation W := (@W Config Repository RepoConfig HostRule).
Abbreviation emits := (@emits Config Repository RepoConfig HostRule).
Abbreviation steady := (@steady Config Repository RepoConfig HostRule).
Abbreviation no_return := (@no_return Config Repository RepoConfig HostRule).
Abbreviation assigned := (@assigned Config Repository RepoConfig HostRule).

(** How a [wbind] ended. *)
Lemma bind_inv {A B} (m : W A) (k : A -> W B) (s s' : state)
    (r : completion B) :
  wbind m k s = (s', r) ->
  (exists a s1, m s = (s1, Normal a) /\ k a s1 = (s', r))
  \/ (exists code, m s = (s', Return code) /\ r = Return code)
  \/ (exists err, m s = (s', Throw err) /\ r = Throw err).
Proof.
  unfold wbind. destruct (m s) as [s1 [a | code | err]]; intros H.
  - left. eauto.
  - right. left. injection H as <- <-. eauto.
  - right. right. injection H as <- <-. eauto.
Qed.

Ltac emits_nothing :=
  intros s s' r [= <- <-]; exists []; rewrite app_nil_r; auto.

Ltac emits_one c :=
  intros s s' r [= <- <-]; exists [c]; auto.

Lemma emits_ret Q {A} (a : A) : emits Q (wret a).
Proof. emits_nothing. Qed.

Lemma emits_throw Q {A} (err : error) : emits Q (throw (A := A) err).
Proof. emits_nothing. Qed.

Lemma emits_return Q {A} (code : Z) : emits Q (return_ (A := A) code).
Proof. emits_nothing. Qed.

Lemma emits_get_config Q : emits Q (get_config (Config := Config)).
Proof. emits_nothing. Qed.

Lemma emits_set_config Q (c : Config) : emits Q (set_config c).
Proof. emits_nothing. Qed.

Lemma emits_emit (Q : action -> Prop) (c : action) : Q c -> emits Q (perform c).
Proof. intros Hc. emits_one c. Qed.

Lemma emits_ask (Q : action -> Prop) {A} (c : action) (answer : list action -> A) :
  Q c -> emits Q (ask c answer).
Proof. intros Hc. emits_one c. Qed.

Lemma emits_attempt (Q : action -> Prop) {A} (c : action)
    (answer : list action -> error + A) :
  Q c -> emits Q (attempt c answer).
Proof. intros Hc. emits_one c. Qed.

Lemma emits_bind Q {A B} (m : W A) (k : A -> W B) :
  emits Q m -> (forall a, emits Q (k a)) -> emits Q (wbind m k).
Proof.
  intros Hm Hk s s' r H.
  apply bind_inv in H
    as [(a & s1 & H1 & H2) | [(code & H1 & _) | (err & H1 & _)]];
    try (apply (Hm _ _ _ H1)).
  destruct (Hm _ _ _ H1) as (t1 & Ht1 & HQ1).
  destruct (Hk a _ _ _ H2) as (t2 & Ht2 & HQ2).
  exists (t1 ++ t2)%list. rewrite Ht2, Ht1, app_assoc.
  split; [reflexivity | apply Forall_app; auto].
Qed.

Lemma emits_try_catch Q {A} (body : W A) (handler : error -> W A) :
  emits Q body -> (forall err, emits Q (handler err)) ->
  emits Q (wtry_catch body handler).
Proof.
  intros Hb Hh s s' r. unfold wtry_catch.
  destruct (body s) as [s1 r1] eqn:E1.
  destruct (Hb _ _ _ E1) as (t1 & Ht1 & HQ1).
  destruct r1 as [a | code | err]; try (intros [= <- <-]; eauto).
  intros H2. destruct (Hh err _ _ _ H2) as (t2 & Ht2 & HQ2).
  exists (t1 ++ t2)%list. rewrite Ht2, Ht1, app_assoc.
  split; [reflexivity | apply Forall_app; auto].
Qed.

Lemma emits_when Q (b : bool) (m : W unit) :
  emits Q m -> emits Q (when b m).
Proof. intros Hm. destruct b; [exact Hm | apply emits_ret]. Qed.

Lemma emits_for_of Q {A} (xs : list A) (body : A -> W bool) :
  (forall x, emits Q (body x)) -> emits Q (for_of xs body).
Proof.
  intros Hbody. induction xs as [| x xs IH]; simpl; [apply emits_ret |].
  apply emits_bind; [apply Hbody |].
  intros [|]; [apply emits_ret | exact IH].
Qed.

(** Proves [emits Q m] for a block written with the operations above, as
    long as [Q] holds of each call by computation. *)
Ltac emits_auto :=
  repeat lazymatch goal with
    | |- emits _ (wret _) => apply emits_ret
    | |- emits _ (throw _) => apply emits_throw
    | |- emits _ (return_ _) => apply emits_return
    | |- emits _ get_config => apply emits_get_config
    | |- emits _ (set_config _) => apply emits_set_config
    | |- emits _ (perform (fatal_log _)) =>
        apply emits_emit; unfold fatal_log;
        destruct (String.prefix _ _); reflexivity
    | |- emits _ (perform _) => apply emits_emit; reflexivity
    | |- emits _ (ask _ _) => apply emits_ask; reflexivity
    | |- emits _ (attempt _ _) => apply emits_attempt; reflexivity
    | |- emits _ (when _ _) => apply emits_when
    | |- emits _ (for_of _ _) => apply emits_for_of; intros ?
    | |- emits _ (wtry_catch _ _) => apply emits_try_catch; [| intros ?]
    | |- emits _ (wbind _ _) => apply emits_bind; [| intros ?]
    | |- emits _ (match ?x with _ => _ end) => destruct x
    end.

Ltac plain_prim :=
  intros s s' r [= <- <-]; split; [reflexivity |];
  try discriminate; try (intros code; destruct (_ (history s)); discriminate).

Lemma plain_ret {A} (a : A) : steady (wret a).
Proof. plain_prim. Qed.

Lemma plain_throw {A} (err : error) : steady (throw (A := A) err).
Proof. plain_prim. Qed.

Lemma plain_get_config : steady (get_config (Config := Config)).
Proof. plain_prim. Qed.

Lemma plain_emit (c : action) : steady (perform c).
Proof. plain_prim. Qed.

Lemma plain_ask {A} (c : action) (answer : list action -> A) :
  steady (ask c answer).
Proof. plain_prim. Qed.

Lemma plain_attempt {A} (c : action) (answer : list action -> error + A) :
  steady (attempt c answer).
Proof. plain_prim. Qed.

Lemma plain_bind {A B} (m : W A) (k : A -> W B) :
  steady m -> (forall a, steady (k a)) -> steady (wbind m k).
Proof.
  intros Hm Hk s s' r H.
  apply bind_inv in H
    as [(a & s1 & H1 & H2) | [(code & H1 & ->) | (err & H1 & ->)]].
  - destruct (Hm _ _ _ H1) as [Hc1 _], (Hk a _ _ _ H2) as [Hc2 Hr].
    split; [congruence | exact Hr].
  - destruct (Hm _ _ _ H1) as [_ Hr]. destruct (Hr code eq_refl).
  - destruct (Hm _ _ _ H1) as [Hc _]. split; [exact Hc | discriminate].
Qed.

Lemma plain_try_catch {A} (body : W A) (handler : error -> W A) :
  steady body -> (forall err, steady (handler err)) ->
  steady (wtry_catch body handler).
Proof.
  intros Hb Hh s s' r. unfold wtry_catch.
  destruct (body s) as [s1 r1] eqn:E1.
  destruct (Hb _ _ _ E1) as [Hc1 Hr1].
  destruct r1 as [a | code | err].
  - intros [= <- <-]. split; [exact Hc1 | discriminate].
  - destruct (Hr1 code eq_refl).
  - intros H2. destruct (Hh err _ _ _ H2) as [Hc2 Hr2].
    split; [congruence | exact Hr2].
Qed.

Lemma plain_when (b : bool) (m : W unit) : steady m -> steady (when b m).
Proof. intros Hm. destruct b; [exact Hm | apply plain_ret]. Qed.

Lemma plain_for_of {A} (xs : list A) (body : A -> W bool) :
  (forall x, steady (body x)) -> steady (for_of xs body).
Proof.
  intros Hbody. induction xs as [| x xs IH]; simpl; [apply plain_ret |].
  apply plain_bind; [apply Hbody |].
  intros [|]; [apply plain_ret | exact IH].
Qed.

Ltac plain_auto :=
  repeat lazymatch goal with
    | |- steady (wret _) => apply plain_ret
    | |- steady (throw _) => apply plain_throw
    | |- steady get_config => apply plain_get_config
    | |- steady (perform _) => apply plain_emit
    | |- steady (ask _ _) => apply plain_ask
    | |- steady (attempt _ _) => apply plain_attempt
    | |- steady (when _ _) => apply plain_when
    | |- steady (for_of _ _) => apply plain_for_of; intros ?
    | |- steady (wtry_catch _ _) => apply plain_try_catch; [| intros ?]
    | |- steady (wbind _ _) => apply plain_bind; [| intros ?]
    | |- steady (match ?x with _ => _ end) => destruct x
    end.


Lemma plain_no_return {A} (m : W A) : steady m -> no_return m.
Proof.
  intros Hm s s' code H. destruct (Hm _ _ _ H) as [_ Hr]. eapply Hr; eauto.
Qed.

Lemma no_return_set_config (c : Config) : no_return (set_config c).
Proof. intros s s' code. discriminate. Qed.

Lemma no_return_bind {A B} (m : W A) (k : A -> W B) :
  no_return m -> (forall a, no_return (k a)) -> no_return (wbind m k).
Proof.
  intros Hm Hk s s' code H.
  apply bind_inv in H
    as [(a & s1 & H1 & H2) | [(code' & H1 & _) | (err & H1 & [=])]].
  - exact (Hk _ _ _ _ H2).
  - exact (Hm _ _ _ H1).
Qed.

Lemma plain_assigned {A} (m : W A) : steady m -> assigned m.
Proof.
  intros Hm s s' r H. destruct (Hm _ _ _ H) as [-> _]. auto.
Qed.

Lemma assigned_set_config (c : Config) : assigned (set_config c).
Proof. intros s s' r [= <- <-] _. simpl. eauto. Qed.

Lemma assigned_bind {A B} (m : W A) (k : A -> W B) :
  assigned m -> (forall a, assigned (k a)) -> assigned (wbind m k).
Proof.
  intros Hm Hk s s' r H Hs.
  apply bind_inv in H
    as [(a & s1 & H1 & H2) | [(code & H1 & _) | (err & H1 & _)]].
  - apply (Hk a _ _ _ H2), (Hm _ _ _ H1), Hs.
  - apply (Hm _ _ _ H1), Hs.
  - apply (Hm _ _ _ H1), Hs.
Qed.

Lemma bind_Normal {A B} (m : W A) (k : A -> W B) (s s1 : state) (a : A) :
  m s = (s1, Normal a) -> wbind m k s = k a s1.
Proof. unfold wbind. intros ->. reflexivity. Qed.

Lemma when_emit (b : bool) (c : action) (s : state) :
  when b (perform c) s
  = ({| history := (history s ++ if b then [c] else [])%list;
        config := config s |}, Normal tt).
Proof.
  destruct b, s; unfold when, perform, wret, record; simpl;
    rewrite ?app_nil_r; reflexivity.
Qed.

(** Calls that start no repository add nothing to [started]. *)
Lemma started_nil (t : list action) :
  Forall (fun c => is_repository_call c = false) t -> started t = [].
Proof.
  induction 1 as [| c t Hc _ IH]; [reflexivity |].
  destruct c; first [discriminate Hc | exact IH].
Qed.

Lemma started_app (t t' : list action) :
  started (t ++ t') = (started t ++ started t')%list.
Proof. apply omap_app. Qed.

Lemma is_work_false (c : action) :
  is_work c = false ->
  is_writeFile c = false /\ is_repository_call c = false
  /\ is_report c = false /\ is_finalize c = false.
Proof. destruct c; simpl; intros; try discriminate; auto. Qed.

Variable world : @Surroundings Config Repository RepoConfig HostRule.

Lemma plain_validatePresets c : steady (validatePresets world c).
Proof. unfold validatePresets. plain_auto. Qed.

Lemma plain_checkEnv : steady (checkEnv world).
Proof. unfold checkEnv. plain_auto. Qed.

Lemma plain_visit c x : steady (visit world c x).
Proof.
  unfold visit, haveReachedLimits, instrument, processRepository.
  plain_auto.
Qed.

Lemma plain_processAll c : steady (processAll world c).
Proof.
  unfold processAll.
  destruct (repositories world c); [| apply plain_throw].
  apply plain_bind; [apply plain_for_of, plain_visit |].
  intros _. plain_auto.
Qed.

(** What follows the first assignment to [config] in the callback of
    [instrument('config', ...)], lines 125-147. *)
Lemma assigned_initialize c :
  assigned
    (do* perform (Call_GlobalConfig_set c false) in
     let* c := attempt (Call_globalInitialize c)
                       (fun h => globalInitialize world h c) in
     do* set_config c in
     do* perform (Call_GlobalConfig_set c true) in
     do* validatePresets world c in
     do* perform (Call_setGlobalLogLevelRemaps c) in
     do* checkEnv world in
     attempt (Call_validateConfigSecretsAndVariables c)
             (fun h => validateConfigSecretsAndVariables world h c)).
Proof.
  repeat first
    [ apply assigned_set_config
    | apply plain_assigned, plain_validatePresets
    | apply plain_assigned, plain_checkEnv
    | apply plain_assigned; plain_auto; fail
    | apply assigned_bind; [| intros ?] ].
Qed.

Lemma no_return_configure :
  no_return (instrument "config" (configure world)).
Proof.
  unfold instrument, configure.
  repeat first
    [ apply no_return_set_config
    | apply plain_no_return, plain_validatePresets
    | apply plain_no_return, plain_checkEnv
    | apply plain_no_return; plain_auto; fail
    | apply no_return_bind; [| intros ?] ].
Qed.

Lemma no_return_discover env : no_return (discover world env).
Proof.
  unfold discover.
  repeat first
    [ apply no_return_set_config
    | apply no_return_configure
    | apply plain_no_return; unfold instrument; plain_auto; fail
    | apply no_return_bind; [| intros ?] ].
Qed.

(** The calls up to the discovery do none of the work. *)
Lemma discover_emits env :
  emits (fun c => is_work c = false) (discover world env).
Proof.
  unfold discover, instrument, configure, validatePresets,
    checkEnv.
  emits_auto.
Qed.

(** When the discovery is through, [config] holds what it gave. *)
Lemma discover_Normal env s s' c :
  discover world env s = (s', Normal c) -> config s' = Some c.
Proof.
  unfold discover. intros H.
  do 5 (apply bind_inv in H
          as [(? & ? & _ & H) | [(? & _ & [=]) | (? & _ & [=])]]).
  apply bind_inv in H
    as [(? & ? & H6 & H) | [(? & _ & [=]) | (? & _ & [=])]].
  injection H6 as <- _. injection H as <- <-. reflexivity.
Qed.

(** The callback of [instrument('config', ...)] by what [parseConfigs]
    answers: a throw leaves [config] as it was, and is handed on; else
    [config] is assigned. *)
Lemma configure_parse s s' r :
  instrument "config" (configure world) s = (s', r) ->
  match parseConfigs world (history s ++ [Call_instrument "config"]) with
  | inl err =>
      s' = {| history :=
                ((history s ++ [Call_instrument "config"])
                 ++ [Call_parseConfigs])%list;
              config := config s |}
      /\ r = Throw err
  | inr _ => is_Some (config s')
  end.
Proof.
  unfold instrument, configure.
  rewrite (bind_Normal _ _ s (record (Call_instrument "config") s) tt)
    by reflexivity.
  unfold wbind at 1, attempt at 1. simpl.
  destruct (parseConfigs world _) as [err | c].
  - intros [= <- <-]. split; reflexivity.
  - unfold wbind at 1, set_config at 1. simpl. intros H.
    apply (assigned_initialize c _ _ _ H). simpl. eauto.
Qed.

Lemma assigned_after_configure :
  assigned
    (let* current := get_config in
     let* c := instrument "discover"
                 (attempt (Call_autodiscoverRepositories current)
                    (fun h => autodiscoverRepositories world h current)) in
     do* set_config c in
     wret (A := Config) c).
Proof.
  repeat first
    [ apply assigned_set_config
    | apply plain_assigned; unfold instrument; plain_auto; fail
    | apply assigned_bind; [| intros ?] ].
Qed.

Lemma discover_parse env s s' r :
  discover world env s = (s', r) ->
  match parseConfigs world (before_parse world env s) with
  | inl err =>
      s' = {| history := (before_parse world env s ++ [Call_parseConfigs])%list;
              config := config s |}
      /\ r = Throw err
  | inr _ => is_Some (config s')
  end.
Proof.
  unfold discover, before_parse.
  erewrite bind_Normal by apply when_emit.
  erewrite bind_Normal by apply when_emit. simpl.
  intros H.
  apply bind_inv in H
    as [(u & s1 & H1 & H) | [(code & H1 & ->) | (err & H1 & ->)]];
    apply configure_parse in H1; simpl in H1;
    destruct (parseConfigs world _) as [err' | c];
    try exact H1.
  - destruct H1 as [_ [=]].
  - apply (assigned_after_configure _ _ _ H H1).
  - destruct H1 as [_ [=]].
  - destruct H1 as [-> [= ->]]. split; reflexivity.
Qed.

(** Lines 155-162 either do nothing, or write the file and end the run
    with [return 0] or the throw of [writeFile]. *)
Lemma writeDiscovered_ends c s s' r :
  writeDiscovered world c s = (s', r) ->
  config s' = config s
  /\ ((s' = s /\ r = Normal tt)
      \/ exists path content log,
           history s' = (history s ++ Call_writeFile path content :: log)%list
           /\ Forall (fun c => is_work c = false) log
           /\ (r = Return 0 \/ exists err, r = Throw err)).
Proof.
  unfold writeDiscovered.
  destruct (writeDiscoveredRepos world c) as [| | | | path];
    try (intros [= <- <-]; auto).
  destruct (truthy (VStr path)); [| intros [= <- <-]; auto].
  unfold wbind, attempt, perform, return_. simpl.
  destruct (writeFile world _ _ _) as [err | u]; intros [= <- <-]; simpl;
    (split; [reflexivity |]); right.
  - exists path, (stringify world (repositories world c)), [].
    split; [reflexivity |]. split; [constructor | eauto].
  - eexists path, (stringify world (repositories world c)), [_].
    rewrite <- app_assoc. simpl.
    split; [reflexivity |]. split; [repeat constructor | eauto].
Qed.

(** Processing a repository starts it, once. *)
Lemma processRepository_started c x s s' r :
  instrument "repository" (processRepository world c x) s = (s', r) ->
  exists t,
    history s' = (history s ++ t)%list /\ started t = [(c, x)].
Proof.
  unfold instrument, processRepository.
  rewrite (bind_Normal _ _ s (record (Call_instrument "repository") s) tt)
    by reflexivity.
  assert (Hrest : forall (a : RepoConfig),
    emits (fun c => is_repository_call c = false
                    \/ exists rc, c = Call_renovateRepository rc)
      (let* repoConfig :=
         match hostRules_of world a with
         | Some rules =>
             do* perform (Log "debug" "Reinitializing hostRules for repo") in
             do* perform Call_hostRules_clear in
             do* for_of rules
                   (fun rule => do* perform (Call_hostRules_add rule) in
                                wret false) in
             wret (without_hostRules world a)
         | None => wret a
         end in
       do* perform Call_queue_clear in
       do* perform Call_throttle_clear in
       do* attempt (Call_renovateRepository repoConfig)
                   (fun h => renovateRepository world h repoConfig) in
       perform Call_setMeta)).
  { intros a.
    repeat lazymatch goal with
      | |- emits _ (wret _) => apply emits_ret
      | |- emits _ (perform _) => apply emits_emit; left; reflexivity
      | |- emits _ (attempt _ _) => apply emits_attempt; right; eauto
      | |- emits _ (for_of _ _) => apply emits_for_of; intros ?
      | |- emits _ (wbind _ _) => apply emits_bind; [| intros ?]
      | |- emits _ (match ?x with _ => _ end) => destruct x
      end. }
  assert (Hquiet : forall t : list action,
    Forall (fun c => is_repository_call c = false
                     \/ exists rc, c = Call_renovateRepository rc) t ->
    started t = []).
  { induction 1 as [| c0 t0 Hc0 _ IH]; [reflexivity |].
    destruct Hc0 as [Hc0 | [rc ->]]; [| exact IH].
    destruct c0; first [discriminate Hc0 | exact IH]. }
  intros H.
  apply bind_inv in H
    as [(a & s4 & H4 & H) | [(code & H4 & _) | (err & H4 & _)]].
  - injection H4 as <- _.
    destruct (Hrest a _ _ _ H) as (t & Ht & HQ).
    exists ([Call_instrument "repository"; Call_getRepositoryConfig c x]
            ++ t)%list.
    split.
    + rewrite Ht. simpl. rewrite <- !app_assoc. reflexivity.
    + rewrite started_app, (Hquiet _ HQ). reflexivity.
  - unfold attempt in H4. injection H4 as _ H4.
    destruct (repositoryConfigFor world _ _ _); discriminate H4.
  - injection H4 as <- _.
    exists [Call_instrument "repository"; Call_getRepositoryConfig c x].
    split; [| reflexivity].
    simpl. rewrite <- !app_assoc. reflexivity.
Qed.

(** One round of the loop starts the repository, unless the limit is
    reached. *)
Lemma visit_started c x s s' r :
  visit world c x s = (s', r) ->
  exists t,
    history s' = (history s ++ t)%list
    /\ match r with
       | Normal true => started t = []
       | _ => started t = [(c, x)]
       end.
Proof.
  unfold visit, haveReachedLimits.
  unfold wbind at 1 2, ask at 1. simpl.
  destruct (isLimitReached world (history s) "Commits").
  - unfold wbind, perform, wret. simpl. intros [= <- <-]. simpl.
    eexists. rewrite <- app_assoc. split; reflexivity.
  - unfold wret at 1. intros H.
    apply bind_inv in H
      as [([] & s3 & H3 & H) | [(code & H3 & ->) | (err & H3 & ->)]];
      destruct (processRepository_started _ _ _ _ _ H3) as (t & Ht & Hs);
      try injection H as <- <-;
      exists (Call_isLimitReached "Commits" :: t);
      (split; [rewrite Ht; simpl; rewrite <- app_assoc; reflexivity
              | exact Hs]).
Qed.

(** The loop starts the repositories in their order, up to some point. *)
Lemma for_of_started c repos s s' r :
  for_of repos (visit world c) s = (s', r) ->
  exists t n,
    history s' = (history s ++ t)%list
    /\ started t = pair c <$> take n repos.
Proof.
  revert s. induction repos as [| x repos IH]; intros s; simpl.
  - intros [= <- <-]. exists [], 0. rewrite app_nil_r. auto.
  - intros H.
    apply bind_inv in H
      as [(stop & s1 & H1 & H) | [(code & H1 & ->) | (err & H1 & ->)]];
      destruct (visit_started _ _ _ _ _ H1) as (t1 & Ht1 & Hs1).
    + destruct stop.
      * injection H as <- <-. exists t1, 0. auto.
      * destruct (IH _ H) as (t2 & n & Ht2 & Hs2).
        exists (t1 ++ t2)%list, (S n).
        rewrite Ht2, Ht1, app_assoc, started_app, Hs1, Hs2.
        split; reflexivity.
    + exists t1, 1. split; [exact Ht1 | exact Hs1].
    + exists t1, 1. split; [exact Ht1 | exact Hs1].
Qed.

Lemma visit_stop c x s s' :
  visit world c x s = (s', Normal true) ->
  isLimitReached world (history s) "Commits" = true.
Proof.
  unfold visit, haveReachedLimits.
  unfold wbind at 1 2, ask at 1. simpl.
  destruct (isLimitReached world (history s) "Commits"); [reflexivity |].
  unfold wret at 1. intros H.
  apply bind_inv in H
    as [(u & s3 & _ & [=]) | [(? & _ & [=]) | (? & _ & [=])]].
Qed.

(** A loop that is not left early has started every repository. *)
Lemma for_of_all c repos s s' u :
  limit_never_reached world ->
  for_of repos (visit world c) s = (s', Normal u) ->
  exists t,
    history s' = (history s ++ t)%list /\ started t = pair c <$> repos.
Proof.
  intros Hlimit. revert s. induction repos as [| x repos IH]; intros s; simpl.
  - intros [= <- <-]. exists []. rewrite app_nil_r. auto.
  - intros H.
    apply bind_inv in H
      as [(stop & s1 & H1 & H) | [(? & _ & [=]) | (? & _ & [=])]].
    destruct (visit_started _ _ _ _ _ H1) as (t1 & Ht1 & Hs1).
    destruct stop.
    + apply visit_stop in H1. rewrite Hlimit in H1. discriminate H1.
    + destruct (IH _ H) as (t2 & Ht2 & Hs2).
      exists (t1 ++ t2)%list.
      rewrite Ht2, Ht1, app_assoc, started_app, Hs1, Hs2.
      split; reflexivity.
Qed.

Lemma processAll_emits c :
  emits (fun c => is_writeFile c || is_finalize c = false)
    (processAll world c).
Proof.
  unfold processAll, visit, haveReachedLimits, instrument, processRepository.
  emits_auto.
Qed.

Lemma Forall_not_In (f : action -> bool) (c : action) (t : list action) :
  Forall (fun c => f c = false) t -> f c = true -> ~ In c t.
Proof.
  intros Ht Hc Hin. rewrite List.Forall_forall in Ht.
  apply Ht in Hin. congruence.
Qed.

(** The loop and the report start the repositories in their order, up to
    some point; all of them, if the report is reached and the limit was
    not. *)
Lemma processAll_started c s s' r :
  processAll world c s = (s', r) ->
  exists t n,
    history s' = (history s ++ t)%list
    /\ started t = pair c <$> take n (default [] (repositories world c))
    /\ (In Call_finalizeReport t -> limit_never_reached world ->
        started t = pair c <$> default [] (repositories world c)).
Proof.
  unfold processAll. destruct (repositories world c) as [repos |].
  - intros H.
    assert (Hloop : emits (fun c => is_report c = false)
                      (for_of repos (visit world c))).
    { unfold visit, haveReachedLimits, instrument, processRepository.
      emits_auto. }
    apply bind_inv in H
      as [(u & s1 & H1 & H) | [(code & H1 & ->) | (err & H1 & ->)]];
      destruct (for_of_started _ _ _ _ _ H1) as (t1 & n & Ht1 & Hs1);
      destruct (Hloop _ _ _ H1) as (t1' & Ht1' & Hq1);
      assert (t1' = t1) as ->
        by (rewrite Ht1 in Ht1'; apply app_inv_head in Ht1'; auto).
    + assert (Hq : emits (fun c => is_repository_call c = false)
                (do* perform Call_finalizeReport in
                 attempt (Call_exportStats c)
                   (fun h => exportStats world h c))) by emits_auto.
      destruct (Hq _ _ _ H) as (t2 & Ht2 & HQ).
      exists (t1 ++ t2)%list, n.
      rewrite Ht2, Ht1, app_assoc, started_app, (started_nil _ HQ),
        app_nil_r.
      split; [reflexivity |]. split; [exact Hs1 |].
      intros _ Hlimit.
      destruct (for_of_all _ _ _ _ _ Hlimit H1) as (t3 & Ht3 & Hs3).
      assert (t3 = t1) as ->
        by (rewrite Ht1 in Ht3; apply app_inv_head in Ht3; auto).
      exact Hs3.
    + exists t1, n. split; [exact Ht1 |]. split; [exact Hs1 |].
      intros Hin. destruct (Forall_not_In is_report Call_finalizeReport _ Hq1 eq_refl Hin).
    + exists t1, n. split; [exact Ht1 |]. split; [exact Hs1 |].
      intros Hin. destruct (Forall_not_In is_report Call_finalizeReport _ Hq1 eq_refl Hin).
  - intros [= <- <-]. exists [], 0. rewrite app_nil_r.
    split; [reflexivity |]. split; [reflexivity |]. intros [].
Qed.

(** How the [try] block can end: at its end or by [return 0], both with
    [config] assigned, or by a throw. *)
Lemma try_block_ends env s s' r :
  try_block world env s = (s', r) ->
  match r with
  | Normal _ => is_Some (config s')
  | Return code => code = 0%Z /\ is_Some (config s')
  | Throw _ => True
  end.
Proof.
  unfold try_block. intros H.
  apply bind_inv in H
    as [(c & s1 & H1 & H) | [(code & H1 & ->) | (err & H1 & ->)]];
    [| destruct (no_return_discover _ _ _ _ H1) | exact I].
  apply discover_Normal in H1.
  apply bind_inv in H
    as [(u & s2 & H2 & H) | [(code & H2 & ->) | (err & H2 & ->)]];
    destruct (writeDiscovered_ends _ _ _ _ H2) as [Hc2 Hr2].
  - destruct (plain_processAll c _ _ _ H) as [Hc Hr].
    destruct r as [u' | code | err]; [| destruct (Hr code eq_refl) | exact I].
    rewrite Hc, Hc2, H1. eauto.
  - destruct Hr2 as [[_ [=]] | (? & ? & ? & _ & _ & [[= <-] | [? [=]]])].
    rewrite Hc2, H1. eauto.
  - exact I.
Qed.

(** The [try] block by what [parseConfigs] answers. *)
Lemma try_block_parse env s s' r :
  try_block world env s = (s', r) ->
  match parseConfigs world (before_parse world env s) with
  | inl err =>
      s' = {| history := (before_parse world env s ++ [Call_parseConfigs])%list;
              config := config s |}
      /\ r = Throw err
  | inr _ => is_Some (config s')
  end.
Proof.
  unfold try_block. intros H.
  apply bind_inv in H
    as [(c & s1 & H1 & H) | [(code & H1 & ->) | (err & H1 & ->)]];
    pose proof (discover_parse _ _ _ _ H1) as Hp;
    destruct (parseConfigs world _) as [err' | c'];
    try exact Hp.
  - destruct Hp as [_ [=]].
  - apply bind_inv in H
      as [(u & s2 & H2 & H) | [(code & H2 & ->) | (err & H2 & ->)]];
      destruct (writeDiscovered_ends _ _ _ _ H2) as [Hc2 _].
    + destruct (plain_processAll c _ _ _ H) as [Hc _]. congruence.
    + congruence.
    + congruence.
  - destruct Hp as [_ [=]].
  - destruct Hp as [-> [= ->]]. split; reflexivity.
Qed.

(** The calls of the [try] block: those up to the discovery, and then
    either the writing of the file, or the loop and the report. *)
Lemma try_block_trace env s s' r :
  try_block world env s = (s', r) ->
  exists t,
    history s' = (history s ++ t)%list
    /\ Forall (fun c => is_finalize c = false) t
    /\ (Forall (fun c => is_writeFile c = false) t
        \/ Forall (fun c => is_repository_call c || is_report c = false) t)
    /\ (Forall (fun c => is_repository_call c || is_report c = false) t
        \/ exists c n,
             config s' = Some c
             /\ started t
                = pair c <$> take n (default [] (repositories world c))
             /\ (In Call_finalizeReport t -> limit_never_reached world ->
                 started t = pair c <$> default [] (repositories world c))).
Proof.
  assert (Hfin : emits (fun c => is_finalize c = false)
                   (try_block world env)).
  { unfold try_block, discover, writeDiscovered, processAll, instrument,
      configure, validatePresets, checkEnv, visit,
      haveReachedLimits, processRepository, instrument.
    emits_auto. }
  intros H. destruct (Hfin _ _ _ H) as (t & Ht & Hft).
  exists t. split; [exact Ht |]. split; [exact Hft |].
  clear Hfin Hft. revert H. unfold try_block. intros H.
  assert (Hearly : forall t1 : list action,
    Forall (fun c => is_work c = false) t1 ->
    Forall (fun c => is_writeFile c = false) t1
    /\ Forall (fun c => is_repository_call c || is_report c = false) t1
    /\ started t1 = []).
  { intros t1 H1. split; [| split].
    - eapply Forall_impl; [exact H1 |]. intros c Hc.
      apply is_work_false in Hc. tauto.
    - eapply Forall_impl; [exact H1 |]. intros c Hc.
      apply is_work_false in Hc as (_ & -> & -> & _). reflexivity.
    - apply started_nil. eapply Forall_impl; [exact H1 |]. intros c Hc.
      apply is_work_false in Hc. tauto. }
  apply bind_inv in H
    as [(c & s1 & H1 & H) | [(code & H1 & ->) | (err & H1 & ->)]];
    destruct (discover_emits env _ _ _ H1) as (t1 & Ht1 & HQ1);
    destruct (Hearly _ HQ1) as (Hw1 & Hr1 & Hs1).
  2, 3: rewrite Ht1 in Ht; apply app_inv_head in Ht; subst t; auto.
  apply discover_Normal in H1.
  apply bind_inv in H
    as [(u & s2 & H2 & H) | [(code & H2 & ->) | (err & H2 & ->)]];
    destruct (writeDiscovered_ends _ _ _ _ H2) as [Hc2 Hr2].
  - destruct Hr2 as [[-> _] | (? & ? & ? & _ & _ & [[=] | [? [=]]])].
    destruct (processAll_emits c _ _ _ H) as (t2 & Ht2 & HQ2).
    destruct (processAll_started _ _ _ _ H) as (t2' & n & Ht2' & Hs2 & Hall).
    assert (t2' = t2) as ->.
    { rewrite Ht2 in Ht2'. apply app_inv_head in Ht2'. auto. }
    destruct (plain_processAll c _ _ _ H) as [Hc _].
    assert (t = (t1 ++ t2)%list) as ->.
    { rewrite Ht2, Ht1, <- app_assoc in Ht. apply app_inv_head in Ht. auto. }
    split.
    + left. apply Forall_app. split; [exact Hw1 |].
      eapply Forall_impl; [exact HQ2 |]. intros c0 Hc0.
      apply orb_false_iff in Hc0. tauto.
    + right. exists c, n. rewrite started_app, Hs1. simpl.
      split; [congruence |]. split; [exact Hs2 |].
      intros Hin. apply Hall. apply in_app_or in Hin as [Hin | Hin]; [| exact Hin].
      destruct (Forall_not_In (fun c => is_repository_call c || is_report c)
                  Call_finalizeReport _ Hr1 eq_refl Hin).
  - destruct Hr2 as [[_ [=]] | (path & content & log & Hh & Hlog & _)].
    destruct (Hearly _ Hlog) as (_ & Hrl & Hsl).
    assert (t = (t1 ++ Call_writeFile path content :: log)%list) as ->.
    { rewrite Hh, Ht1, <- app_assoc in Ht. apply app_inv_head in Ht. auto. }
    assert (Forall (fun c => is_repository_call c || is_report c = false)
              (t1 ++ Call_writeFile path content :: log)).
    { apply Forall_app. split; [exact Hr1 |].
      constructor; [reflexivity | exact Hrl]. }
    auto.
  - destruct Hr2 as [[_ [=]] | (path & content & log & Hh & Hlog & _)].
    destruct (Hearly _ Hlog) as (_ & Hrl & Hsl).
    assert (t = (t1 ++ Call_writeFile path content :: log)%list) as ->.
    { rewrite Hh, Ht1, <- app_assoc in Ht. apply app_inv_head in Ht. auto. }
    assert (Forall (fun c => is_repository_call c || is_report c = false)
              (t1 ++ Call_writeFile path content :: log)).
    { apply Forall_app. split; [exact Hr1 |].
      constructor; [reflexivity | exact Hrl]. }
    auto.
Qed.

Lemma catch_block_ends err (s : state) :
  catch_block err s
  = match config s with
    | None =>
        ({| history :=
              ((history s ++ [fatal_log err])
               ++ [Log "debug" "Missing config"])%list;
            config := None |}, Return 2)
    | Some _ =>
        ({| history := (history s ++ [fatal_log err])%list;
            config := config s |}, Normal tt)
    end.
Proof.
  unfold catch_block, wbind, perform, get_config, return_, wret, record. simpl.
  destruct (config s) eqn:E; simpl; rewrite ?E; reflexivity.
Qed.

(** The guarded lines never end by a throw: they end normally or by
    [return 0] with [config] assigned, or by [return 2] without. *)
Lemma guarded_ends env s s' r :
  guarded world env s = (s', r) ->
  match r with
  | Normal _ => is_Some (config s')
  | Return code =>
      (code = 0%Z /\ is_Some (config s'))
      \/ (code = 2%Z /\ config s' = None)
  | Throw _ => False
  end.
Proof.
  unfold guarded, wtry_catch.
  destruct (try_block world env s) as [s1 r1] eqn:E1.
  pose proof (try_block_ends _ _ _ _ E1) as H1.
  destruct r1 as [u | code | err].
  - intros [= <- <-]. exact H1.
  - intros [= <- <-]. left. exact H1.
  - rewrite catch_block_ends.
    destruct (config s1) eqn:E; intros [= <- <-]; simpl; eauto.
Qed.

(** The guarded lines by what [parseConfigs] answers. *)
Lemma guarded_parse env s s' r :
  config s = None ->
  guarded world env s = (s', r) ->
  match parseConfigs world (before_parse world env s) with
  | inl err =>
      s' = {| history :=
                (((before_parse world env s ++ [Call_parseConfigs])
                  ++ [fatal_log err])
                 ++ [Log "debug" "Missing config"])%list;
              config := None |}
      /\ r = Return 2
  | inr _ => is_Some (config s')
  end.
Proof.
  intros Hnone. unfold guarded, wtry_catch.
  destruct (try_block world env s) as [s1 r1] eqn:E1.
  pose proof (try_block_parse _ _ _ _ E1) as H1.
  destruct (parseConfigs world _) as [err | c].
  - destruct H1 as [-> ->]. rewrite catch_block_ends. simpl.
    rewrite Hnone. intros [= <- <-]. auto.
  - destruct r1 as [u | code | err]; try (intros [= <- <-]; exact H1).
    rewrite catch_block_ends. destruct H1 as [c1 H1]. rewrite H1.
    intros [= <- <-]. simpl. eauto.
Qed.

(** The calls of the guarded lines. *)
Lemma guarded_trace env s s' r :
  guarded world env s = (s', r) ->
  exists t,
    history s' = (history s ++ t)%list
    /\ Forall (fun c => is_finalize c || is_getProblems c = false) t
    /\ (Forall (fun c => is_writeFile c = false) t
        \/ Forall (fun c => is_repository_call c || is_report c = false) t)
    /\ (Forall (fun c => is_repository_call c || is_report c = false) t
        \/ exists c n,
             config s' = Some c
             /\ started t
                = pair c <$> take n (default [] (repositories world c))
             /\ (In Call_finalizeReport t -> limit_never_reached world ->
                 started t = pair c <$> default [] (repositories world c))).
Proof.
  assert (Hfin : emits (fun c => is_finalize c || is_getProblems c = false)
                   (guarded world env)).
  { unfold guarded, catch_block, try_block, discover,
      writeDiscovered, processAll, instrument,
      configure, validatePresets, checkEnv, visit,
      haveReachedLimits, processRepository, instrument.
    emits_auto. }
  intros H. destruct (Hfin _ _ _ H) as (t' & Ht' & Hft).
  exists t'. split; [exact Ht' |]. split; [exact Hft |].
  clear Hfin Hft. revert H.
  unfold guarded, wtry_catch.
  destruct (try_block world env s) as [s1 r1] eqn:E1.
  destruct (try_block_trace _ _ _ _ E1) as (t & Ht & _ & Hw & Hs).
  destruct r1 as [u | code | err];
    try (intros [= <- <-]; rewrite Ht in Ht'; apply app_inv_head in Ht';
         subst t'; auto).
  rewrite catch_block_ends.
  assert (Hlog : forall l, is_work (fatal_log l : action) = false).
  { intros l. unfold fatal_log. destruct (String.prefix _ _); reflexivity. }
  pose proof (is_work_false _ (Hlog err)) as (Hl1 & Hl2 & Hl3 & Hl4).
  assert (Hnot : ~ In (Call_finalizeReport : action) [fatal_log err]).
  { apply (Forall_not_In is_report); [| reflexivity].
    repeat constructor. exact Hl3. }
  destruct (config s1) eqn:E; intros [= <- <-]; simpl in *.
  - assert (t' = (t ++ [fatal_log err])%list) as ->.
    { rewrite Ht, <- app_assoc in Ht'. apply app_inv_head in Ht'. auto. }
    split.
    + destruct Hw as [Hw | Hw]; [left | right]; apply Forall_app;
        (split; [exact Hw | repeat constructor]); [exact Hl1 |].
      rewrite Hl2, Hl3. reflexivity.
    + destruct Hs as [Hs | (c0 & n & Hc & Hs & Hall)]; [left | right].
      * apply Forall_app. split; [exact Hs | repeat constructor].
        rewrite Hl2, Hl3. reflexivity.
      * exists c0, n. split; [exact Hc |].
        rewrite started_app.
        rewrite (started_nil [fatal_log err]), app_nil_r
          by (repeat constructor; exact Hl2).
        split; [exact Hs |].
        intros Hin. apply Hall.
        apply in_app_or in Hin as [Hin | Hin]; [exact Hin | tauto].
  - assert (t' = (t ++ [fatal_log err; Log "debug" "Missing config"])%list)
      as ->.
    { rewrite Ht, <- !app_assoc in Ht'. apply app_inv_head in Ht'. auto. }
    split.
    + destruct Hw as [Hw | Hw]; [left | right]; apply Forall_app;
        (split; [exact Hw | repeat constructor]); [exact Hl1 |].
      rewrite Hl2, Hl3. reflexivity.
    + destruct Hs as [Hs | (c0 & n & Hc & _)]; [left | congruence].
      apply Forall_app. split; [exact Hs | repeat constructor].
      rewrite Hl2, Hl3. reflexivity.
Qed.

(** The [finally] block calls [globalFinalize] once, with [config] as it
    is, and ends as that call ends. *)
Lemma finally_block_ends s s' r :
  finally_block world s = (s', r) ->
  config s' = config s
  /\ exists rest,
       history s' = (history s ++ Call_globalFinalize (config s) :: rest)%list
       /\ Forall (fun c => is_work c = false) rest
       /\ match r with
          | Normal _ =>
              exists u,
                globalFinalize world (history s) (config s) = inr u
          | Return _ => False
          | Throw err =>
              globalFinalize world (history s) (config s) = inl err
              /\ rest = []
          end.
Proof.
  unfold finally_block, wbind, get_config, attempt, ask, when, perform. simpl.
  destruct (globalFinalize world (history s) (config s)) as [err | u].
  - intros [= <- <-]. split; [reflexivity |]. exists []. auto.
  - destruct (String.eqb _ "info").
    + intros [= <- <-]. split; [reflexivity |]. eexists. simpl.
      rewrite <- !app_assoc. simpl.
      split; [reflexivity |]. split; [repeat constructor | eauto].
    + intros [= <- <-]. split; [reflexivity |]. eexists. simpl.
      rewrite <- !app_assoc. simpl.
      split; [reflexivity |]. split; [repeat constructor | eauto].
Qed.

Lemma filter_nil_existsb {A} (f : A -> bool) (l : list A) :
  List.filter f l = [] <-> existsb f l = false.
Proof.
  induction l as [| p l IH]; simpl; [tauto |].
  destruct (f p); simpl; [| exact IH]. split; discriminate.
Qed.

(** The lines after the [try] statement return 1 when a problem of level
    [ERROR] or above was logged, and 0 otherwise. *)
Lemma epilogue_ends s s' r :
  epilogue world s = (s', r) ->
  config s' = config s
  /\ (exists rest,
        history s' = (history s ++ Call_getProblems :: rest)%list
        /\ Forall (fun c => is_work c || is_getProblems c = false) rest)
  /\ r = Return
           (if existsb (fun p => (ERROR world <=? level p)%Z)
                 (getProblems world (history s))
            then 1 else 0)%Z.
Proof.
  unfold epilogue, wbind, ask, perform, return_. simpl.
  destruct (List.filter _ (getProblems world (history s))) as [| p l] eqn:E.
  - apply filter_nil_existsb in E. rewrite E.
    intros [= <- <-]. split; [reflexivity |].
    split; [exists []; auto | reflexivity].
  - destruct (existsb _ (getProblems world (history s))) eqn:E'.
    + intros [= <- <-]. split; [reflexivity |]. simpl.
      split; [| reflexivity]. eexists. rewrite <- app_assoc. simpl.
      split; [reflexivity | repeat constructor].
    + apply filter_nil_existsb in E'. congruence.
Qed.

Lemma finally_block_emits :
  emits (fun c => is_getProblems c = false) (finally_block world).
Proof. unfold finally_block. emits_auto. Qed.

(** A run of [start] is the guarded lines, the [finally] block and,
    unless something returned or threw, the lines after. *)
Lemma run_start_inv s r :
  run_start world = (s, r) ->
  exists s2 r2 s3 r3,
    guarded world (environment world)
      {| history := [regex_log world; Call_getEnv]; config := None |}
    = (s2, r2)
    /\ finally_block world s2 = (s3, r3)
    /\ match r3 with
       | Normal _ =>
           match r2 with
           | Normal _ => epilogue world s3 = (s, r)
           | Return code => s = s3 /\ r = Return code
           | Throw err => s = s3 /\ r = Throw err
           end
       | Return code => s = s3 /\ r = Return code
       | Throw err => s = s3 /\ r = Throw err
       end.
Proof.
  unfold run_start, start.
  unfold wbind at 1, perform at 1. simpl.
  unfold wbind at 1, ask at 1. simpl.
  unfold wbind at 1, try_finally. fold (environment world).
  destruct (guarded world (environment world) _) as [s2 r2].
  destruct (finally_block world s2) as [s3 r3] eqn:E3.
  intros H. exists s2, r2, s3, r3.
  split; [reflexivity |]. split; [exact E3 |].
  destruct r3 as [u3 | code3 | err3], r2 as [u2 | code2 | err2];
    try (injection H as <- <-; auto); exact H.
Qed.

Lemma is_work_regex_log : is_work (regex_log world) = false.
Proof. unfold regex_log. destruct (regexEngineStatus world); reflexivity. Qed.

Lemma before_parse_preamble :
  before_parse world (environment world)
    {| history := [regex_log world; Call_getEnv]; config := None |}
  = preamble world.
Proof.
  unfold before_parse, preamble. simpl. rewrite <- !app_assoc. reflexivity.
Qed.

(** The calls of a run: the first two, those of the guarded lines, the
    call of [globalFinalize], and what follows it. *)
Lemma run_start_history s r :
  run_start world = (s, r) ->
  exists t rest,
    history s
    = (regex_log world :: Call_getEnv :: t
       ++ Call_globalFinalize (config s) :: rest)%list
    /\ Forall (fun c => is_finalize c || is_getProblems c = false) t
    /\ Forall (fun c => is_work c = false) rest
    /\ (Forall (fun c => is_writeFile c = false) t
        \/ Forall (fun c => is_repository_call c || is_report c = false) t)
    /\ (Forall (fun c => is_repository_call c || is_report c = false) t
        \/ exists c n,
             config s = Some c
             /\ started t
                = pair c <$> take n (default [] (repositories world c))
             /\ (In Call_finalizeReport t -> limit_never_reached world ->
                 started t = pair c <$> default [] (repositories world c))).
Proof.
  intros H.
  destruct (run_start_inv _ _ H) as (s2 & r2 & s3 & r3 & Hg & Hf & Hr).
  destruct (guarded_trace _ _ _ _ Hg) as (t & Ht & Hfin & Hw & Hs).
  destruct (finally_block_ends _ _ _ Hf) as (Hc3 & rest1 & Hh3 & Hrest1 & _).
  simpl in Ht.
  assert (Hdone : s = s3 ->
    exists rest,
      history s
      = (regex_log world :: Call_getEnv :: t
         ++ Call_globalFinalize (config s) :: rest)%list
      /\ Forall (fun c => is_work c = false) rest
      /\ config s = config s2).
  { intros ->. exists rest1. rewrite Hh3, Ht, Hc3. auto. }
  assert (Hmore : epilogue world s3 = (s, r) ->
    exists rest,
      history s
      = (regex_log world :: Call_getEnv :: t
         ++ Call_globalFinalize (config s) :: rest)%list
      /\ Forall (fun c => is_work c = false) rest
      /\ config s = config s2).
  { intros He.
    destruct (epilogue_ends _ _ _ He) as (Hc & (rest2 & Hh & Hrest2) & _).
    exists (rest1 ++ Call_getProblems :: rest2)%list.
    rewrite Hh, Hh3, Ht, Hc, Hc3. simpl. rewrite <- !app_assoc. simpl.
    split; [reflexivity |]. split; [| reflexivity].
    apply Forall_app. split; [exact Hrest1 |].
    constructor; [reflexivity |].
    eapply Forall_impl; [exact Hrest2 |]. intros c Hc'.
    apply orb_false_iff in Hc'. tauto. }
  assert (Hall : exists rest,
      history s
      = (regex_log world :: Call_getEnv :: t
         ++ Call_globalFinalize (config s) :: rest)%list
      /\ Forall (fun c => is_work c = false) rest
      /\ config s = config s2).
  { destruct r3 as [u3 | code3 | err3]; [| apply Hdone; tauto ..].
    destruct r2 as [u2 | code2 | err2];
      [apply Hmore; exact Hr | apply Hdone; tauto ..]. }
  destruct Hall as (rest & Hh & Hrest & Hc).
  exists t, rest. rewrite Hc in *. auto 6.
Qed.

Lemma filter_false {A} (f : A -> bool) (l : list A) :
  Forall (fun x => f x = false) l -> List.filter f l = [].
Proof.
  induction 1 as [| x l Hx _ IH]; simpl; [reflexivity |].
  rewrite Hx. exact IH.
Qed.

(** Where a list is split at an element that does not occur otherwise. *)
Lemma split_unique {A} (f : A -> bool) (x : A) (l1 l2 h rest : list A) :
  Forall (fun y => f y = false) l1 ->
  Forall (fun y => f y = false) l2 ->
  f x = true ->
  (l1 ++ x :: l2 = h ++ x :: rest)%list ->
  h = l1.
Proof.
  intros H1 H2 Hx. revert h.
  induction H1 as [| a l1 Ha _ IH]; intros [| c h]; simpl; intros H.
  - reflexivity.
  - injection H as _ H. rewrite H in H2.
    apply Forall_app in H2 as [_ H2]. inversion H2. congruence.
  - injection H as -> _. congruence.
  - injection H as -> H. f_equal. apply IH, H.
Qed.

(** Either the run never asks for the problems, or it ends in the lines
    after the [try] statement, which ask once. *)
Lemma run_start_problems s r :
  run_start world = (s, r) ->
  Forall (fun c => is_getProblems c = false) (history s)
  \/ exists s3,
       epilogue world s3 = (s, r)
       /\ Forall (fun c => is_getProblems c = false) (history s3).
Proof.
  intros H.
  destruct (run_start_inv _ _ H) as (s2 & r2 & s3 & r3 & Hg & Hf & Hr).
  destruct (guarded_trace _ _ _ _ Hg) as (t & Ht & Hfin & _).
  destruct (finally_block_emits _ _ _ Hf) as (t3 & Ht3 & Hq3).
  simpl in Ht.
  assert (H3 : Forall (fun c => is_getProblems c = false) (history s3)).
  { rewrite Ht3, Ht. apply Forall_app. split; [| exact Hq3].
    constructor.
    { unfold regex_log. destruct (regexEngineStatus world); reflexivity. }
    constructor; [reflexivity |].
    eapply Forall_impl; [exact Hfin |]. intros c Hc.
    apply orb_false_iff in Hc. tauto. }
  destruct r3 as [u3 | code3 | err3];
    [| left; destruct Hr as [-> _]; exact H3 ..].
  destruct r2 as [u2 | code2 | err2];
    [| left; destruct Hr as [-> _]; exact H3 ..].
  right. eauto.
Qed.

End StartFacts.

End WorkerFacts.

Module WorkerProperties.
Import Worker WorkerFacts.

Section StartProperties.

Context {Config Repository RepoConfig HostRule : Type}.

Variable world : @Surroundings Config Repository RepoConfig HostRule.

(** X18.  [start] never falls off its end: it returns 0, 1 or 2, or it
    throws what [globalFinalize] threw, and then the call of
    [globalFinalize] is its last.  Whatever else throws is caught, the
    thrown values being [Error]s and the loggers and setters returning. *)
Theorem start_exit_codes :
  match snd (run_start world) with
  | Normal _ => False
  | Return code => code = 0%Z \/ code = 1%Z \/ code = 2%Z
  | Throw err =>
      exists h,
        history (fst (run_start world))
        = (h ++ [Call_globalFinalize (config (fst (run_start world)))])%list
        /\ globalFinalize world h (config (fst (run_start world))) = inl err
  end.
Proof.
  destruct (run_start world) as [s r] eqn:E. cbn [fst snd].
  destruct (run_start_inv _ _ _ E) as (s2 & r2 & s3 & r3 & Hg & Hf & Hr).
  pose proof (guarded_ends _ _ _ _ _ Hg) as H2.
  destruct (finally_block_ends _ _ _ _ Hf) as (Hc3 & rest & Hh3 & _ & H3).
  destruct r3 as [u3 | code3 | err3]; [| destruct H3 |].
  - destruct r2 as [u2 | code2 | err2]; [| | destruct H2].
    + destruct (epilogue_ends _ _ _ _ Hr) as (_ & _ & ->).
      destruct (existsb _ _); auto.
    + destruct Hr as [-> ->]. destruct H2 as [[-> _] | [-> _]]; auto.
  - destruct Hr as [-> ->]. destruct H3 as [H3 ->].
    exists (history s2). rewrite Hc3. auto.
Qed.

(** X19.  Every run of [start] calls [globalFinalize] exactly once, with
    [config] as it is at the end of the run. *)
Theorem start_finalizes_once :
  List.filter is_finalize (history (fst (run_start world)))
  = [Call_globalFinalize (config (fst (run_start world)))].
Proof.
  destruct (run_start world) as [s r] eqn:E. cbn [fst snd].
  destruct (run_start_history _ _ _ E) as (t & rest & -> & Ht & Hrest & _).
  change (regex_log world :: Call_getEnv :: t ++ ?l)%list
    with (([regex_log world; Call_getEnv] ++ t) ++ l)%list.
  rewrite List.filter_app, (filter_false is_finalize).
  - simpl. rewrite (filter_false is_finalize); [reflexivity |].
    eapply Forall_impl; [exact Hrest |]. intros c Hc.
    apply is_work_false in Hc. tauto.
  - apply Forall_app. split.
    + pose proof (is_work_false _ (is_work_regex_log world)) as (_ & _ & _ & Hl).
      repeat constructor. exact Hl.
    + eapply Forall_impl; [exact Ht |]. intros c Hc.
      apply orb_false_iff in Hc. tauto.
Qed.

(** X20.  [start] returns 2 exactly when [parseConfigs] throws and
    [globalFinalize], called without a configuration after the two log
    lines of the [catch] block, returns. *)
Theorem start_missing_config :
  snd (run_start world) = Return 2
  <-> exists err,
        parseConfigs world (preamble world) = inl err
        /\ exists u,
             globalFinalize world
               (preamble world
                ++ [Call_parseConfigs; fatal_log err;
                    Log "debug" "Missing config"])%list
               None
             = inr u.
Proof.
  destruct (run_start world) as [s r] eqn:E. cbn [fst snd].
  destruct (run_start_inv _ _ _ E) as (s2 & r2 & s3 & r3 & Hg & Hf & Hr).
  pose proof (guarded_ends _ _ _ _ _ Hg) as H2.
  pose proof Hg as Hp. apply guarded_parse in Hp; [| reflexivity].
  rewrite before_parse_preamble in Hp.
  destruct (finally_block_ends _ _ _ _ Hf) as (Hc3 & rest & Hh3 & _ & H3).
  destruct (parseConfigs world (preamble world)) as [err | c].
  - destruct Hp as [-> ->]. cbn [history config] in H3.
    assert (Hl : (((preamble world ++ [Call_parseConfigs])
                   ++ [fatal_log err]) ++ [Log "debug" "Missing config"])%list
                 = (preamble world
                    ++ [Call_parseConfigs; fatal_log err;
                        Log "debug" "Missing config"])%list)
      by (rewrite <- !app_assoc; reflexivity).
    rewrite Hl in H3. clear Hl.
    destruct r3 as [u3 | code3 | err3]; [| destruct H3 |].
    + destruct Hr as [_ ->]. split; [| reflexivity].
      intros _. exists err. auto.
    + destruct Hr as [_ ->]. destruct H3 as [H3 _].
      split; [discriminate |].
      intros (err' & Herr & u & Hu). injection Herr as <-.
      rewrite H3 in Hu. discriminate Hu.
  - split; [| intros (err & [=] & _)].
    intros ->. exfalso.
    destruct r3 as [u3 | code3 | err3]; [| destruct H3 |].
    + destruct r2 as [u2 | code2 | err2]; [| | destruct H2].
      * destruct (epilogue_ends _ _ _ _ Hr) as (_ & _ & Hcode).
        destruct (existsb _ _); discriminate Hcode.
      * destruct Hr as [_ [= <-]].
        destruct H2 as [[[=] _] | [_ H2]].
        rewrite H2 in Hp. destruct Hp as [? [=]].
    + destruct Hr as [_ [=]].
Qed.

(** X21.  A run that writes the discovered repositories to a file
    processes no repository and makes no report. *)
Theorem start_discovery_only path content :
  In (Call_writeFile path content) (history (fst (run_start world))) ->
  Forall (fun c => is_repository_call c || is_report c = false)
    (history (fst (run_start world))).
Proof.
  destruct (run_start world) as [s r] eqn:E. cbn [fst snd].
  destruct (run_start_history _ _ _ E)
    as (t & rest & -> & Ht & Hrest & Hw & _).
  intros Hin.
  pose proof (is_work_false _ (is_work_regex_log world))
    as (Hl1 & Hl2 & Hl3 & Hl4).
  assert (Hquiet : Forall (fun c => is_work c = false)
                     (Call_globalFinalize (config s) :: rest) -> False).
  { clear. intros H. inversion H. discriminate. }
  assert (Hrest' : Forall (fun c => is_repository_call c || is_report c = false)
                     rest).
  { eapply Forall_impl; [exact Hrest |]. intros c Hc.
    apply is_work_false in Hc as (_ & -> & -> & _). reflexivity. }
  constructor; [rewrite Hl2, Hl3; reflexivity |].
  constructor; [reflexivity |].
  apply Forall_app. split; [| constructor; [reflexivity | exact Hrest']].
  destruct Hw as [Hw | Hw]; [exfalso | exact Hw].
  destruct Hin as [Hin | [Hin | Hin]].
  - rewrite Hin in Hl1. discriminate Hl1.
  - discriminate Hin.
  - apply in_app_or in Hin as [Hin | [Hin | Hin]].
    + exact (Forall_not_In is_writeFile (Call_writeFile path content) _ Hw eq_refl Hin).
    + discriminate Hin.
    + refine (Forall_not_In is_writeFile (Call_writeFile path content) _ _ eq_refl Hin).
      eapply Forall_impl; [exact Hrest |]. intros c Hc.
      apply is_work_false in Hc. tauto.
Qed.

(** The repositories a run started are those its guarded lines
    started. *)
Lemma started_run (t rest : list action) (c : option Config) :
  Forall (fun c => is_work c = false) rest ->
  started (regex_log world :: Call_getEnv :: t
           ++ Call_globalFinalize c :: rest)%list
  = started t.
Proof.
  intros Hrest.
  change (regex_log world :: Call_getEnv :: t ++ ?l)%list
    with ([regex_log world; Call_getEnv] ++ t ++ l)%list.
  rewrite !started_app.
  rewrite (started_nil [_; _]), (started_nil (_ :: rest)), app_nil_r;
    [reflexivity | |].
  - constructor; [reflexivity |].
    eapply Forall_impl; [exact Hrest |]. intros c0 Hc.
    apply is_work_false in Hc. tauto.
  - pose proof (is_work_false _ (is_work_regex_log world)) as (_ & Hl & _).
    repeat constructor. exact Hl.
Qed.

(** X22.  The repositories that were started are the first ones of
    [config.repositories], in that order: none is started after one was
    left out.  All are started with the configuration that
    [globalFinalize] gets at the end. *)
Theorem start_repositories_in_order :
  started (history (fst (run_start world))) = []
  \/ exists c n,
       In (Call_globalFinalize (Some c)) (history (fst (run_start world)))
       /\ started (history (fst (run_start world)))
          = pair c <$> take n (default [] (repositories world c)).
Proof.
  destruct (run_start world) as [s r] eqn:E. cbn [fst snd].
  destruct (run_start_history _ _ _ E)
    as (t & rest & -> & Ht & Hrest & _ & Hs).
  rewrite (started_run _ _ _ Hrest).
  destruct Hs as [Hs | (c & n & Hc & Hs & _)]; [left | right].
  - apply started_nil. eapply Forall_impl; [exact Hs |]. intros c Hc.
    apply orb_false_iff in Hc. tauto.
  - exists c, n. split; [| exact Hs].
    right. right. apply in_or_app. right. left. rewrite Hc. reflexivity.
Qed.

(** X23.  When a run gets to ask for the logged problems, it returns 1 if
    one of them has level [ERROR] or above, and 0 if none has. *)
Theorem start_problems h rest :
  history (fst (run_start world)) = (h ++ Call_getProblems :: rest)%list ->
  snd (run_start world)
  = Return (if existsb (fun p => (ERROR world <=? level p)%Z)
                 (getProblems world h)
            then 1 else 0)%Z.
Proof.
  destruct (run_start world) as [s r] eqn:E. cbn [fst snd]. intros Hh.
  destruct (run_start_problems _ _ _ E) as [Hno | (s3 & He & H3)].
  - exfalso. refine (Forall_not_In is_getProblems Call_getProblems _ Hno eq_refl _).
    rewrite Hh. apply in_or_app. right. left. reflexivity.
  - destruct (epilogue_ends _ _ _ _ He) as (_ & (rest2 & Hh2 & Hrest2) & ->).
    rewrite Hh2 in Hh.
    apply (split_unique is_getProblems) in Hh; [| exact H3 | | reflexivity].
    + rewrite Hh. reflexivity.
    + eapply Forall_impl; [exact Hrest2 |]. intros c Hc.
      apply orb_false_iff in Hc. tauto.
Qed.

(** X24.  The report is made after the loop: in a run that gets to
    [finalizeReport] while the commit limit is never reached, every
    repository of [config.repositories] was started. *)
Theorem start_all_repositories :
  limit_never_reached world ->
  In Call_finalizeReport (history (fst (run_start world))) ->
  exists c,
    In (Call_globalFinalize (Some c)) (history (fst (run_start world)))
    /\ started (history (fst (run_start world)))
       = pair c <$> default [] (repositories world c).
Proof.
  destruct (run_start world) as [s r] eqn:E. cbn [fst snd].
  destruct (run_start_history _ _ _ E)
    as (t & rest & -> & Ht & Hrest & _ & Hs).
  intros Hlimit Hin.
  rewrite (started_run _ _ _ Hrest).
  pose proof (is_work_false _ (is_work_regex_log world))
    as (_ & _ & Hl3 & _).
  assert (Hint : In Call_finalizeReport t).
  { destruct Hin as [Hin | [Hin | Hin]].
    - rewrite Hin in Hl3. discriminate Hl3.
    - discriminate Hin.
    - apply in_app_or in Hin as [Hin | [Hin | Hin]].
      + exact Hin.
      + discriminate Hin.
      + exfalso. refine (Forall_not_In is_report Call_finalizeReport _ _ eq_refl Hin).
        eapply Forall_impl; [exact Hrest |]. intros c Hc.
        apply is_work_false in Hc. tauto. }
  destruct Hs as [Hs | (c & n & Hc & _ & Hall)].
  - destruct (Forall_not_In (fun c => is_repository_call c || is_report c)
                Call_finalizeReport _ Hs eq_refl Hint).
  - exists c. split; [| exact (Hall Hint Hlimit)].
    right. right. apply in_or_app. right. left. rewrite Hc. reflexivity.
Qed.

End StartProperties.

End WorkerProperties.

Module MavenParentsFacts.
Import MavenParents.

Lemma set_add_elem (x y : string) (set : list string) :
  y ∈ set_add x set <-> y = x \/ y ∈ set.
Proof.
  unfold set_add. case_bool_decide as Hx.
  - split; [auto |]. intros [-> | H]; assumption.
  - rewrite elem_of_app, list_elem_of_singleton. tauto.
Qed.

Lemma set_add_NoDup (x : string) (set : list string) :
  NoDup set -> NoDup (set_add x set).
Proof.
  intros Hset. unfold set_add. case_bool_decide as Hx; [exact Hset |].
  apply NoDup_app. split; [exact Hset |]. split.
  - intros y Hy Hin. apply list_elem_of_singleton in Hin. congruence.
  - apply NoDup_singleton.
Qed.

Lemma set_add_prefix (x : string) (set : list string) :
  set `prefix_of` set_add x set.
Proof.
  unfold set_add. case_bool_decide; [reflexivity |].
  apply prefix_app_r. reflexivity.
Qed.

Lemma set_add_all_elem (y : string) (xs set : list string) :
  y ∈ set_add_all set xs <-> y ∈ set \/ y ∈ xs.
Proof.
  revert set. induction xs as [| x xs IH]; intros set; simpl.
  - rewrite elem_of_nil. tauto.
  - unfold set_add_all in *. simpl. rewrite IH, set_add_elem, elem_of_cons.
    tauto.
Qed.

Lemma set_add_all_NoDup (xs set : list string) :
  NoDup set -> NoDup (set_add_all set xs).
Proof.
  revert set. induction xs as [| x xs IH]; intros set Hset; [exact Hset |].
  apply IH, set_add_NoDup, Hset.
Qed.

Lemma set_add_all_prefix (xs set : list string) :
  set `prefix_of` set_add_all set xs.
Proof.
  revert set. induction xs as [| x xs IH]; intros set; [reflexivity |].
  etransitivity; [apply (set_add_prefix x) | apply IH].
Qed.

Lemma set_add_all_app (xs ys set : list string) :
  set_add_all set (xs ++ ys) = set_add_all (set_add_all set xs) ys.
Proof. apply foldl_app. Qed.

Lemma assign_snoc target sources source :
  assign target (sources ++ [source])
  = match source with
    | Some props => props ∪ assign target sources
    | None => assign target sources
    end.
Proof. unfold assign. rewrite foldl_app. reflexivity. Qed.

Lemma assign_snoc2 target sources source source' :
  assign target (sources ++ [source; source'])
  = assign target ((sources ++ [source]) ++ [source']).
Proof. rewrite <- app_assoc. reflexivity. Qed.

(** A property of the result of [Object.assign] comes from the target or
    from a source. *)
Lemma assign_origin target sources key v :
  assign target sources !! key = Some v ->
  target !! key = Some v
  \/ exists props, Some props ∈ sources /\ props !! key = Some v.
Proof.
  revert target. induction sources as [| source sources IH]; intros target;
    simpl; [auto |].
  intros H. apply IH in H as [H | (props & Hin & H)].
  - destruct source as [props |]; [| auto].
    apply lookup_union_Some_raw in H as [H | [_ H]]; [| auto].
    right. exists props. split; [left | exact H].
  - right. exists props. split; [right; exact Hin | exact H].
Qed.

Section ResolveParentsFacts.

Context {Dependency : Type}.
Variable dep_registryUrls : Dependency -> option (list string).
Variable packages : list (MavenInterimPackageFile Dependency).

Abbreviation MavenInterimPackageFile := (MavenInterimPackageFile Dependency).
Abbreviation extracted := (extractedPackages packages).
Abbreviation climb := (climb dep_registryUrls packages).

(** A package file of [extractedPackages] is one of [packages], under its
    own name. *)
Lemma extractedPackages_lookup name (pkg : MavenInterimPackageFile) :
  extracted !! name = Some pkg ->
  pkg ∈ packages /\ pf_packageFile pkg = name.
Proof.
  unfold extractedPackages.
  assert (H : forall (l : list MavenInterimPackageFile)
                (m : gmap string MavenInterimPackageFile),
    foldl (fun extracted pkg => <[pf_packageFile pkg := pkg]> extracted) m l
      !! name = Some pkg ->
    (pkg ∈ l /\ pf_packageFile pkg = name) \/ m !! name = Some pkg).
  { induction l as [| p l IH]; intros m; simpl; [auto |].
    intros H. apply IH in H as [[H1 H2] | H].
    - left. split; [right; exact H1 | exact H2].
    - destruct (decide (pf_packageFile p = name)) as [<- | Hne].
      + rewrite lookup_insert_eq in H. injection H as ->.
        left. split; [left | reflexivity].
      + rewrite lookup_insert_ne in H by exact Hne. auto. }
  intros Hl. apply H in Hl as [Hl | Hl]; [exact Hl |].
  rewrite lookup_empty in Hl. discriminate Hl.
Qed.

(** Every package file is in [extractedPackages] under its name, or a
    later one of the same name is. *)
Lemma extractedPackages_dom (pkg : MavenInterimPackageFile) :
  pkg ∈ packages -> is_Some (extracted !! pf_packageFile pkg).
Proof.
  unfold extractedPackages.
  assert (H : forall (l : list MavenInterimPackageFile)
                (m : gmap string MavenInterimPackageFile) name,
    (is_Some (m !! name) \/ exists p, p ∈ l /\ pf_packageFile p = name) ->
    is_Some (foldl (fun extracted pkg => <[pf_packageFile pkg := pkg]> extracted)
               m l !! name)).
  { induction l as [| p l IH]; intros m name; simpl.
    - intros [H | (p & Hin & _)]; [exact H |].
      apply elem_of_nil in Hin. destruct Hin.
    - intros [H | (q & Hin & Hq)]; apply IH.
      + left. destruct (decide (pf_packageFile p = name)) as [<- | Hne].
        * rewrite lookup_insert_eq. eauto.
        * rewrite lookup_insert_ne by exact Hne. exact H.
      + apply elem_of_cons in Hin as [-> | Hin].
        * left. rewrite Hq, lookup_insert_eq. eauto.
        * right. eauto. }
  intros Hin. apply H. right. eauto.
Qed.

Lemma climb_None rounds sc : climb rounds None sc = Some sc.
Proof. destruct rounds; reflexivity. Qed.

Lemma climb_step rounds (pkg : MavenInterimPackageFile) sc :
  climb (S rounds) (Some pkg) sc
  = let hierarchy := mavenProps pkg :: propsHierarchy sc in
    let urls := add_registryUrls dep_registryUrls pkg
                  (sc_registryUrls sc) in
    match parent pkg with
    | Some p =>
        if truthy (VStr p) && negb (bool_decide (p ∈ visitedPackages sc))
        then
          climb rounds (extracted !! p)
            {| propsHierarchy := hierarchy;
               sc_registryUrls := urls;
               visitedPackages := {[p]} ∪ visitedPackages sc |}
        else
          Some {| propsHierarchy := hierarchy;
                  sc_registryUrls := urls;
                  visitedPackages := visitedPackages sc |}
    | None =>
        Some {| propsHierarchy := hierarchy;
                sc_registryUrls := urls;
                visitedPackages := visitedPackages sc |}
    end.
Proof. reflexivity. Qed.

(** The loop ends once it has a round for every package file it has not
    visited. *)
Lemma climb_terminates rounds pkg sc :
  size (dom extracted ∖ visitedPackages sc) < rounds ->
  is_Some (climb rounds pkg sc).
Proof.
  revert pkg sc. induction rounds as [| rounds IH]; intros pkg sc Hsize.
  - lia.
  - destruct pkg as [pkg |]; [| simpl; eauto].
    rewrite climb_step. cbv zeta.
    destruct (parent pkg) as [p |]; [| eauto].
    destruct (truthy (VStr p)
              && negb (bool_decide (p ∈ visitedPackages sc))) eqn:Hgo;
      [| eauto].
    apply andb_true_iff in Hgo as [_ Hnew].
    apply negb_true_iff, bool_decide_eq_false in Hnew.
    destruct (extracted !! p) as [ppkg |] eqn:Hp;
      [| rewrite climb_None; eauto].
    apply IH. simpl.
    assert (Hsub : dom extracted ∖ ({[p]} ∪ visitedPackages sc)
                   ⊂ dom extracted ∖ visitedPackages sc).
    { apply elem_of_dom_2 in Hp. split.
      - intros x. rewrite !elem_of_difference, elem_of_union. tauto.
      - intros Hsub.
        assert (Hin : p ∈ dom extracted ∖ visitedPackages sc)
          by (apply elem_of_difference; auto).
        apply Hsub, elem_of_difference in Hin as [_ Hin].
        apply Hin, elem_of_union. left.
        apply elem_of_singleton. reflexivity. }
    apply subset_size in Hsub. lia.
Qed.

(** More rounds than the loop needs change nothing. *)
Lemma climb_more rounds rounds' pkg sc sc' :
  climb rounds pkg sc = Some sc' ->
  rounds <= rounds' ->
  climb rounds' pkg sc = Some sc'.
Proof.
  revert rounds' pkg sc. induction rounds as [| rounds IH];
    intros rounds' pkg sc H Hle.
  - destruct pkg; [discriminate H |].
    rewrite climb_None. simpl in H. exact H.
  - destruct pkg as [pkg |]; [| rewrite climb_None; exact H].
    destruct rounds' as [| rounds']; [lia |].
    rewrite climb_step in *. cbv zeta in *.
    destruct (parent pkg) as [p |]; [| exact H].
    destruct (truthy (VStr p)
              && negb (bool_decide (p ∈ visitedPackages sc))); [| exact H].
    apply IH; [exact H | lia].
Qed.

(** The loop puts the properties of the package files it visits in front
    of the hierarchy, those of the package file it starts at last. *)
Lemma climb_hierarchy rounds pkg sc sc' :
  climb rounds pkg sc = Some sc' ->
  (forall p, pkg = Some p -> p ∈ packages) ->
  exists visited : list MavenInterimPackageFile,
    propsHierarchy sc'
    = (reverse (mavenProps <$> visited) ++ propsHierarchy sc)%list
    /\ Forall (fun p => p ∈ packages) visited
    /\ match pkg with
       | Some pkg => exists rest, visited = pkg :: rest
       | None => visited = []
       end.
Proof.
  revert pkg sc. induction rounds as [| rounds IH]; intros pkg sc H Hin.
  - destruct pkg; [discriminate H |]. injection H as <-.
    exists []. auto.
  - destruct pkg as [pkg |];
      [| rewrite climb_None in H; injection H as <-; exists []; auto].
    rewrite climb_step in H. cbv zeta in H.
    assert (Hend : forall urls visitedPackages,
      exists visited : list MavenInterimPackageFile,
        propsHierarchy
          {| propsHierarchy := mavenProps pkg :: propsHierarchy sc;
             sc_registryUrls := urls;
             visitedPackages := visitedPackages |}
        = (reverse (mavenProps <$> visited) ++ propsHierarchy sc)%list
        /\ Forall (fun p => p ∈ packages) visited
        /\ exists rest, visited = pkg :: rest).
    { intros urls v. exists [pkg]. simpl.
      split; [reflexivity |]. split; [| eauto].
      constructor; [apply Hin; reflexivity | constructor]. }
    destruct (parent pkg) as [p |]; [| injection H as <-; apply Hend].
    destruct (truthy (VStr p)
              && negb (bool_decide (p ∈ visitedPackages sc)));
      [| injection H as <-; apply Hend].
    apply IH in H as (visited & Hh & Hall & Hhead).
    + exists (pkg :: visited).
      rewrite Hh, fmap_cons, reverse_cons, <- app_assoc. simpl.
      split; [reflexivity |]. split; [| eauto].
      constructor; [apply Hin; reflexivity | exact Hall].
    + intros q Hq. apply extractedPackages_lookup in Hq. tauto.
Qed.

(** The registry URLs that [pkg] adds to the set. *)
Lemma add_registryUrls_elem (pkg : MavenInterimPackageFile) urls url :
  url ∈ add_registryUrls dep_registryUrls pkg urls
  <-> url ∈ urls
      \/ exists ds dep us,
           deps pkg = Some ds /\ dep ∈ ds
           /\ dep_registryUrls dep = Some us /\ url ∈ us.
Proof.
  unfold add_registryUrls. destruct (deps pkg) as [ds |].
  - assert (H : forall (l : list Dependency) urls,
      url ∈ foldl (fun urls dep =>
                     match dep_registryUrls dep with
                     | Some us => set_add_all urls us
                     | None => urls
                     end) urls l
      <-> url ∈ urls
          \/ exists dep us,
               dep ∈ l /\ dep_registryUrls dep = Some us /\ url ∈ us).
    { clear. induction l as [| d l IH]; intros urls; simpl.
      - split; [auto |]. intros [H | (dep & us & Hin & _)]; [exact H |].
        apply elem_of_nil in Hin. destruct Hin.
      - rewrite IH. split.
        + intros [H | (dep & us & Hin & Hus & Hu)].
          * destruct (dep_registryUrls d) as [us |] eqn:Hd; [| auto].
            apply set_add_all_elem in H as [H | H]; [auto |].
            right. exists d, us. split; [left | auto].
          * right. exists dep, us. split; [right; exact Hin | auto].
        + intros [H | (dep & us & Hin & Hus & Hu)].
          * left. destruct (dep_registryUrls d); [| exact H].
            apply set_add_all_elem. auto.
          * apply elem_of_cons in Hin as [-> | Hin].
            -- left. rewrite Hus. apply set_add_all_elem. auto.
            -- right. eauto. }
    rewrite H. split.
    + intros [Hu | (dep & us & Hin & Hus & Hu)]; [auto |].
      right. exists ds, dep, us. auto.
    + intros [Hu | (ds' & dep & us & [= <-] & Hin & Hus & Hu)]; [auto |].
      right. eauto.
  - split; [auto |]. intros [H | (? & ? & ? & [=] & _)]. exact H.
Qed.

Lemma add_registryUrls_NoDup (pkg : MavenInterimPackageFile) urls :
  NoDup urls ->
  NoDup (add_registryUrls dep_registryUrls pkg urls).
Proof.
  unfold add_registryUrls. destruct (deps pkg) as [ds |]; [| auto].
  revert urls. induction ds as [| d ds IH]; intros urls Hurls; simpl;
    [exact Hurls |].
  apply IH. destruct (dep_registryUrls d); [| exact Hurls].
  apply set_add_all_NoDup, Hurls.
Qed.

(** The loop keeps the set a set, keeps what is in it, and adds the
    registry URLs of the package file it starts at. *)
Lemma climb_urls rounds pkg sc sc' :
  climb rounds pkg sc = Some sc' ->
  (NoDup (sc_registryUrls sc) -> NoDup (sc_registryUrls sc'))
  /\ (forall url, url ∈ sc_registryUrls sc -> url ∈ sc_registryUrls sc')
  /\ (forall p url,
        pkg = Some p ->
        url ∈ add_registryUrls dep_registryUrls p
                (sc_registryUrls sc) ->
        url ∈ sc_registryUrls sc').
Proof.
  revert pkg sc. induction rounds as [| rounds IH]; intros pkg sc H.
  - destruct pkg; [discriminate H |]. injection H as <-.
    split; [auto |]. split; [auto |]. intros ? ? [=].
  - destruct pkg as [pkg |].
    2: { rewrite climb_None in H. injection H as <-.
         split; [auto |]. split; [auto |]. intros ? ? [=]. }
    rewrite climb_step in H. cbv zeta in H.
    assert (Hend : forall hierarchy visited,
      let sc0 := {| propsHierarchy := hierarchy;
                    sc_registryUrls :=
                      add_registryUrls dep_registryUrls pkg
                        (sc_registryUrls sc);
                    visitedPackages := visited |} in
      (NoDup (sc_registryUrls sc) -> NoDup (sc_registryUrls sc0))
      /\ (forall url, url ∈ sc_registryUrls sc -> url ∈ sc_registryUrls sc0)
      /\ (forall p url,
            Some pkg = Some p ->
            url ∈ add_registryUrls dep_registryUrls p
                    (sc_registryUrls sc) ->
            url ∈ sc_registryUrls sc0)).
    { intros hierarchy visited. simpl.
      split; [apply add_registryUrls_NoDup |].
      split; [intros url Hu; apply add_registryUrls_elem; auto |].
      intros p url [= <-] Hu. exact Hu. }
    destruct (parent pkg) as [p |]; [| injection H as <-; apply Hend].
    destruct (truthy (VStr p)
              && negb (bool_decide (p ∈ visitedPackages sc)));
      [| injection H as <-; apply Hend].
    apply IH in H as (Hnd & Hkeep & _). simpl in *.
    split; [intros Hs; apply Hnd, add_registryUrls_NoDup, Hs |].
    split.
    + intros url Hu. apply Hkeep, add_registryUrls_elem. auto.
    + intros q url [= <-] Hu. apply Hkeep, Hu.
Qed.

(** The loop for a package file of [extractedPackages] ends. *)
Lemma scope_of_Some name :
  exists sc,
    scope_of dep_registryUrls packages name = Some sc
    /\ forall rounds,
         S (size extracted) <= rounds ->
         climb rounds (extracted !! name) (initial_scope) = Some sc.
Proof.
  unfold scope_of.
  destruct (climb_terminates (S (size extracted)) (extracted !! name)
              initial_scope) as [sc Hsc].
  { simpl. rewrite difference_empty_L, size_dom. lia. }
  exists sc. split; [exact Hsc |].
  intros rounds Hle. eapply climb_more; eauto.
Qed.

(** The loop, when the package file has a parent among the package
    files: it goes on there. *)
Lemma scope_of_parent name (pkg ppkg : MavenInterimPackageFile) p sc :
  extracted !! name = Some pkg ->
  parent pkg = Some p ->
  p <> "" ->
  extracted !! p = Some ppkg ->
  scope_of dep_registryUrls packages name = Some sc ->
  climb (size extracted) (Some ppkg)
    {| propsHierarchy := [mavenProps pkg];
       sc_registryUrls :=
         add_registryUrls dep_registryUrls pkg [];
       visitedPackages := {[p]} ∪ ∅ |}
  = Some sc.
Proof.
  intros Hname Hparent Hp Hpp. unfold scope_of.
  rewrite Hname, climb_step. cbv zeta. rewrite Hparent.
  match goal with
  | |- context [if ?b then _ else _] => assert (Hgo : b = true)
  end.
  { apply andb_true_iff. split.
    - simpl. apply negb_true_iff, String.eqb_neq, Hp.
    - apply negb_true_iff, bool_decide_eq_false. simpl. set_solver. }
  rewrite Hgo, Hpp. simpl. auto.
Qed.

End ResolveParentsFacts.

End MavenParentsFacts.

Module MavenParentsProperties.
Import MavenParents MavenParentsFacts.

Section ResolveParentsProperties.

Context {Dependency : Type}.
Variable dep_registryUrls : Dependency -> option (list string).
Variable packages : list (MavenInterimPackageFile Dependency).

Abbreviation MavenInterimPackageFile := (MavenInterimPackageFile Dependency).
Abbreviation extractedPackages := (extractedPackages packages).
Abbreviation climb := (climb dep_registryUrls packages).
Abbreviation scope_of := (scope_of dep_registryUrls packages).
Abbreviation extractedProps :=
  (extractedProps dep_registryUrls packages).
Abbreviation inheritedUrls :=
  (inheritedUrls dep_registryUrls packages).
Abbreviation own_prop := (own_prop).

(** X25.  The loop over the parents ends for every package file, also
    when the parents form a cycle: a round for every package file and one
    more are enough, and more rounds give the same scope. *)
Theorem scope_of_terminates name :
  exists sc,
    scope_of name = Some sc
    /\ forall rounds,
         S (size extractedPackages) <= rounds ->
         climb rounds (extractedPackages !! name) (initial_scope) = Some sc.
Proof.
  unfold MavenParents.scope_of.
  destruct (climb_terminates dep_registryUrls packages
              (S (size extractedPackages)) (extractedPackages !! name)
              initial_scope) as [sc Hsc].
  - cbn [visitedPackages initial_scope].
    rewrite difference_empty_L, size_dom. lia.
  - exists sc. split; [exact Hsc |].
    intros rounds Hle.
    exact (climb_more dep_registryUrls packages _ _ _ _ _ Hsc Hle).
Qed.

(** X26.  A property that a package file defines itself is in its scope
    with that definition, whatever its parents define. *)
Theorem extractedProps_own name (pkg : MavenInterimPackageFile) key v :
  extractedPackages !! name = Some pkg ->
  own_prop pkg key = Some v ->
  exists props,
    extractedProps name = Some props /\ props !! key = Some v.
Proof.
  intros Hname Hown.
  destruct (scope_of_Some dep_registryUrls packages name)
    as (sc & Hsc & _).
  unfold MavenParents.extractedProps. rewrite Hsc. simpl.
  eexists. split; [reflexivity |].
  unfold MavenParents.scope_of in Hsc. rewrite Hname in Hsc.
  apply climb_hierarchy in Hsc as (visited & Hh & _ & rest & ->).
  2: { intros p [= <-]. apply extractedPackages_lookup in Hname. tauto. }
  rewrite Hh, fmap_cons, reverse_cons. simpl.
  rewrite app_nil_r, assign_snoc.
  unfold MavenParents.own_prop in Hown.
  destruct (mavenProps pkg) as [props |]; [| discriminate Hown].
  simpl in Hown. apply lookup_union_Some_l, Hown.
Qed.

(** X27.  A property that a package file does not define itself, and
    that its parent among the package files defines, is in its scope with
    the definition of the parent. *)
Theorem extractedProps_inherited name (pkg ppkg : MavenInterimPackageFile)
    p key v :
  extractedPackages !! name = Some pkg ->
  own_prop pkg key = None ->
  parent pkg = Some p ->
  p <> "" ->
  extractedPackages !! p = Some ppkg ->
  own_prop ppkg key = Some v ->
  exists props,
    extractedProps name = Some props /\ props !! key = Some v.
Proof.
  intros Hname Hown Hparent Hp Hpp Hpown.
  destruct (scope_of_Some dep_registryUrls packages name)
    as (sc & Hsc & _).
  unfold MavenParents.extractedProps. rewrite Hsc. simpl.
  eexists. split; [reflexivity |].
  apply (scope_of_parent _ _ _ _ _ _ _ Hname Hparent Hp Hpp) in Hsc.
  apply climb_hierarchy in Hsc as (visited & Hh & _ & rest & ->).
  2: { intros q [= <-]. apply extractedPackages_lookup in Hpp. tauto. }
  rewrite Hh, fmap_cons, reverse_cons, <- app_assoc. simpl.
  rewrite assign_snoc2, !assign_snoc.
  unfold MavenParents.own_prop in *.
  destruct (mavenProps ppkg) as [pprops |]; [| discriminate Hpown].
  simpl in Hpown.
  destruct (mavenProps pkg) as [props |]; simpl in Hown.
  - rewrite lookup_union_r by exact Hown.
    apply lookup_union_Some_l, Hpown.
  - apply lookup_union_Some_l, Hpown.
Qed.

(** X28.  Nothing is made up: every property in the scope of a package
    file is defined, with that definition, by one of the package
    files. *)
Theorem extractedProps_origin name props key v :
  extractedProps name = Some props ->
  props !! key = Some v ->
  exists pkg, pkg ∈ packages /\ own_prop pkg key = Some v.
Proof.
  unfold MavenParents.extractedProps.
  destruct (scope_of name) as [sc |] eqn:Hsc; [| discriminate].
  simpl. intros [= <-] Hkey.
  unfold MavenParents.scope_of in Hsc.
  apply climb_hierarchy in Hsc as (visited & Hh & Hall & _).
  2: { intros p Hp. apply extractedPackages_lookup in Hp. tauto. }
  rewrite Hh in Hkey. simpl in Hkey. rewrite app_nil_r in Hkey.
  apply assign_origin in Hkey as [Hkey | (source & Hin & Hkey)].
  { rewrite lookup_empty in Hkey. discriminate Hkey. }
  apply elem_of_reverse, list_elem_of_fmap in Hin as (pkg & Hpkg & Hin).
  exists pkg. split.
  - rewrite Forall_forall in Hall. apply Hall, Hin.
  - unfold MavenParents.own_prop. rewrite <- Hpkg. exact Hkey.
Qed.

(** X29.  After the resolution the registry URLs of a dependency are a
    list without duplicates of its own URLs and the inherited ones, its
    own first. *)
Theorem resolved_registryUrls_spec (rawDep : Dependency) urls :
  NoDup (resolved_registryUrls dep_registryUrls rawDep urls)
  /\ (forall url,
        url ∈ resolved_registryUrls dep_registryUrls rawDep urls
        <-> url ∈ default [] (dep_registryUrls rawDep) \/ url ∈ urls)
  /\ set_of (default [] (dep_registryUrls rawDep))
       `prefix_of`
     resolved_registryUrls dep_registryUrls rawDep urls.
Proof.
  unfold resolved_registryUrls, set_of.
  split; [apply set_add_all_NoDup, NoDup_nil_2 |]. split.
  - intros url. rewrite set_add_all_elem, elem_of_app, elem_of_nil. tauto.
  - rewrite set_add_all_app. apply set_add_all_prefix.
Qed.

(** X30.  The set of inherited registry URLs of a package file has every
    registry URL of the dependencies of the package file itself and of
    its parent among the package files. *)
Theorem inheritedUrls_complete name (pkg from : MavenInterimPackageFile)
    ds dep us url :
  extractedPackages !! name = Some pkg ->
  from = pkg
  \/ (exists p, parent pkg = Some p /\ p <> ""
                /\ extractedPackages !! p = Some from) ->
  deps from = Some ds ->
  dep ∈ ds ->
  dep_registryUrls dep = Some us ->
  url ∈ us ->
  exists urls,
    inheritedUrls name = Some urls /\ NoDup urls /\ url ∈ urls.
Proof.
  intros Hname Hfrom Hds Hdep Hus Hurl.
  destruct (scope_of_Some dep_registryUrls packages name)
    as (sc & Hsc & _).
  unfold MavenParents.inheritedUrls. rewrite Hsc. simpl.
  eexists. split; [reflexivity |].
  assert (Hadd : forall urls,
    url ∈ add_registryUrls dep_registryUrls from urls).
  { intros urls. apply add_registryUrls_elem. right.
    exists ds, dep, us. auto. }
  destruct Hfrom as [-> | (p & Hparent & Hp & Hpp)].
  - unfold MavenParents.scope_of in Hsc. rewrite Hname in Hsc.
    apply climb_urls in Hsc as (Hnd & _ & Hin).
    split; [apply Hnd, NoDup_nil_2 |].
    apply (Hin pkg); [reflexivity | apply Hadd].
  - apply (scope_of_parent _ _ _ _ _ _ _ Hname Hparent Hp Hpp) in Hsc.
    apply climb_urls in Hsc as (Hnd & _ & Hin).
    split; [apply Hnd, add_registryUrls_NoDup, NoDup_nil_2 |].
    apply (Hin from); [reflexivity | apply Hadd].
Qed.

End ResolveParentsProperties.

End MavenParentsProperties.

(** X5 on the caret scheme with ['bump'] and confidence matching. *)
Lemma generateUpdate_call_protocol_witness :
  exists u,
    outcome (run gated (Some "^1.0.0") caret RS_bump (Some "1.0.0")
               "latest" release_1_5_0) = inr u
    /\ trace (run gated (Some "^1.0.0") caret RS_bump (Some "1.0.0")
                "latest" release_1_5_0)
       = (timestamp_events release_1_5_0
          ++ rewrite_events (Some "^1.0.0") caret RS_bump (Some "1.0.0")
               "1.5.0"
          ++ parts_events "1.5.0"
          ++ finish_events gated (Some "^1.0.0") caret RS_bump
               (Some "1.0.0") "1.5.0"
               (get u "newValue") (get u "updateType"))%list.
Proof.
  apply (generateUpdate_call_protocol elapsed classify confidence
           gated (Some "^1.0.0") caret RS_bump (Some "1.0.0") "latest"
           release_1_5_0).
  reflexivity.
Defined.

(** X6 on a run without [currentVersion]. *)
Lemma generateUpdate_early_exit_protocol_witness :
  exists u0,
    run gated (Some "^1.0.0") caret RS_bump None "latest" release_1_5_0
    = ((timestamp_events release_1_5_0
        ++ rewrite_events (Some "^1.0.0") caret RS_bump None "1.5.0"
        ++ parts_events "1.5.0"
        ++ [Log_debug u0 "Update has no currentVersion"])%list,
       inr (<["newValue" := VStr "^1.0.0"]> u0))
    /\ u0 !! "newValue" = Some (VStr "^1.5.0").
Proof.
  apply (generateUpdate_early_exit_protocol elapsed classify confidence
           gated (Some "^1.0.0") caret RS_bump None "latest" release_1_5_0).
  reflexivity.
Defined.

(** X7 on a rewrite that throws. *)
Lemma generateUpdate_lockfile_without_rewrite_witness :
  exists u,
    outcome (run plain (Some "^1.0.0") throwing RS_update_lockfile
               (Some "1.0.0") "latest" release_1_5_0) = inr u
    /\ u !! "newValue" = Some (VStr "^1.0.0")
    /\ u !! "isLockfileUpdate" = Some (VBool true).
Proof.
  apply (generateUpdate_lockfile_without_rewrite elapsed classify confidence
           plain (Some "^1.0.0") throwing (Some "1.0.0") "latest"
           release_1_5_0).
  - reflexivity.
  - right. exists "^1.0.0", "unsupported range". split; reflexivity.
Defined.

(** X8 on the caret scheme with ['bump']. *)
Lemma generateUpdate_flags_iff_witness :
  exists u,
    outcome (run plain (Some "^1.0.0") caret RS_bump (Some "1.0.0")
               "latest" release_1_5_0) = inr u
    /\ (get u "isRange" = VBool true <->
        isVersion caret (get u "newValue") = false)
    /\ (get u "isLockfileUpdate" = VBool true <->
        RS_bump = RS_update_lockfile
        /\ of_optional (Some "^1.0.0") = get u "newValue")
    /\ (get u "isBump" = VBool true <->
        RS_bump = RS_bump
        /\ matches caret (version release_1_5_0) (Some "^1.0.0") = true).
Proof.
  apply (generateUpdate_flags_iff elapsed classify confidence
           plain (Some "^1.0.0") caret RS_bump (Some "1.0.0") "latest"
           release_1_5_0).
  reflexivity.
Defined.

Import RepositoryExamples.

(** X10 on a project in a GitLab subgroup. *)
Lemma getRepositoryConfig_parentOrg_witness :
  exists cfg parent,
    result (config_of global (inl "org/group/project"))
    = inr (keep_all cfg "repository")
    /\ cfg !! "parentOrg" = Some (VStr parent)
    /\ exists final,
         occurs "/" final = false
         /\ "org/group/project" = parent ++ "/" ++ final.
Proof.
  apply (getRepositoryConfig_parentOrg merge_child keep_all "gitlab" "/work" joined
           created global (inl "org/group/project") "org/group/project"
           "/tmp/renovate/./repos/gitlab/org/group/project");
    reflexivity.
Defined.

(** X11 on the same project. *)
Lemma getRepositoryConfig_topLevelOrg_witness :
  exists cfg,
    result (config_of global (inl "org/group/project"))
    = inr (keep_all cfg "repository")
    /\ exists top rest,
         cfg !! "topLevelOrg" = Some (VStr top)
         /\ occurs "/" top = false
         /\ "org/group/project" = top ++ "/" ++ rest.
Proof.
  apply (getRepositoryConfig_topLevelOrg merge_child keep_all "gitlab" "/work" joined
           created global (inl "org/group/project") "org/group/project"
           "/tmp/renovate/./repos/gitlab/org/group/project");
    reflexivity.
Defined.

(** X12 on the same project. *)
Lemma getRepositoryConfig_frame_witness :
  exists cfg,
    config_of global (inl "org/group/project")
    = ([Fs_ensureDir "/tmp/renovate/./repos/gitlab/org/group/project"],
       inr (keep_all cfg "repository"))
    /\ cfg !! "baseDir" = None
    /\ cfg !! "localDir"
       = Some (VStr "/tmp/renovate/./repos/gitlab/org/group/project")
    /\ ("gitlab" = "local" ->
        "/tmp/renovate/./repos/gitlab/org/group/project" = "/work")
    /\ forall k,
         ~ In k ["parentOrg"; "topLevelOrg"; "localDir"; "baseDir"] ->
         cfg !! k
         = merge_child global (child_of (inl "org/group/project")) !! k.
Proof.
  apply (getRepositoryConfig_frame merge_child keep_all "gitlab" "/work" joined
           created global (inl "org/group/project") "org/group/project"
           "/tmp/renovate/./repos/gitlab/org/group/project");
    reflexivity.
Defined.

(** The two organisations of that project, computed. *)
Example getRepositoryConfig_orgs_run :
  exists cfg,
    result (config_of global (inl "org/group/project")) = inr cfg
    /\ cfg !! "parentOrg" = Some (VStr "org/group")
    /\ cfg !! "topLevelOrg" = Some (VStr "org")
    /\ cfg !! "repository" = Some (VStr "org/group/project").
Proof.
  eexists. split; [reflexivity |]. repeat split; reflexivity.
Qed.

Import Maven MavenExamples.


(** X15 on a property defined by itself. *)
Lemma applyProps_self_reference_witness :
  applyProps trim_spaces looping_props 2 library "pom.xml"
  = Some (set_skipReason "recursive-placeholder" library).
Proof.
  apply (MavenProperties.applyProps_self_reference trim_spaces looping_props
           library "pom.xml" 2 "${ revision }" " revision "
           {| val := "${revision}";
              prop_fileReplacePosition := 120;
              packageFile := Some "pom.xml" |}
           "revision");
    try reflexivity.
  lia.
Defined.


(** X17 on the version of a property of the parent. *)
Lemma applyProps_version_property_witness :
  exists resolved,
    applyProps trim_spaces revision_props 2 library "pom.xml" = Some resolved
    /\ currentValue resolved = VStr "1.2.3"
    /\ depName resolved = Some "org.example:library"
    /\ registryUrls resolved = ["https://repo.example/maven2"]
    /\ fileReplacePosition resolved = Some 120
    /\ propSource resolved = Some "parent/pom.xml"
    /\ sharedVariableName resolved = Some "revision"
    /\ editFile resolved = Some "parent/pom.xml"
    /\ skipReason resolved = None.
Proof.
  apply (MavenProperties.applyProps_version_property trim_spaces
           revision_props library "pom.xml" 2 "${ revision }" " revision "
           {| val := "1.2.3";
              prop_fileReplacePosition := 120;
              packageFile := Some "parent/pom.xml" |});
    try reflexivity.
  - lia.
  - repeat constructor.
Defined.

Example start_smooth_run :
  snd (Worker.run_start WorkerExamples.smooth) = Worker.Return 0
  /\ Worker.started (Worker.history (fst (Worker.run_start WorkerExamples.smooth)))
     = [(["org/a"; "org/b"], "org/a"); (["org/a"; "org/b"], "org/b")].
Proof. split; reflexivity. Qed.

Example start_stumbling_run :
  snd (Worker.run_start WorkerExamples.stumbling) = Worker.Return 1
  /\ Worker.started
       (Worker.history (fst (Worker.run_start WorkerExamples.stumbling)))
     = [(["org/a"; "org/b"], "org/a")]
  /\ List.filter Worker.is_report
       (Worker.history (fst (Worker.run_start WorkerExamples.stumbling)))
     = [].
Proof. repeat split; reflexivity. Qed.

Example start_unparsed_run :
  snd (Worker.run_start WorkerExamples.unparsed) = Worker.Return 2
  /\ Worker.config (fst (Worker.run_start WorkerExamples.unparsed)) = None.
Proof. split; reflexivity. Qed.

Lemma start_discovery_only_witness :
  Forall (fun c => Worker.is_repository_call c || Worker.is_report c = false)
    (Worker.history (fst (Worker.run_start WorkerExamples.discovering))).
Proof.
  apply (WorkerProperties.start_discovery_only WorkerExamples.discovering
           "repos.json" "[...]").
  vm_compute. repeat first [left; reflexivity | right].
Defined.

Lemma start_problems_witness :
  snd (Worker.run_start WorkerExamples.stumbling) = Worker.Return 1.
Proof.
  apply (WorkerProperties.start_problems WorkerExamples.stumbling
           (removelast
              (removelast
                 (Worker.history
                    (fst (Worker.run_start WorkerExamples.stumbling)))))
           [Worker.Log "info"
              "Renovate is exiting with a non-zero code due to the following logged errors"]).
  reflexivity.
Defined.

Lemma start_all_repositories_witness :
  exists c,
    In (Worker.Call_globalFinalize (Some c))
      (Worker.history (fst (Worker.run_start WorkerExamples.smooth)))
    /\ Worker.started
         (Worker.history (fst (Worker.run_start WorkerExamples.smooth)))
       = pair c <$> default [] (Worker.repositories WorkerExamples.smooth c).
Proof.
  apply (WorkerProperties.start_all_repositories WorkerExamples.smooth).
  - intros h. reflexivity.
  - vm_compute. repeat first [left; reflexivity | right].
Defined.

Example scope_of_cycle :
  (MavenParents.propsHierarchy
     <$> MavenParents.scope_of MavenParentsExamples.urls_of
           MavenParentsExamples.reactor "child/pom.xml")
  = Some [MavenParents.mavenProps MavenParentsExamples.child;
          MavenParents.mavenProps MavenParentsExamples.root;
          MavenParents.mavenProps MavenParentsExamples.child]
  /\ MavenParents.inheritedUrls MavenParentsExamples.urls_of
       MavenParentsExamples.reactor "child/pom.xml"
     = Some ["https://child.example"; "https://root.example"].
Proof. split; vm_compute; reflexivity. Qed.

Lemma extractedProps_own_witness :
  exists props,
    MavenParents.extractedProps MavenParentsExamples.urls_of
      MavenParentsExamples.reactor "child/pom.xml" = Some props
    /\ props !! "a" = Some (MavenParentsExamples.prop "1").
Proof.
  apply (MavenParentsProperties.extractedProps_own
           MavenParentsExamples.urls_of MavenParentsExamples.reactor
           "child/pom.xml" MavenParentsExamples.child "a"
           (MavenParentsExamples.prop "1"));
    vm_compute; reflexivity.
Defined.

Lemma extractedProps_inherited_witness :
  exists props,
    MavenParents.extractedProps MavenParentsExamples.urls_of
      MavenParentsExamples.reactor "child/pom.xml" = Some props
    /\ props !! "b" = Some (MavenParentsExamples.prop "2").
Proof.
  apply (MavenParentsProperties.extractedProps_inherited
           MavenParentsExamples.urls_of MavenParentsExamples.reactor
           "child/pom.xml" MavenParentsExamples.child
           MavenParentsExamples.root "pom.xml" "b"
           (MavenParentsExamples.prop "2"));
    try discriminate; vm_compute; reflexivity.
Defined.

Lemma extractedProps_origin_witness :
  exists pkg,
    pkg ∈ MavenParentsExamples.reactor
    /\ MavenParents.own_prop pkg "b" = Some (MavenParentsExamples.prop "2").
Proof.
  apply (MavenParentsProperties.extractedProps_origin
           MavenParentsExamples.urls_of MavenParentsExamples.reactor
           "child/pom.xml"
           (default ∅
              (MavenParents.extractedProps MavenParentsExamples.urls_of
                 MavenParentsExamples.reactor "child/pom.xml"))
           "b" (MavenParentsExamples.prop "2"));
    vm_compute; reflexivity.
Defined.

Lemma inheritedUrls_complete_witness :
  exists urls,
    MavenParents.inheritedUrls MavenParentsExamples.urls_of
      MavenParentsExamples.reactor "child/pom.xml" = Some urls
    /\ NoDup urls /\ "https://root.example" ∈ urls.
Proof.
  apply (MavenParentsProperties.inheritedUrls_complete
           MavenParentsExamples.urls_of MavenParentsExamples.reactor
           "child/pom.xml" MavenParentsExamples.child
           MavenParentsExamples.root
           [Some ["https://root.example"]; None]
           (Some ["https://root.example"])
           ["https://root.example"] "https://root.example").
  - vm_compute. reflexivity.
  - right. exists "pom.xml".
    split; [reflexivity |]. split; [discriminate |].
    vm_compute. reflexivity.
  - reflexivity.
  - constructor.
  - reflexivity.
  - constructor.
Defined.
